(** * Adaptive histogram equalization: tiling and interpolation engine

    A shallow embedding of [examples/histogram_equalization/hist_equ.py]
    (functions [compute_tiles], [compute_interpolation_tiles],
    [compute_luts], [compute_luts_optim], [compute_equalized_tiles] and the
    re-assembly lines of [main]) together with the properties stated about
    them.

    Conventions of the embedding.
    - Python integers are [Z]; [//] is [Z.div] and [%] is [Z.modulo], which
      have the sign conventions of Python.
    - Floating point values are rationals ([Q]).  The blending arithmetic
      of [compute_equalized_tiles] is single precision: each operation is
      rounded to nearest ([float32]).  Pixel values, the interpolation
      weights before they are stored, and the tables of
      [compute_luts_optim] are kept as exact rationals.  Division of a
      float tensor by zero does not raise in torch; its IEEE results are
      kept apart in the type [fval].
    - A tensor is its shape and its element-at-index map; the torch
      operations used by the source ([unfold], [squeeze], [unbind], [cat],
      [expand], [gather], ...) are defined on that representation with the
      run-time checks they perform.
    - Python exceptions are values of [exn]; fallible code lives in the
      error monad [result]. *)

From Stdlib Require Import ZArith QArith Qround Qabs Qpower List Sorted Lia Lqa Bool String.
Import ListNotations.
Open Scope Z_scope.

(** ** Exceptions and the error monad *)

Inductive exn : Type :=
| ZeroDivisionError
| AssertionError
| RuntimeError
| IndexError
| ValueError.

Definition exn_name (e : exn) : string :=
  match e with
  | ZeroDivisionError => "ZeroDivisionError"
  | AssertionError => "AssertionError"
  | RuntimeError => "RuntimeError"
  | IndexError => "IndexError"
  | ValueError => "ValueError"
  end.

Inductive result (A : Type) : Type :=
| Ok (a : A)
| Raise (e : exn).
Arguments Ok {A} a.
Arguments Raise {A} e.

Definition bind {A B : Type} (m : result A) (k : A -> result B) : result B :=
  match m with
  | Ok a => k a
  | Raise e => Raise e
  end.

Declare Scope py_scope.
Delimit Scope py_scope with py.
Notation "x <- m ;; k" := (bind m (fun x => k))
  (at level 61, m at next level, right associativity) : py_scope.
Notation "' pat <- m ;; k" := (bind m (fun x => match x with pat => k end))
  (at level 61, pat pattern, m at next level, right associativity) : py_scope.
Notation "m ;;; k" := (bind m (fun _ => k))
  (at level 61, right associativity) : py_scope.
Open Scope py_scope.

(** [assert cond] *)
Definition assert (b : bool) : result unit :=
  if b then Ok tt else Raise AssertionError.

(** ** Floating point *)

(** [2 ^ e] *)
Definition pow2 (e : Z) : Q := (2 ^ e)%Q.

(** [floor (log2 x)] for [0 < x]. *)
Definition binade (x : Q) : Z :=
  let k := Z.log2 (Qnum x) - Z.log2 (Z.pos (Qden x)) in
  if Qle_bool (pow2 k) x then k else k - 1.

(** The integer nearest to [s]; the even one of two at the same
    distance. *)
Definition round_half_even (s : Q) : Z :=
  let f := Qfloor s in
  match (s - inject_Z f ?= 1 # 2)%Q with
  | Lt => f
  | Gt => f + 1
  | Eq => if Z.even f then f else f + 1
  end.

(** Rounding of [0 < x] to a significand of [prec] bits. *)
Definition round_pos (prec : Z) (x : Q) : Q :=
  let e := binade x - (prec - 1) in
  (inject_Z (round_half_even (x / pow2 e)) * pow2 e)%Q.

(** The binary floating-point number with [prec] bits of significand that
    is nearest to [x] (round to nearest, ties to even: the rounding of
    every IEEE 754 operation).  The exponent range is not bounded:
    overflow and underflow are not modelled. *)
Definition round_float (prec : Z) (x : Q) : Q :=
  let x := Qred x in
  Qred (match (x ?= 0)%Q with
        | Eq => 0
        | Gt => round_pos prec x
        | Lt => - round_pos prec (- x)
        end)%Q.

(** Single precision ([torch.float32]) and double precision (Python's
    [float]). *)
Definition float32 : Q -> Q := round_float 24.
Definition float64 : Q -> Q := round_float 53.

(** A number is representable with [prec] bits when it is [M * 2 ^ E] for
    integers [M] and [E] with [|M| <= 2 ^ prec]. *)
Definition representable (prec : Z) (f : Q) : Prop :=
  exists M E, Z.abs M <= 2 ^ prec /\ (f == inject_Z M * pow2 E)%Q.

(** ** Grid geometry: lines 148-158 of [compute_tiles] *)

(** [math.ceil(a / b)] on integers: the quotient is rounded up; a zero
    divisor raises [ZeroDivisionError].  Python forms the quotient as a
    double ([float_ceil_div] below); for the sizes of an image that holds
    pixels, which are below [2 ^ 53], its ceiling is the exact one
    (lemma [float_ceil_div_exact]). *)
Definition ceil_div (a b : Z) : result Z :=
  if b =? 0 then Raise ZeroDivisionError else Ok (- ((- a) / b)).

(** [math.ceil(a / b)] as Python evaluates it: [a / b] is the double
    nearest to the quotient. *)
Definition float_ceil_div (a b : Z) : result Z :=
  if b =? 0 then Raise ZeroDivisionError
  else Ok (Qceiling (float64 (inject_Z a / inject_Z b))).

(** [k += 1 if k % 2 else 0] *)
Definition bump_even (k : Z) : Z :=
  k + (if k mod 2 =? 0 then 0 else 1).

Record geometry : Type := mkGeometry {
  kernel_vert : Z;
  kernel_horz : Z;
  pad_vert : Z;
  pad_horz : Z
}.

Definition tile_geometry (h w : Z) (grid_size : Z * Z) (even_tile_size : bool)
  : result geometry :=
  kv <- ceil_div h (fst grid_size) ;;
  kh <- ceil_div w (snd grid_size) ;;
  let kv := if even_tile_size then bump_even kv else kv in
  let kh := if even_tile_size then bump_even kh else kh in
  Ok {| kernel_vert := kv;
        kernel_horz := kh;
        pad_vert := kv * fst grid_size - h;
        pad_horz := kh * snd grid_size - w |}.

(** Lines 148-158 with the quotients as Python computes them, through a
    double.  [compute_tiles] below uses [tile_geometry]: the two agree on
    every image that holds pixels (theorem
    [tile_geometry_minimal_padding]). *)
Definition float_tile_geometry (h w : Z) (grid_size : Z * Z)
  (even_tile_size : bool) : result geometry :=
  kv <- float_ceil_div h (fst grid_size) ;;
  kh <- float_ceil_div w (snd grid_size) ;;
  let kv := if even_tile_size then bump_even kv else kv in
  let kh := if even_tile_size then bump_even kh else kh in
  Ok {| kernel_vert := kv;
        kernel_horz := kh;
        pad_vert := kv * fst grid_size - h;
        pad_horz := kh * snd grid_size - w |}.

(** The mathematical ceiling of [a / b] for [0 < b]: the least [c] with
    [a <= c * b]. *)
Definition is_ceiling (a b c : Z) : Prop :=
  (c - 1) * b < a <= c * b.

(** A tile extent [t] is admissible for [n] pixels over [g] grid cells when
    the tiles cover the pixels, and [t] is even when that is requested. *)
Definition admissible (even : bool) (n g t : Z) : Prop :=
  n <= t * g /\ (even = true -> t mod 2 = 0).

(** What one axis of the geometry has to satisfy. *)
Definition axis_ok (even : bool) (n g t pad : Z) : Prop :=
  (exists c, is_ceiling n g c /\
             t = if even then (if c mod 2 =? 0 then c else c + 1) else c) /\
  n <= t * g /\
  pad = t * g - n /\
  0 <= pad /\
  (forall t', admissible even n g t' -> t <= t' /\ pad <= t' * g - n).

(** ** Tensors *)

(** A tensor is a shape and the map from a multi-index to the element
    stored there.  Only indices within the shape are meaningful. *)
Record tensor (A : Type) : Type := mkTensor {
  shape : list Z;
  item : list Z -> A
}.
Arguments mkTensor {A} shape item.
Arguments shape {A} t.
Arguments item {A} t idx.

Fixpoint in_bounds (idx sh : list Z) : Prop :=
  match idx, sh with
  | [], [] => True
  | i :: idx', n :: sh' => 0 <= i < n /\ in_bounds idx' sh'
  | _, _ => False
  end.

(** Two tensors are the same when their shapes are equal and they hold the
    same element at every index of that shape. *)
Definition tensor_eq {A : Type} (t1 t2 : tensor A) : Prop :=
  shape t1 = shape t2 /\
  forall idx, in_bounds idx (shape t1) -> item t1 idx = item t2 idx.

(** [range(n)] *)
Fixpoint range_from (start : Z) (len : nat) : list Z :=
  match len with
  | O => []
  | S len' => start :: range_from (start + 1) len'
  end.

Definition range (n : Z) : list Z := range_from 0 (Z.to_nat n).

(** All multi-indices of a shape, in row-major order. *)
Fixpoint indices (sh : list Z) : list (list Z) :=
  match sh with
  | [] => [[]]
  | n :: sh' => flat_map (fun i => map (cons i) (indices sh')) (range n)
  end.

(** The elements of a tensor, in row-major order ([t.flatten()]). *)
Definition elements {A : Type} (t : tensor A) : list A :=
  map (item t) (indices (shape t)).

Fixpoint set_nth (d : nat) (v : Z) (l : list Z) : list Z :=
  match d, l with
  | _, [] => []
  | O, _ :: l' => v :: l'
  | S d', x :: l' => x :: set_nth d' v l'
  end.

Fixpoint remove_nth (d : nat) (l : list Z) : list Z :=
  match d, l with
  | _, [] => []
  | O, _ :: l' => l'
  | S d', x :: l' => x :: remove_nth d' l'
  end.

Fixpoint insert_nth (d : nat) (v : Z) (l : list Z) : list Z :=
  match d, l with
  | O, _ => v :: l
  | S d', [] => [v]
  | S d', x :: l' => x :: insert_nth d' v l'
  end.

Definition size {A : Type} (t : tensor A) (d : nat) : Z := nth d (shape t) 0.

Definition ndim {A : Type} (t : tensor A) : nat := List.length (shape t).

(** [t.shape[-k]] *)
Definition size_from_end {A : Type} (t : tensor A) (k : nat) : result Z :=
  if (k <=? ndim t)%nat && (1 <=? k)%nat
  then Ok (nth (ndim t - k) (shape t) 0)
  else Raise IndexError.

Definition tmap {A B : Type} (f : A -> B) (t : tensor A) : tensor B :=
  mkTensor (shape t) (fun idx => f (item t idx)).

(** [torch.zeros_like(t, dtype=torch.long)] *)
Definition zeros_like {A : Type} (t : tensor A) : tensor Z :=
  mkTensor (shape t) (fun _ => 0).

(** [t.unfold(d, size, step)]: windows of [size] elements every [step]
    along dimension [d]; the window becomes a new last dimension.  torch
    rejects a window larger than the dimension and a non-positive step. *)
Definition unfold {A : Type} (t : tensor A) (d : nat) (sz step : Z)
  : result (tensor A) :=
  if (ndim t <=? d)%nat then Raise IndexError
  else if size t d <? sz then Raise RuntimeError
  else if step <=? 0 then Raise RuntimeError
  else Ok (mkTensor
             (set_nth d ((size t d - sz) / step + 1) (shape t) ++ [sz])
             (fun idx =>
                item t (set_nth d (nth d idx 0 * step + last idx 0)
                                (removelast idx)))).

(** [t.squeeze(d)]: drops dimension [d] when it has size one. *)
Definition squeeze {A : Type} (t : tensor A) (d : nat) : tensor A :=
  if (d <? ndim t)%nat && (size t d =? 1)
  then mkTensor (remove_nth d (shape t))
                (fun idx => item t (insert_nth d 0 idx))
  else t.

(** [t.unsqueeze(0)], also written [t[None]] *)
Definition unsqueeze0 {A : Type} (t : tensor A) : tensor A :=
  mkTensor (1 :: shape t) (fun idx => item t (tl idx)).

(** [t.T] *)
Definition transpose {A : Type} (t : tensor A) : tensor A :=
  mkTensor (rev (shape t)) (fun idx => item t (rev idx)).

(** [t.select(d, k)]: the sub-tensor at position [k] of dimension [d]. *)
Definition select {A : Type} (t : tensor A) (d : nat) (k : Z) : tensor A :=
  mkTensor (remove_nth d (shape t)) (fun idx => item t (insert_nth d k idx)).

(** [t.unbind(d)] *)
Definition unbind {A : Type} (t : tensor A) (d : nat) : list (tensor A) :=
  map (select t d) (range (size t d)).

Fixpoint cat_item {A : Type} (t0 : tensor A) (ts : list (tensor A)) (d : nat)
  (idx : list Z) : A :=
  match ts with
  | [] => item t0 idx
  | t1 :: ts' =>
      if nth d idx 0 <? size t0 d then item t0 idx
      else cat_item t1 ts' d (set_nth d (nth d idx 0 - size t0 d) idx)
  end.

Definition list_eqb (l1 l2 : list Z) : bool :=
  if list_eq_dec Z.eq_dec l1 l2 then true else false.

Definition sum_list (l : list Z) : Z := fold_right Z.add 0 l.

(** [torch.cat(ts, d)]: the list must be non-empty and the tensors must
    agree on every dimension but [d]. *)
Definition cat {A : Type} (ts : list (tensor A)) (d : nat) : result (tensor A) :=
  match ts with
  | [] => Raise RuntimeError
  | t0 :: ts' =>
      if (d <? ndim t0)%nat &&
         forallb (fun t => list_eqb (remove_nth d (shape t))
                                    (remove_nth d (shape t0))) ts'
      then Ok (mkTensor
                 (set_nth d (sum_list (map (fun t => size t d) ts)) (shape t0))
                 (cat_item t0 ts' d))
      else Raise RuntimeError
  end.

(** Python indexing of one dimension of extent [n] by [k]: negative
    indices count from the end. *)
Definition py_index (n k : Z) : result Z :=
  if (k <? - n) || (n <=? k) then Raise IndexError
  else Ok (if k <? 0 then k + n else k).

Fixpoint py_indices (sh ks : list Z) : result (list Z) :=
  match ks, sh with
  | [], _ => Ok []
  | _ :: _, [] => Raise IndexError
  | k :: ks', n :: sh' =>
      k' <- py_index n k ;;
      r <- py_indices sh' ks' ;;
      Ok (k' :: r)
  end.

(** [t[k1, ..., km]] with integer indices. *)
Definition getitem {A : Type} (t : tensor A) (ks : list Z) : result (tensor A) :=
  ks' <- py_indices (shape t) ks ;;
  Ok (mkTensor (skipn (List.length ks) (shape t))
               (fun idx => item t (ks' ++ idx))).

Fixpoint forallb2 {A B : Type} (f : A -> B -> bool) (l1 : list A) (l2 : list B)
  : bool :=
  match l1, l2 with
  | [], [] => true
  | a :: l1', b :: l2' => f a b && forallb2 f l1' l2'
  | _, _ => false
  end.

Fixpoint map2 {A B C : Type} (f : A -> B -> C) (l1 : list A) (l2 : list B)
  : list C :=
  match l1, l2 with
  | a :: l1', b :: l2' => f a b :: map2 f l1' l2'
  | _, _ => []
  end.

(** [t.expand(sizes)]: dimensions of size one are repeated, leading
    dimensions may be added; any other mismatch is rejected. *)
Definition expand {A : Type} (t : tensor A) (sizes : list Z) : result (tensor A) :=
  let k := (List.length sizes - ndim t)%nat in
  if (ndim t <=? List.length sizes)%nat &&
     forallb2 (fun n s => (n =? s) || (n =? 1)) (shape t) (skipn k sizes)
  then Ok (mkTensor sizes
             (fun idx =>
                item t (map2 (fun n i => if n =? 1 then 0 else i)
                             (shape t) (skipn k idx))))
  else Raise RuntimeError.

Fixpoint broadcast_rev (s1 s2 : list Z) : result (list Z) :=
  match s1, s2 with
  | [], s => Ok s
  | s, [] => Ok s
  | n1 :: s1', n2 :: s2' =>
      rest <- broadcast_rev s1' s2' ;;
      if n1 =? n2 then Ok (n1 :: rest)
      else if n1 =? 1 then Ok (n2 :: rest)
      else if n2 =? 1 then Ok (n1 :: rest)
      else Raise RuntimeError
  end.

(** The common shape of two operands under torch's broadcasting rule
    (shapes are aligned at their last dimension). *)
Definition broadcast_shapes (s1 s2 : list Z) : result (list Z) :=
  r <- broadcast_rev (rev s1) (rev s2) ;;
  Ok (rev r).

(** An element-wise binary operator with broadcasting, such as
    [a * b], [a - b], [a + b] on tensors. *)
Definition bcast2 {A B C : Type} (f : A -> B -> C) (a : tensor A) (b : tensor B)
  : result (tensor C) :=
  sh <- broadcast_shapes (shape a) (shape b) ;;
  a' <- expand a sh ;;
  b' <- expand b sh ;;
  Ok (mkTensor sh (fun idx => f (item a' idx) (item b' idx))).

(** [torch.arange(start, stop, step)] for a non-zero step. *)
Definition arange (start stop step : Z) : tensor Z :=
  mkTensor [Z.max 0 (- ((start - stop) / step))]
           (fun idx => start + nth 0 idx 0 * step).

(** [torch.gather(input, 1, index)] on 2-D tensors:
    [out[c][p] = input[c][index[c][p]]]; torch rejects an index tensor
    with more rows than [input] and any index outside the gathered
    dimension. *)
Definition gather1 {A : Type} (input : tensor A) (index : tensor Z)
  : result (tensor A) :=
  if (ndim input =? 2)%nat && (ndim index =? 2)%nat &&
     (size index 0 <=? size input 0) &&
     forallb (fun idx => (0 <=? item index idx) &&
                         (item index idx <? size input 1))
             (indices (shape index))
  then Ok (mkTensor (shape index)
             (fun idx => item input [nth 0 idx 0; item index idx]))
  else Raise RuntimeError.

(** [t.flatten(-2, -1)] *)
Definition flatten_last2 {A : Type} (t : tensor A) : result (tensor A) :=
  let n := ndim t in
  if (n <? 2)%nat then Raise IndexError
  else
    let th := size t (n - 2) in
    let tw := size t (n - 1) in
    Ok (mkTensor (firstn (n - 2) (shape t) ++ [th * tw])
          (fun idx =>
             let p := last idx 0 in
             item t (removelast idx ++ [p / tw; p mod tw]))).

(** [a.reshape(c, th, tw)] of a 2-D tensor: same elements in row-major
    order; the number of elements must not change. *)
Definition reshape3 {A : Type} (a : tensor A) (c th tw : Z) : result (tensor A) :=
  match shape a with
  | [c'; p] =>
      if c' * p =? c * th * tw
      then Ok (mkTensor [c; th; tw]
                 (fun idx =>
                    match idx with
                    | [ic; y; x] =>
                        let l := (ic * th + y) * tw + x in
                        item a [l / p; l mod p]
                    | _ => item a idx
                    end))
      else Raise RuntimeError
  | _ => Raise RuntimeError
  end.

(** [t[k1, ..., km] = v] on a tensor of integers: the value is broadcast
    to the selected slice. *)
Definition setitem (t : tensor Z) (ks : list Z) (v : tensor Z)
  : result (tensor Z) :=
  ks' <- py_indices (shape t) ks ;;
  v' <- expand v (skipn (List.length ks) (shape t)) ;;
  Ok (mkTensor (shape t)
        (fun idx =>
           if list_eqb (firstn (List.length ks) idx) ks'
           then item v' (skipn (List.length ks) idx)
           else item t idx)).

(** [for k in l: s = body(k, s)] *)
Fixpoint for_each {S : Type} (l : list Z) (body : Z -> S -> result S) (s : S)
  : result S :=
  match l with
  | [] => Ok s
  | k :: l' => s' <- body k s ;; for_each l' body s'
  end.

(** ** Padding and tile extraction: [compute_tiles] *)

(** Modelled from the spec: [kornia.utils.image._to_bchw] is not part of
    the sources.  Following the data model (an image is
    [batch, channel, height, width]) and the docstring of [compute_tiles]
    (shape [(B, C, H, W)] or [(C, H, W)]), a 4-D tensor is returned as it
    is, a 3-D tensor gets a leading batch dimension of size one, and any
    other rank is rejected. *)
Definition _to_bchw {A : Type} (imgs : tensor A) : result (tensor A) :=
  match ndim imgs with
  | 4%nat => Ok imgs
  | 3%nat => Ok (unsqueeze0 imgs)
  | _ => Raise ValueError
  end.

(** Source position of a padded coordinate under reflection at the far
    edge of an axis of [n] elements. *)
Definition reflect (n i : Z) : Z :=
  if i <? n then i else 2 * (n - 1) - i.

(** [F.pad(t, [0, pad_right, 0, pad_bottom], mode='reflect')] on a 4-D
    tensor: torch requires each padding to be smaller than the dimension
    it extends, and a non-empty result. *)
Definition pad_reflect {A : Type} (t : tensor A) (pad_right pad_bottom : Z)
  : result (tensor A) :=
  match shape t with
  | [b; c; h; w] =>
      if (pad_right <? w) && (pad_bottom <? h) &&
         (1 <=? h + pad_bottom) && (1 <=? w + pad_right)
      then Ok (mkTensor [b; c; h + pad_bottom; w + pad_right]
                 (fun idx =>
                    match idx with
                    | [ib; ic; y; x] => item t [ib; ic; reflect h y; reflect w x]
                    | _ => item t idx
                    end))
      else Raise RuntimeError
  | _ => Raise RuntimeError
  end.

(** Lines 163-171: the three [unfold]s, the [squeeze] and the two
    assertions on the grid size. *)
Definition extract_tiles {A : Type} (batch : tensor A) (kv kh : Z)
  (grid_size : Z * Z) : result (tensor A) :=
  let c := size batch (ndim batch - 3) in
  t <- unfold batch 1 c c ;;
  t <- unfold t 2 kv kv ;;
  t <- unfold t 3 kh kh ;;
  let tiles := squeeze t 1 in
  gh <- size_from_end tiles 5 ;;
  assert (gh =? fst grid_size) ;;;
  gw <- size_from_end tiles 4 ;;
  assert (gw =? snd grid_size) ;;;
  Ok tiles.

Definition compute_tiles {A : Type} (imgs : tensor A) (grid_size : Z * Z)
  (even_tile_size : bool) : result (tensor A * tensor A) :=
  batch <- _to_bchw imgs ;;
  let h := size batch 2 in
  let w := size batch 3 in
  g <- tile_geometry h w grid_size even_tile_size ;;
  batch <- (if (0 <? pad_vert g) || (0 <? pad_horz g)
            then pad_reflect batch (pad_horz g) (pad_vert g)
            else Ok batch) ;;
  tiles <- extract_tiles batch (kernel_vert g) (kernel_horz g) grid_size ;;
  Ok (tiles, batch).

(** ** Query tiles: [compute_interpolation_tiles] *)

(** [a % b] of Python integers. *)
Definition py_mod (a b : Z) : result Z :=
  if b =? 0 then Raise ZeroDivisionError else Ok (a mod b).

Definition compute_interpolation_tiles {A : Type} (padded_imgs : tensor A)
  (tile_size : Z * Z) : result (tensor A) :=
  assert (ndim padded_imgs =? 4)%nat ;;;
  r <- py_mod (size padded_imgs 2) (fst tile_size) ;;
  assert (r =? 0) ;;;
  r <- py_mod (size padded_imgs 3) (snd tile_size) ;;
  assert (r =? 0) ;;;
  let interp_kernel_vert := fst tile_size / 2 in
  let interp_kernel_horz := snd tile_size / 2 in
  let c := size padded_imgs 1 in
  t <- unfold padded_imgs 1 c c ;;
  t <- unfold t 2 interp_kernel_vert interp_kernel_vert ;;
  t <- unfold t 3 interp_kernel_horz interp_kernel_horz ;;
  let interp_tiles := squeeze t 1 in
  n <- size_from_end interp_tiles 3 ;;
  assert (n =? c) ;;;
  n <- size_from_end interp_tiles 2 ;;
  assert (2 * n =? fst tile_size) ;;;
  n <- size_from_end interp_tiles 1 ;;
  assert (2 * n =? snd tile_size) ;;;
  Ok interp_tiles.

(** ** Re-assembly: lines 391-392 of [main]

    [p1 = torch.cat(tiles.unbind(2), 4); p2 = torch.cat(p1.unbind(1), 2)] *)
Definition compose_tiles {A : Type} (tiles : tensor A) : result (tensor A) :=
  p1 <- cat (unbind tiles 2) 4 ;;
  p2 <- cat (unbind p1 1) 2 ;;
  Ok p2.


(** ** Lookup tables: [compute_luts] and [compute_luts_optim] *)

(** Bin of a value under [torch.histc(., bins=256, min=0, max=1)]: values
    outside [[0, 1]] are ignored, the value [1] falls into the last bin. *)
Definition histc_bin (v : Q) : option Z :=
  if Qle_bool 0%Q v && Qle_bool v 1%Q
  then Some (Z.min (Qfloor (v * inject_Z 256)%Q) 255)
  else None.

Definition in_bin (k : Z) (v : Q) : bool :=
  match histc_bin v with
  | Some b => b =? k
  | None => false
  end.

(** [torch.histc(patch, bins=256, min=0, max=1)]; the counts are kept as
    integers. *)
Definition histc (patch : list Q) : list Z :=
  map (fun k => Z.of_nat (List.length (filter (in_bin k) patch))) (range 256).

Fixpoint cumsum_from (acc : Z) (l : list Z) : list Z :=
  match l with
  | [] => []
  | x :: l' => (acc + x) :: cumsum_from (acc + x) l'
  end.

(** [torch.cumsum(l, 0)] *)
Definition cumsum (l : list Z) : list Z := cumsum_from 0 l.

Definition clamp (lo hi x : Z) : Z := Z.min (Z.max x lo) hi.

(** Lines 231-236 of the inner function [lut] of [compute_luts], on the
    histogram.  [histo > 0.999] selects the bins with a count of at least
    one. *)
Definition lut_step (histo : list Z) : Z :=
  let nonzero_histo := filter (fun c => 1 <=? c) histo in
  match nonzero_histo with
  | [] => 0
  | _ => (sum_list nonzero_histo - last nonzero_histo 0) / 255
  end.

(** Lines 237-241. *)
Definition lut_of_histo (histo : list Z) : list Z :=
  let step := lut_step histo in
  if step =? 0 then map (fun _ => 0) histo
  else
    let lut := map (fun cu => (cu + step / 2) / step) (cumsum histo) in
    map (clamp 0 255) (0 :: removelast lut).

(** The inner function [lut] of [compute_luts] (with [diff=False], the only
    way it is called). *)
Definition lut (patch : list Q) : list Z := lut_of_histo (histc patch).

(** The values a float can take where the source divides by a float that
    may be zero. *)
Inductive fval : Type :=
| Finite (q : Q)
| PlusInf
| MinusInf
| NaN.

(** [a // b] on floats: a zero divisor gives an infinity or a NaN, it does
    not raise. *)
Definition float_floordiv (a b : Q) : fval :=
  if Qeq_bool b 0%Q then
    if Qlt_le_dec 0%Q a then PlusInf
    else if Qlt_le_dec a 0%Q then MinusInf
    else NaN
  else Finite (inject_Z (Qfloor (a / b)%Q)).

(** [x.clamp(0, 255)] on a float: NaN stays NaN. *)
Definition fclamp (v : fval) : fval :=
  match v with
  | Finite q =>
      if Qlt_le_dec q 0%Q then Finite 0%Q
      else if Qlt_le_dec (inject_Z 255) q then Finite (inject_Z 255)
      else Finite q
  | PlusInf => Finite (inject_Z 255)
  | MinusInf => Finite 0%Q
  | NaN => NaN
  end.

(** Lines 266 and 272-274 of [compute_luts_optim] for one row of [tiles]
    (one tile of one channel, flattened), [pixels] being [TH * TW]. *)
Definition luts_optim_row (pixels : Z) (tile : list Q) : list fval :=
  let histo := histc tile in
  let step : Q := (inject_Z (pixels - 1) / inject_Z 255)%Q in
  let half : Q := inject_Z (Qfloor (step / inject_Z 2)%Q) in
  let luts := map (fun cu => float_floordiv (inject_Z cu + half)%Q step)
                  (cumsum histo) in
  map fclamp (Finite 0%Q :: removelast luts).

(** The pixels of the tile at [prefix = [b; gj; gi; c]] of a tile set. *)
Definition tile_pixels {A : Type} (tiles : tensor A) (prefix : list Z) : list A :=
  map (fun yx => item tiles (prefix ++ yx)) (indices (skipn 4 (shape tiles))).

(** [compute_luts] on a tile set [(B, GH, GW, C, TH, TW)]: [torch.stack]
    rejects an empty list. *)
Definition compute_luts (tiles_x_im : tensor Q) : result (tensor Z) :=
  match shape tiles_x_im with
  | [b; gh; gw; c; th; tw] =>
      if (0 <? b) && (0 <? gh) && (0 <? gw) && (0 <? c)
      then Ok (mkTensor [b; gh; gw; c; 256]
                 (fun idx =>
                    nth (Z.to_nat (last idx 0))
                        (lut (tile_pixels tiles_x_im (removelast idx))) 0))
      else Raise RuntimeError
  | _ => Raise RuntimeError
  end.

(** [compute_luts_optim] (with [diff=False]) on a tile set
    [(B, GH, GW, C, TH, TW)]: [reshape(-1, 0)] is rejected. *)
Definition compute_luts_optim (tiles_x_im : tensor Q) : result (tensor fval) :=
  match shape tiles_x_im with
  | [b; gh; gw; c; th; tw] =>
      let pixels := th * tw in
      if pixels =? 0 then Raise RuntimeError
      else Ok (mkTensor [b; gh; gw; c; 256]
                 (fun idx =>
                    nth (Z.to_nat (last idx 0))
                        (luts_optim_row pixels
                           (tile_pixels tiles_x_im (removelast idx))) NaN))
  | _ => Raise RuntimeError
  end.

(** ** Interpolation: [compute_equalized_tiles] *)

(** [x.long()] on a float: truncation towards zero. *)
Definition to_long (q : Q) : Z :=
  if Qle_bool 0%Q q then Qfloor q else Qceiling q.

(** [(v * 255).long()] *)
Definition quantize (v : Q) : Z := to_long (v * inject_Z 255)%Q.

(** Line 301-302: the vertical weights, shape [2 x TH x TW]. *)
Definition vertical_weights (th tw : Z) : result (tensor Q) :=
  let ramp := tmap (fun z => (inject_Z z / inject_Z (2 * th - 1))%Q)
                   (arange (2 * th - 1) (-1) (-1)) in
  ih <- expand (transpose (unsqueeze0 ramp)) [2 * th; tw] ;;
  ih <- unfold ih 0 th th ;;
  ih <- unfold ih 1 tw tw ;;
  Ok (squeeze ih 1).

(** Line 303-304: the horizontal weights, shape [2 x TH x TW]. *)
Definition horizontal_weights (th tw : Z) : result (tensor Q) :=
  let ramp := tmap (fun z => (inject_Z z / inject_Z (2 * tw - 1))%Q)
                   (arange (2 * tw - 1) (-1) (-1)) in
  iw <- expand ramp [th; 2 * tw] ;;
  iw <- unfold iw 0 th th ;;
  iw <- unfold iw 1 tw tw ;;
  Ok (squeeze iw 0).

(** An integer tensor that meets a float tensor in an operation is
    converted to single precision. *)
Definition to_float (t : tensor Z) : tensor Q :=
  tmap (fun z => float32 (inject_Z z)) t.

(** [w * d + b] on float tensors: a product and a sum, each rounded. *)
Definition scale_add (w d b : tensor Q) : result (tensor Q) :=
  m <- bcast2 (fun x y => float32 (x * y)) w d ;;
  bcast2 (fun x y => float32 (x + y)) m b.

(** [w * (a - b) + b] for integer tensors [a] and [b] (LUT entries): the
    difference is an integer tensor, it is converted where it meets the
    weights, and so is [b] where it is added. *)
Definition blend_long (w : tensor Q) (a b : tensor Z) : result (tensor Q) :=
  d <- bcast2 Z.sub a b ;;
  scale_add w (to_float d) (to_float b).

(** [w * (a - b) + b] for float tensors [a] and [b]. *)
Definition blend (w a b : tensor Q) : result (tensor Q) :=
  d <- bcast2 (fun x y => float32 (x - y)) a b ;;
  scale_add w d b.

(** [torch.gather(luts[im, r, s], 1, flat[im, j, i]).reshape(c, th, tw)] *)
Definition lookup (luts flat : tensor Z) (c th tw im j i r s : Z)
  : result (tensor Z) :=
  l <- getitem luts [im; r; s] ;;
  idx <- getitem flat [im; j; i] ;;
  a <- gather1 l idx ;;
  reshape3 a c th tw.

(** The value assigned to [tiles_equalized[im, j, i]] by the body of
    the loops (lines 312-351); storing a float tensor into the integer
    tensor [tiles_equalized] converts it as [.long()] does. *)
Definition equalized_tile (luts flat : tensor Z) (ih iw : tensor Q)
  (gh gw c th tw im j i : Z) : result (tensor Z) :=
  let look := lookup luts flat c th tw im j i in
  if ((i =? 0) || (i =? gw - 1)) && ((j =? 0) || (j =? gh - 1)) then
    look (j / 2) (i / 2)
  else if (i =? 0) || (i =? gw - 1) then
    t <- look (Z.max 0 (j / 2 + j mod 2 - 1)) (i / 2) ;;
    b <- look (j / 2 + j mod 2) (i / 2) ;;
    w <- getitem ih [(j + 1) mod 2] ;;
    r <- blend_long w t b ;;
    Ok (tmap to_long r)
  else if (j =? 0) || (j =? gh - 1) then
    l <- look (j / 2) (Z.max 0 (i / 2 + i mod 2 - 1)) ;;
    r <- look (j / 2) (i / 2 + i mod 2) ;;
    w <- getitem iw [(i + 1) mod 2] ;;
    v <- blend_long w l r ;;
    Ok (tmap to_long v)
  else
    tl <- look (Z.max 0 (j / 2 + j mod 2 - 1)) (Z.max 0 (i / 2 + i mod 2 - 1)) ;;
    tr <- look (Z.max 0 (j / 2 + j mod 2 - 1)) (i / 2 + i mod 2) ;;
    bl <- look (j / 2 + j mod 2) (Z.max 0 (i / 2 + i mod 2 - 1)) ;;
    br <- look (j / 2 + j mod 2) (i / 2 + i mod 2) ;;
    wh <- getitem iw [(i + 1) mod 2] ;;
    t <- blend_long wh tl tr ;;
    wh <- getitem iw [(i + 1) mod 2] ;;
    b <- blend_long wh bl br ;;
    wv <- getitem ih [(j + 1) mod 2] ;;
    v <- blend wv t b ;;
    Ok (tmap to_long v).

(** [compute_equalized_tiles] for LUTs of integer type, as [compute_luts]
    returns them.  The weights of lines 301-304 are float tensors: they
    hold the ratios of [vertical_weights] and [horizontal_weights] in
    single precision. *)
Definition compute_equalized_tiles (interp_tiles : tensor Q) (luts : tensor Z)
  : result (tensor Z) :=
  let tiles_equalized := zeros_like interp_tiles in
  match shape interp_tiles with
  | [num_imgs; gh; gw; c; th; tw] =>
      ih <- vertical_weights th tw ;;
      iw <- horizontal_weights th tw ;;
      let ih := tmap float32 ih in
      let iw := tmap float32 iw in
      flat <- flatten_last2 (tmap quantize interp_tiles) ;;
      for_each (range num_imgs) (fun im te =>
        for_each (range gh) (fun j te =>
          for_each (range gw) (fun i te =>
            a <- equalized_tile luts flat ih iw gh gw c th tw im j i ;;
            setitem te [im; j; i] a) te) te) tiles_equalized
  | _ => Raise ValueError
  end.

(** ** Statements used by the theorems *)

(** The computation fails with an exception of the given class name. *)
Definition fails_with {A : Type} (r : result A) (name : string) : Prop :=
  exists e, r = Raise e /\ exn_name e = name.

(** A 3 x 3 single-channel image, [img[0, 0, y, x] = (3 * y + x) / 8]. *)
Definition sample_image : tensor Q :=
  mkTensor [1; 1; 3; 3]
    (fun idx => match idx with
                | [_; _; y; x] => (inject_Z (3 * y + x) / inject_Z 8)%Q
                | _ => 0%Q
                end).


(** The two LUT builders return the same table for a tile. *)
Definition luts_agree (patch : list Q) : Prop :=
  luts_optim_row (Z.of_nat (List.length patch)) patch =
  map (fun z => Finite (inject_Z z)) (lut patch).

(** An entry of a float LUT is an integer level in [[0, 255]]. *)
Definition is_level (v : fval) : Prop :=
  exists z, v = Finite (inject_Z z) /\ 0 <= z <= 255.

(** A tile set of one 2 x 2 tile whose pixels are all [1/2]. *)
Definition uniform_tiles : tensor Q :=
  mkTensor [1; 1; 1; 1; 2; 2] (fun _ => (1 # 2)%Q).

(** A tile set of one tile of a single pixel [1/2]. *)
Definition single_pixel_tiles : tensor Q :=
  mkTensor [1; 1; 1; 1; 1; 1] (fun _ => (1 # 2)%Q).

(** A tile of 256 pixels, one in each histogram bin. *)
Definition all_levels_patch : list Q :=
  map (fun k => (inject_Z k / inject_Z 256)%Q) (range 256).

(** The table of lines 239-240 (and 273-274) for a rounding function [f]
    of the cumulative counts: [f] of the cumulative histogram, shifted
    right by one position behind a leading zero, and clamped. *)
Definition shifted_table (f : Z -> Z) (histo : list Z) : list Z :=
  map (clamp 0 255) (0 :: removelast (map f (cumsum histo))).

(** The contract of a LUT: 256 integer levels in [[0, 255]], the first of
    which is zero, in non-decreasing order. *)
Definition lut_contract (l : list Z) : Prop :=
  List.length l = 256%nat /\
  Forall (fun z => 0 <= z <= 255) l /\
  nth 0 l 0 = 0 /\
  Sorted.StronglySorted Z.le l.

(** The step of [compute_luts_optim] (line 272) and the rounding it
    applies to a cumulative count (line 273). *)
Definition optim_step (pixels : Z) : Q :=
  (inject_Z (pixels - 1) / inject_Z 255)%Q.

Definition optim_round (pixels cu : Z) : Z :=
  Qfloor ((inject_Z cu + inject_Z (Qfloor (optim_step pixels / inject_Z 2)))
          / optim_step pixels)%Q.

(** ** Vocabulary for the statements about [compute_equalized_tiles] *)

(** The inputs are coherent: [2 GH x 2 GW] query tiles of [th x tw]
    pixels, one LUT of [L] entries per statistics tile and channel, and
    every quantized pixel is an index of a LUT. *)
Record well_formed (interp : tensor Q) (luts : tensor Z)
  (B GH GW C th tw L : Z) : Prop := mkWellFormed {
  wf_interp : shape interp = [B; 2 * GH; 2 * GW; C; th; tw];
  wf_luts : shape luts = [B; GH; GW; C; L];
  wf_th : 0 < th;
  wf_tw : 0 < tw;
  wf_pixels : forall idx, in_bounds idx (shape interp) ->
                          0 <= quantize (item interp idx) < L
}.

(** The LUT of grid cell [(r, s)] applied to the quantized pixel [(y, x)]
    of channel [ch] of query tile [(j, i)]. *)
Definition mapped (luts : tensor Z) (interp : tensor Q)
  (im r s j i ch y x : Z) : Z :=
  item luts [im; r; s; ch; quantize (item interp [im; j; i; ch; y; x])].

(** Grid indices of the two neighbours along one axis. *)
Definition upper (k : Z) : Z := Z.max 0 (k / 2 + k mod 2 - 1).
Definition lower (k : Z) : Z := k / 2 + k mod 2.

(** Weight of position [p] of query tile [k] along an axis of half-tile
    extent [n]: the position within the pair of query tiles is
    [((k + 1) mod 2) * n + p]. *)
Definition ramp (n k p : Z) : Q :=
  (inject_Z (2 * n - 1 - (((k + 1) mod 2) * n + p)) / inject_Z (2 * n - 1))%Q.

(** [w * (a - b) + b] in the rationals. *)
Definition exact_blend (w a b : Q) : Q := (w * (a - b) + b)%Q.

(** [w * (a - b) + b] in single precision, for the weight [w] (stored
    rounded) and two LUT entries [a] and [b]: the integer [a - b] and the
    integer [b] are converted, the product and the sum are rounded. *)
Definition mix_long (w : Q) (a b : Z) : Q :=
  float32 (float32 (float32 w * float32 (inject_Z (a - b)))
           + float32 (inject_Z b))%Q.

(** [w * (a - b) + b] in single precision for two floats [a] and [b]:
    the difference, the product and the sum are rounded. *)
Definition mix (w a b : Q) : Q :=
  float32 (float32 (float32 w * float32 (a - b)) + b)%Q.

(** The positions [(a, b, i)] selected by [D] hold the values [F]. *)
Definition filled (sh : list Z) (F : list Z -> Z) (D : Z -> Z -> Z -> Prop)
  (te : tensor Z) : Prop :=
  shape te = sh /\
  forall a b i rest, in_bounds (a :: b :: i :: rest) sh -> D a b i ->
                     item te (a :: b :: i :: rest) = F (a :: b :: i :: rest).

(** Query tiles of 2 x 2 pixels [1/2] for a grid of two rows and one
    column, with a LUT that is constantly one for the upper statistics
    tile and constantly zero for the lower one. *)
Definition sample_query_tiles : tensor Q :=
  mkTensor [1; 4; 2; 1; 2; 2] (fun _ => (1 # 2)%Q).

Definition sample_luts : tensor Z :=
  mkTensor [1; 2; 1; 1; 256]
    (fun idx => match idx with
                | [_; r; _; _; _] => if r =? 0 then 1 else 0
                | _ => 0
                end).

(** Query tiles for a single statistics tile, and its LUT
    [lut[k] = 255 - k]. *)
Definition single_grid_query_tiles : tensor Q :=
  mkTensor [1; 2; 2; 1; 1; 1]
    (fun idx => match idx with
                | [_; j; i; _; _; _] => (inject_Z (2 * j + i) / inject_Z 4)%Q
                | _ => 0%Q
                end).

Definition single_grid_luts : tensor Z :=
  mkTensor [1; 1; 1; 1; 256] (fun idx => 255 - last idx 0).

(** Query tiles with a pixel value of 2, outside [[0, 1]]. *)
Definition overexposed_query_tiles : tensor Q :=
  mkTensor [1; 2; 2; 1; 1; 1] (fun _ => inject_Z 2).

(** The value of [tiles_equalized[im, j, i, ch, y, x]] in terms of the
    neighbour LUTs and the weights, for [2 GH x 2 GW] query tiles of
    [th x tw] pixels. *)
Definition expected_value (luts : tensor Z) (interp : tensor Q)
  (GH GW th tw im j i ch y x : Z) : Z :=
  let A r s := mapped luts interp im r s j i ch y x in
  let wv := ramp th j y in
  let wh := ramp tw i x in
  if ((i =? 0) || (i =? 2 * GW - 1)) && ((j =? 0) || (j =? 2 * GH - 1)) then
    mapped luts interp im (j / 2) (i / 2) j i ch y x
  else if (i =? 0) || (i =? 2 * GW - 1) then
    to_long (mix_long wv (A (upper j) (i / 2)) (A (lower j) (i / 2)))
  else if (j =? 0) || (j =? 2 * GH - 1) then
    to_long (mix_long wh (A (j / 2) (upper i)) (A (j / 2) (lower i)))
  else
    to_long (mix wv (mix_long wh (A (upper j) (upper i)) (A (upper j) (lower i)))
                    (mix_long wh (A (lower j) (upper i)) (A (lower j) (lower i)))).

(** [expected_value] as a function of the index of an element. *)
Definition expected_item (luts : tensor Z) (interp : tensor Q)
  (GH GW th tw : Z) (idx : list Z) : Z :=
  match idx with
  | [im; j; i; ch; y; x] => expected_value luts interp GH GW th tw im j i ch y x
  | _ => 0
  end.

From Stdlib Require Import Permutation.

(** ** The pipeline of [main] *)

(** End of the Python slice [:k] of a dimension of [n] elements. *)
Definition slice_end (n k : Z) : Z :=
  if k <? 0 then Z.max 0 (n + k) else Z.min k n.

(** [p2[..., :h, :w]] *)
Definition crop {A : Type} (p2 : tensor A) (h w : Z) : result (tensor A) :=
  let n := ndim p2 in
  if (n <? 2)%nat then Raise IndexError
  else Ok (mkTensor (firstn (n - 2) (shape p2) ++
                       [slice_end (size p2 (n - 2)) h; slice_end (size p2 (n - 1)) w])
                    (item p2)).

(** Lines 375-381 and 405-411 of [main], for a given intensity image and
    grid size ([main] itself loads the image from disk and fixes the grid
    to one tile): tiles with an even size, query tiles, LUTs of
    [compute_luts], equalization, re-assembly and crop to the size of the
    image. *)
Definition main_pipeline (img : tensor Q) (grid_size : Z * Z) : result (tensor Z) :=
  ' (hist_tiles, img_padded) <- compute_tiles img grid_size true ;;
  th <- size_from_end hist_tiles 2 ;;
  tw <- size_from_end hist_tiles 1 ;;
  interp_tiles <- compute_interpolation_tiles img_padded (th, tw) ;;
  luts <- compute_luts hist_tiles ;;
  equalized_tiles <- compute_equalized_tiles interp_tiles luts ;;
  p2 <- compose_tiles equalized_tiles ;;
  h <- size_from_end img 2 ;;
  w <- size_from_end img 1 ;;
  crop p2 h w.

(** The pixel is counted by [torch.histc(., bins=256, min=0, max=1)]. *)
Definition in_unit_range (v : Q) : bool := Qle_bool 0%Q v && Qle_bool v 1%Q.

(** Every element of a tensor of integers lies in [[lo, hi]]. *)
Definition within (lo hi : Z) (t : tensor Z) : Prop :=
  forall idx, in_bounds idx (shape t) -> lo <= item t idx <= hi.

(** A padded 4 x 4 single-channel image,
    [img[0, 0, y, x] = (4 * y + x) / 16]. *)
Definition even_batch : tensor Q :=
  mkTensor [1; 1; 4; 4]
    (fun idx => match idx with
                | [_; _; y; x] => (inject_Z (4 * y + x) / inject_Z 16)%Q
                | _ => 0%Q
                end).

(** One LUT per statistics tile of a grid of two rows and one column, all
    equal to the identity [lut[k] = k]. *)
Definition identity_luts : tensor Z :=
  mkTensor [1; 2; 1; 1; 256] (fun idx => last idx 0).

(** A batch of one 4 x 4 image whose pixels all are [1/2]. *)
Definition constant_batch : tensor Q :=
  mkTensor [1; 1; 4; 4] (fun _ => (1 # 2)%Q).

(** * Proofs *)

(** * Floating-point rounding *)

Lemma pow2_pos (e : Z) : (0 < pow2 e)%Q.
Proof. apply Qpower_0_lt. reflexivity. Qed.

Lemma pow2_add (a b : Z) : (pow2 (a + b) == pow2 a * pow2 b)%Q.
Proof. apply Qpower_plus. discriminate. Qed.

Lemma pow2_Z (n : Z) : 0 <= n -> (pow2 n == inject_Z (2 ^ n))%Q.
Proof. intros H. unfold pow2. rewrite Zpower_Qpower by exact H. reflexivity. Qed.

Lemma pow2_le (a b : Z) : a <= b -> (pow2 a <= pow2 b)%Q.
Proof. intros H. apply Qpower_le_compat_l; [exact H | discriminate]. Qed.

Lemma pow2_lt (a b : Z) : a < b -> (pow2 a < pow2 b)%Q.
Proof. intros H. apply Qpower_lt_compat_l; [exact H | reflexivity]. Qed.

Lemma pow2_succ (a : Z) : (pow2 (a + 1) == 2 * pow2 a)%Q.
Proof. rewrite pow2_add. change (pow2 1) with 2%Q. ring. Qed.

Lemma pow2_div (x : Q) (e : Z) : (x / pow2 e * pow2 e == x)%Q.
Proof. field. pose proof (pow2_pos e). lra. Qed.

Lemma scale_sub (m x pe : Q) : (0 < pe -> m * pe - x == (m - x / pe) * pe)%Q.
Proof. intros H. field. lra. Qed.

Lemma inject_Z_le (a b : Z) : a <= b -> (inject_Z a <= inject_Z b)%Q.
Proof. intros H. rewrite <- Zle_Qle. exact H. Qed.

Lemma inject_Z_lt (a b : Z) : a < b -> (inject_Z a < inject_Z b)%Q.
Proof. intros H. rewrite <- Zlt_Qlt. exact H. Qed.

Lemma binade_spec (x : Q) :
  (0 < x)%Q -> (pow2 (binade x) <= x)%Q /\ (x < pow2 (binade x + 1))%Q.
Proof.
  intros Hx. destruct x as [n d].
  assert (Hn : 0 < n) by (unfold Qlt in Hx; cbn in Hx; lia).
  unfold binade. cbn [Qnum Qden].
  set (ln := Z.log2 n). set (ld := Z.log2 (Z.pos d)).
  destruct (Z.log2_spec n Hn) as [Hn1 Hn2]. fold ln in Hn1, Hn2.
  destruct (Z.log2_spec (Z.pos d) eq_refl) as [Hd1 Hd2]. fold ld in Hd1, Hd2.
  assert (Hln : 0 <= ln) by apply Z.log2_nonneg.
  assert (Hld : 0 <= ld) by apply Z.log2_nonneg.
  assert (Ex : ((n # d) * inject_Z (Z.pos d) == inject_Z n)%Q).
  { rewrite (Qmake_Qdiv n d). field. intros H. discriminate H. }
  assert (Ek : forall k, (pow2 (k - ld) * pow2 ld == pow2 k)%Q).
  { intros k. rewrite <- pow2_add. replace (k - ld + ld) with k by lia. reflexivity. }
  pose proof (pow2_pos ld) as Pld.
  pose proof (inject_Z_le _ _ Hn1) as Qn1. pose proof (inject_Z_lt _ _ Hn2) as Qn2.
  pose proof (inject_Z_le _ _ Hd1) as Qd1. pose proof (inject_Z_lt _ _ Hd2) as Qd2.
  rewrite <- pow2_Z in Qn1, Qd1 by lia.
  rewrite <- pow2_Z in Qn2, Qd2 by lia.
  assert (Pd : (0 < inject_Z (Z.pos d))%Q) by (apply (inject_Z_lt 0); lia).
  assert (Hhi : ((n # d) < pow2 (ln - ld + 1))%Q).
  { replace (ln - ld + 1) with (Z.succ ln - ld) by lia.
    pose proof (Ek (Z.succ ln)) as E.
    pose proof (pow2_pos (Z.succ ln - ld)).
    apply Qnot_le_lt. intros Hc. nra. }
  assert (Hlo : (pow2 (ln - ld - 1) <= (n # d))%Q).
  { replace (ln - ld - 1) with (ln - Z.succ ld) by lia.
    assert (E : (pow2 (ln - Z.succ ld) * pow2 (Z.succ ld) == pow2 ln)%Q).
    { rewrite <- pow2_add. replace (ln - Z.succ ld + Z.succ ld) with ln by lia.
      reflexivity. }
    pose proof (pow2_pos (ln - Z.succ ld)).
    apply Qnot_lt_le. intros Hc. nra. }
  destruct (Qle_bool (pow2 (ln - ld)) (n # d)) eqn:Eb.
  - apply Qle_bool_iff in Eb. split; assumption.
  - assert (Hc : ~ (pow2 (ln - ld) <= n # d)%Q).
    { intros H. apply Qle_bool_iff in H. congruence. }
    replace (ln - ld - 1 + 1) with (ln - ld) by lia.
    split; [exact Hlo | apply Qnot_le_lt; exact Hc].
Qed.

Lemma round_half_even_floor (s : Q) :
  Qfloor s <= round_half_even s <= Qfloor s + 1.
Proof.
  unfold round_half_even. destruct (_ ?= _)%Q; [destruct (Z.even _)| |]; lia.
Qed.

(** No integer is nearer to [s] than [round_half_even s]. *)
Lemma round_half_even_nearest (s : Q) (z : Z) :
  (Qabs (inject_Z (round_half_even s) - s) <= Qabs (inject_Z z - s))%Q.
Proof.
  pose proof (Qfloor_le s) as Hf. pose proof (Qlt_floor s) as Hc.
  rewrite inject_Z_plus in Hc. change (inject_Z 1) with 1%Q in Hc.
  assert (Hz : z <= Qfloor s \/ Qfloor s + 1 <= z) by lia.
  assert (Hzq : (inject_Z z <= inject_Z (Qfloor s))%Q \/
                (inject_Z (Qfloor s) + 1 <= inject_Z z)%Q).
  { destruct Hz as [H|H]; [left | right].
    - apply inject_Z_le. exact H.
    - apply inject_Z_le in H. rewrite inject_Z_plus in H. exact H. }
  assert (Hm : (inject_Z (round_half_even s) == inject_Z (Qfloor s) /\
                s - inject_Z (Qfloor s) <= 1 # 2)%Q \/
               (inject_Z (round_half_even s) == inject_Z (Qfloor s) + 1 /\
                1 # 2 <= s - inject_Z (Qfloor s))%Q).
  { unfold round_half_even.
    destruct (s - inject_Z (Qfloor s) ?= 1 # 2)%Q eqn:E.
    - apply Qeq_alt in E. destruct (Z.even (Qfloor s)).
      + left. split; [reflexivity | lra].
      + right. rewrite inject_Z_plus. split; [reflexivity | lra].
    - apply Qlt_alt in E. left. split; [reflexivity | lra].
    - apply Qgt_alt in E. right. rewrite inject_Z_plus. split; [reflexivity | lra]. }
  apply Qabs_Qle_condition.
  pose proof (Qle_Qabs (inject_Z z - s)) as A1.
  pose proof (Qle_Qabs (- (inject_Z z - s))) as A2. rewrite Qabs_opp in A2.
  destruct Hm as [[-> Hm]|[-> Hm]]; destruct Hzq; split; lra.
Qed.

Lemma round_half_even_half (s : Q) :
  (Qabs (inject_Z (round_half_even s) - s) <= 1 # 2)%Q.
Proof.
  pose proof (Qfloor_le s) as Hf. pose proof (Qlt_floor s) as Hc.
  rewrite inject_Z_plus in Hc. change (inject_Z 1) with 1%Q in Hc.
  pose proof (round_half_even_nearest s (Qfloor s)) as H1.
  pose proof (round_half_even_nearest s (Qfloor s + 1)) as H2.
  rewrite inject_Z_plus in H2. change (inject_Z 1) with 1%Q in H2.
  pose proof (Qabs_neg (inject_Z (Qfloor s) - s) ltac:(lra)) as E1.
  pose proof (Qabs_pos (inject_Z (Qfloor s) + 1 - s) ltac:(lra)) as E2.
  lra.
Qed.

#[global] Instance representable_comp (prec : Z) :
  Proper (Qeq ==> iff) (representable prec).
Proof.
  intros x y E. unfold representable.
  split; intros (M & e & H1 & H2); exists M, e; split; try assumption.
  - rewrite <- E. exact H2.
  - rewrite E. exact H2.
Qed.

Lemma representable_opp (prec : Z) (f : Q) :
  representable prec f -> representable prec (- f).
Proof.
  intros (M & E & H1 & H2). exists (- M), E. split; [lia|].
  rewrite H2, inject_Z_opp. ring.
Qed.

Section RoundPos.

Variables (prec : Z) (x : Q).
Hypothesis Hprec : 0 < prec.
Hypothesis Hx : (0 < x)%Q.

Lemma scaled_range :
  let e := binade x - (prec - 1) in
  (pow2 (prec - 1) <= x / pow2 e)%Q /\ (x / pow2 e < pow2 prec)%Q.
Proof.
  intros e. destruct (binade_spec x Hx) as [H1 H2].
  pose proof (pow2_pos e) as Pe. pose proof (pow2_div x e) as Ed. fold e in Ed.
  assert (E1 : (pow2 (binade x) == pow2 (prec - 1) * pow2 e)%Q).
  { rewrite <- pow2_add. replace (prec - 1 + e) with (binade x) by (subst e; lia).
    reflexivity. }
  assert (E2 : (pow2 (binade x + 1) == pow2 prec * pow2 e)%Q).
  { rewrite <- pow2_add. replace (prec + e) with (binade x + 1) by (subst e; lia).
    reflexivity. }
  pose proof (pow2_pos (prec - 1)). pose proof (pow2_pos prec).
  split.
  - apply Qnot_lt_le. intros Hc. nra.
  - apply Qnot_le_lt. intros Hc. nra.
Qed.

Lemma significand_range :
  let e := binade x - (prec - 1) in
  2 ^ (prec - 1) <= Qfloor (x / pow2 e) < 2 ^ prec.
Proof.
  intros e. destruct scaled_range as [H1 H2]. fold e in H1, H2.
  rewrite (pow2_Z (prec - 1)) in H1 by lia. rewrite (pow2_Z prec) in H2 by lia.
  split.
  - apply Qfloor_resp_le in H1. rewrite Qfloor_Z in H1. exact H1.
  - pose proof (Qfloor_le (x / pow2 e)) as Hf.
    rewrite Zlt_Qlt. lra.
Qed.

Lemma round_pos_representable : representable prec (round_pos prec x).
Proof.
  unfold round_pos. eexists _, _. split; [|reflexivity].
  pose proof significand_range as H.
  pose proof (round_half_even_floor (x / pow2 (binade x - (prec - 1)))) as Hm.
  cbv zeta in H. assert (0 < 2 ^ (prec - 1)) by (apply Z.pow_pos_nonneg; lia). lia.
Qed.

Lemma round_pos_pos : (0 < round_pos prec x)%Q.
Proof.
  unfold round_pos.
  pose proof significand_range as H.
  pose proof (round_half_even_floor (x / pow2 (binade x - (prec - 1)))) as Hm.
  cbv zeta in H. assert (0 < 2 ^ (prec - 1)) by (apply Z.pow_pos_nonneg; lia).
  pose proof (pow2_pos (binade x - (prec - 1))).
  assert ((0 < inject_Z (round_half_even (x / pow2 (binade x - (prec - 1)))))%Q)
    by (apply (inject_Z_lt 0); lia).
  nra.
Qed.

(** No representable number is nearer to [x] than [round_pos prec x]. *)
Lemma round_pos_nearest (f : Q) :
  representable prec f ->
  (Qabs (round_pos prec x - x) <= Qabs (f - x))%Q.
Proof.
  intros (M & E & HM & Hf). unfold round_pos.
  set (e := binade x - (prec - 1)). set (s := (x / pow2 e)%Q).
  pose proof (pow2_pos e) as Pe.
  pose proof (pow2_div x e) as Ed. fold s in Ed.
  destruct scaled_range as [Hs1 Hs2]. fold e s in Hs1, Hs2.
  pose proof significand_range as HF. cbv zeta in HF. fold e s in HF.
  assert (Hz : exists z, (Qabs (inject_Z z - s) * pow2 e <= Qabs (f - x))%Q).
  { destruct (Z_le_gt_dec e E) as [HE|HE].
    - exists (M * 2 ^ (E - e)).
      assert (Ef : (f == inject_Z (M * 2 ^ (E - e)) * pow2 e)%Q).
      { rewrite Hf, inject_Z_mult, <- pow2_Z by lia.
        rewrite <- Qmult_assoc, <- pow2_add.
        replace (E - e + e) with E by lia. reflexivity. }
      rewrite Ef.
      setoid_replace (inject_Z (M * 2 ^ (E - e)) * pow2 e - x)%Q
        with ((inject_Z (M * 2 ^ (E - e)) - s) * pow2 e)%Q by (apply scale_sub; exact Pe).
      rewrite Qabs_Qmult, (Qabs_pos (pow2 e)) by lra. apply Qle_refl.
    - exists (Qfloor s).
      pose proof (Qfloor_le s) as Hfl.
      rewrite Qabs_neg by lra.
      assert (Hfx : (f <= inject_Z (Qfloor s) * pow2 e)%Q).
      { apply Qle_trans with (pow2 (prec - 1) * pow2 e)%Q.
        - rewrite Hf, <- pow2_add.
          apply Qle_trans with (inject_Z (2 ^ prec) * pow2 E)%Q.
          + apply Qmult_le_compat_r; [|pose proof (pow2_pos E); lra].
            apply inject_Z_le. lia.
          + rewrite <- pow2_Z, <- pow2_add by lia. apply pow2_le. lia.
        - apply Qmult_le_compat_r; [|lra].
          rewrite pow2_Z by lia. apply inject_Z_le. lia. }
      pose proof (Qle_Qabs (- (f - x))) as A. rewrite Qabs_opp in A.
      nra. }
  destruct Hz as (z & Hz).
  apply Qle_trans with (Qabs (inject_Z z - s) * pow2 e)%Q; [|exact Hz].
  setoid_replace (inject_Z (round_half_even s) * pow2 e - x)%Q
    with ((inject_Z (round_half_even s) - s) * pow2 e)%Q by (apply scale_sub; exact Pe).
  rewrite Qabs_Qmult, (Qabs_pos (pow2 e)) by lra.
  apply Qmult_le_compat_r; [apply round_half_even_nearest | lra].
Qed.

(** The relative error of the rounding is at most [2 ^ - prec]. *)
Lemma round_pos_error :
  (Qabs (round_pos prec x - x) <= x * pow2 (- prec))%Q.
Proof.
  unfold round_pos.
  set (e := binade x - (prec - 1)). set (s := (x / pow2 e)%Q).
  pose proof (pow2_pos e) as Pe.
  pose proof (pow2_div x e) as Ed. fold s in Ed.
  destruct scaled_range as [Hs1 Hs2]. fold e s in Hs1, Hs2.
  setoid_replace (inject_Z (round_half_even s) * pow2 e - x)%Q
    with ((inject_Z (round_half_even s) - s) * pow2 e)%Q by (apply scale_sub; exact Pe).
  rewrite Qabs_Qmult, (Qabs_pos (pow2 e)) by lra.
  pose proof (round_half_even_half s) as Hh.
  assert (E1 : (pow2 (prec - 1) * pow2 (- prec) == 1 # 2)%Q).
  { rewrite <- pow2_add. replace (prec - 1 + - prec) with (-1) by lia. reflexivity. }
  pose proof (pow2_pos (- prec)) as Pp.
  pose proof (Qabs_nonneg (inject_Z (round_half_even s) - s)) as Hn.
  assert (G : ((1 # 2) * pow2 e <= x * pow2 (- prec))%Q).
  { setoid_replace (x * pow2 (- prec))%Q with ((s * pow2 (- prec)) * pow2 e)%Q
      by (rewrite <- Ed at 1; ring).
    apply Qmult_le_compat_r; [|lra]. rewrite <- E1.
    apply Qmult_le_compat_r; lra. }
  apply Qle_trans with ((1 # 2) * pow2 e)%Q; [|exact G].
  apply Qmult_le_compat_r; lra.
Qed.

End RoundPos.

Section RoundFloat.

Variable prec : Z.
Hypothesis Hprec : 0 < prec.

Lemma round_float_comp (x y : Q) :
  (x == y)%Q -> round_float prec x = round_float prec y.
Proof. intros H. unfold round_float. rewrite (Qred_complete x y H). reflexivity. Qed.

Lemma round_float_canonical (x : Q) : Qred (round_float prec x) = round_float prec x.
Proof. unfold round_float. apply Qred_complete, Qred_correct. Qed.

Lemma round_float_cases (x : Q) :
  (x == 0 /\ round_float prec x == 0)%Q \/
  (0 < x /\ 0 < Qred x /\ round_float prec x == round_pos prec (Qred x))%Q \/
  (x < 0 /\ 0 < - Qred x /\ round_float prec x == - round_pos prec (- Qred x))%Q.
Proof.
  pose proof (Qred_correct x) as Er. unfold round_float. rewrite Qred_correct.
  destruct (Qred x ?= 0)%Q eqn:E.
  - apply Qeq_alt in E. left. split; first [lra | reflexivity].
  - apply Qlt_alt in E. right. right. repeat split; first [lra | reflexivity].
  - apply Qgt_alt in E. right. left. repeat split; first [lra | reflexivity].
Qed.

(** The result is a floating-point number. *)
Lemma round_float_representable (x : Q) : representable prec (round_float prec x).
Proof.
  destruct (round_float_cases x) as [[_ E]|[(_ & H & E)|(_ & H & E)]]; rewrite E.
  - exists 0, 0. split; [apply Z.abs_nonneg || (cbn; apply Z.pow_nonneg; lia) | reflexivity].
  - apply round_pos_representable; assumption.
  - apply representable_opp, round_pos_representable; assumption.
Qed.

(** No floating-point number is nearer to [x]. *)
Lemma round_float_nearest (x f : Q) :
  representable prec f ->
  (Qabs (round_float prec x - x) <= Qabs (f - x))%Q.
Proof.
  intros Hf. pose proof (Qred_correct x) as Er.
  destruct (round_float_cases x) as [[Hx E]|[(Hx & H & E)|(Hx & H & E)]]; rewrite E.
  - setoid_replace (0 - x)%Q with 0%Q by lra. apply Qabs_nonneg.
  - setoid_replace (round_pos prec (Qred x) - x)%Q
      with (round_pos prec (Qred x) - Qred x)%Q by lra.
    setoid_replace (f - x)%Q with (f - Qred x)%Q by lra.
    apply round_pos_nearest; assumption.
  - pose proof (round_pos_nearest prec (- Qred x) Hprec H (- f)
                  (representable_opp _ _ Hf)) as N.
    setoid_replace (- round_pos prec (- Qred x) - x)%Q
      with (- (round_pos prec (- Qred x) - - Qred x))%Q by lra.
    setoid_replace (f - x)%Q with (- (- f - - Qred x))%Q by lra.
    rewrite !Qabs_opp. exact N.
Qed.

(** The relative error is at most [2 ^ - prec]. *)
Lemma round_float_error (x : Q) :
  (Qabs (round_float prec x - x) <= Qabs x * pow2 (- prec))%Q.
Proof.
  pose proof (Qred_correct x) as Er.
  destruct (round_float_cases x) as [[Hx E]|[(Hx & H & E)|(Hx & H & E)]]; rewrite E.
  - setoid_replace (0 - x)%Q with 0%Q by lra. rewrite Hx. cbn. lra.
  - rewrite (Qabs_pos x) by lra.
    setoid_replace (round_pos prec (Qred x) - x)%Q
      with (round_pos prec (Qred x) - Qred x)%Q by lra.
    setoid_replace (x * pow2 (- prec))%Q with (Qred x * pow2 (- prec))%Q
      by (rewrite Er; reflexivity).
    apply round_pos_error; assumption.
  - rewrite (Qabs_neg x) by lra.
    pose proof (round_pos_error prec (- Qred x) H) as N.
    setoid_replace (- round_pos prec (- Qred x) - x)%Q
      with (- (round_pos prec (- Qred x) - - Qred x))%Q by lra.
    setoid_replace (- x * pow2 (- prec))%Q with (- Qred x * pow2 (- prec))%Q
      by (rewrite Er; reflexivity).
    rewrite Qabs_opp. exact N.
Qed.

(** Floating-point numbers are not changed. *)
Lemma round_float_exact (f : Q) :
  representable prec f -> round_float prec f = Qred f.
Proof.
  intros Hf. pose proof (round_float_nearest f f Hf) as N.
  setoid_replace (f - f)%Q with 0%Q in N by ring.
  change (Qabs 0) with 0%Q in N.
  pose proof (Qabs_nonneg (round_float prec f - f)) as P.
  assert (E : (round_float prec f == f)%Q).
  { apply Qabs_Qle_condition in N. lra. }
  rewrite <- round_float_canonical. apply Qred_complete. exact E.
Qed.

Lemma round_float_idempotent (x : Q) :
  round_float prec (round_float prec x) = round_float prec x.
Proof.
  rewrite round_float_exact by apply round_float_representable.
  apply round_float_canonical.
Qed.

(** Rounding is monotone. *)
Lemma round_float_monotone (x y : Q) :
  (x <= y)%Q -> (round_float prec x <= round_float prec y)%Q.
Proof.
  intros Hxy. apply Qnot_lt_le. intros Hc.
  pose proof (round_float_nearest x _ (round_float_representable y)) as Nx.
  pose proof (round_float_nearest y _ (round_float_representable x)) as Ny.
  set (a := round_float prec y) in *. set (b := round_float prec x) in *.
  pose proof (Qle_Qabs (b - x)) as A1.
  pose proof (Qle_Qabs (- (b - x))) as A2. rewrite Qabs_opp in A2.
  pose proof (Qle_Qabs (a - y)) as A3.
  pose proof (Qle_Qabs (- (a - y))) as A4. rewrite Qabs_opp in A4.
  destruct (Qlt_le_dec a x) as [Hax|Hax].
  - destruct (Qlt_le_dec y b) as [Hyb|Hyb].
    + pose proof (Qabs_neg (a - x) ltac:(lra)) as E1.
      pose proof (Qabs_pos (b - y) ltac:(lra)) as E2.
      assert (Exy : (x == y)%Q) by lra.
      assert (Eab : a = b) by (symmetry; apply round_float_comp; exact Exy).
      rewrite Eab in Hc. lra.
    + pose proof (Qabs_neg (b - y) ltac:(lra)) as E2. lra.
  - pose proof (Qabs_pos (a - x) ltac:(lra)) as E1. lra.
Qed.

Lemma Qred_inject_Z (z : Z) : Qred (inject_Z z) = inject_Z z.
Proof.
  unfold Qred, inject_Z.
  pose proof (Z.ggcd_gcd z 1) as Hg. pose proof (Z.ggcd_correct_divisors z 1) as Hd.
  destruct (Z.ggcd z 1) as [g [aa bb]]. cbn [fst snd] in *.
  rewrite Z.gcd_1_r in Hg. subst g. destruct Hd as [Ha Hb].
  assert (bb = 1) by lia. subst bb. cbn. f_equal. lia.
Qed.

(** Integers of at most [prec] bits are floating-point numbers. *)
Lemma round_float_Z (z : Z) :
  Z.abs z <= 2 ^ prec -> round_float prec (inject_Z z) = inject_Z z.
Proof.
  intros H. rewrite round_float_exact, Qred_inject_Z; [reflexivity|].
  exists z, 0. split; [exact H|]. change (pow2 0) with 1%Q. ring.
Qed.

End RoundFloat.

(** ** Single and double precision *)

Lemma float32_comp (x y : Q) : (x == y)%Q -> float32 x = float32 y.
Proof. apply round_float_comp. Qed.

Lemma float32_monotone (x y : Q) : (x <= y)%Q -> (float32 x <= float32 y)%Q.
Proof. apply round_float_monotone. reflexivity. Qed.

Lemma float32_Z (z : Z) : Z.abs z <= 2 ^ 24 -> float32 (inject_Z z) = inject_Z z.
Proof. apply round_float_Z. reflexivity. Qed.

Lemma float32_idempotent (x : Q) : float32 (float32 x) = float32 x.
Proof. apply round_float_idempotent. reflexivity. Qed.

Lemma float32_error (x : Q) : (Qabs (float32 x - x) <= Qabs x * pow2 (- 24))%Q.
Proof. apply round_float_error. Qed.

Lemma float32_representable (x : Q) : representable 24 (float32 x).
Proof. apply round_float_representable. reflexivity. Qed.

Lemma float32_exact (x : Q) : representable 24 x -> (float32 x == x)%Q.
Proof.
  intros H. unfold float32. rewrite round_float_exact by (reflexivity || exact H).
  apply Qred_correct.
Qed.

Lemma Qfloor_unique (y : Q) (z : Z) :
  (inject_Z z <= y)%Q -> (y < inject_Z (z + 1))%Q -> Qfloor y = z.
Proof.
  intros H1 H2.
  apply Qfloor_resp_le in H1. rewrite Qfloor_Z in H1.
  pose proof (Qfloor_le y) as H3.
  assert (H4 : (inject_Z (Qfloor y) < inject_Z (z + 1))%Q) by lra.
  rewrite <- Zlt_Qlt in H4. lia.
Qed.

Lemma Qceiling_unique (y : Q) (z : Z) :
  (inject_Z (z - 1) < y)%Q -> (y <= inject_Z z)%Q -> Qceiling y = z.
Proof.
  intros H1 H2. unfold Qceiling.
  rewrite (Qfloor_unique (- y) (- z)); [lia | |].
  - rewrite inject_Z_opp. lra.
  - replace (- z + 1) with (- (z - 1)) by lia. rewrite inject_Z_opp. lra.
Qed.

(** For a dividend below [2 ^ 53] the ceiling of the double-precision
    quotient is the ceiling of the quotient. *)
Lemma float_ceil_div_exact (a b : Z) :
  0 <= a < 2 ^ 53 -> 0 < b -> float_ceil_div a b = ceil_div a b.
Proof.
  intros Ha Hb. unfold float_ceil_div, ceil_div.
  destruct (Z.eqb_spec b 0) as [->|_]; [lia|]. f_equal.
  set (X := (inject_Z a / inject_Z b)%Q).
  pose proof (Z.div_mod a b ltac:(lia)) as Edm.
  pose proof (Z.mod_pos_bound a b Hb) as Hr.
  assert (HB : (0 < inject_Z b)%Q) by (apply (inject_Z_lt 0); exact Hb).
  assert (EX : (X * inject_Z b == inject_Z a)%Q) by (unfold X; field; lra).
  assert (Hq : 0 <= a / b <= a).
  { split; [apply Z.div_pos; lia|]. apply Z.div_le_upper_bound; nia. }
  destruct (Z.eq_dec (a mod b) 0) as [E0|E0].
  - rewrite Z_div_zero_opp_full by exact E0.
    assert (E : (X == inject_Z (a / b))%Q).
    { apply Qmult_inj_r with (inject_Z b); [lra|]. rewrite EX, <- inject_Z_mult.
      apply inject_Z_injective. lia. }
    unfold float64. rewrite (round_float_comp 53 _ _ E).
    rewrite round_float_Z by (reflexivity || lia).
    rewrite Qceiling_Z. lia.
  - rewrite Z_div_nz_opp_full by first [exact E0 | lia].
    replace (- (- (a / b) - 1)) with (a / b + 1) by lia.
    assert (HX0 : (0 <= X)%Q).
    { apply Qnot_lt_le. intros Hc.
      assert ((0 <= inject_Z a)%Q) by (apply (inject_Z_le 0); lia). nra. }
    apply Qceiling_unique.
    + replace (a / b + 1 - 1) with (a / b) by lia.
      pose proof (round_float_error 53 X) as Herr. cbn [Z.opp] in Herr.
      rewrite (Qabs_pos X) in Herr by exact HX0.
      apply Qabs_Qle_condition in Herr. destruct Herr as [Herr _].
      assert (E53 : (pow2 (- 53) * inject_Z (2 ^ 53) == 1)%Q) by reflexivity.
      assert (HA : (inject_Z a < inject_Z (2 ^ 53))%Q) by (apply inject_Z_lt; lia).
      assert (HA0 : (0 <= inject_Z a)%Q) by (apply (inject_Z_le 0); lia).
      assert (Hr1 : (inject_Z (a / b) * inject_Z b + 1 <= inject_Z a)%Q).
      { rewrite <- inject_Z_mult. change 1%Q with (inject_Z 1).
        rewrite <- inject_Z_plus. apply inject_Z_le. lia. }
      pose proof (pow2_pos (- 53)) as P53.
      assert (Hae : (inject_Z a * pow2 (- 53) < 1)%Q).
      { apply Qlt_le_trans with (inject_Z (2 ^ 53) * pow2 (- 53))%Q.
        - apply Qmult_lt_compat_r; assumption.
        - rewrite Qmult_comm, E53. apply Qle_refl. }
      apply Qnot_le_lt. intros Hc.
      assert (Hd : ((X - X * pow2 (- 53)) * inject_Z b <=
                    inject_Z (a / b) * inject_Z b)%Q).
      { unfold float64 in Hc. apply Qmult_le_compat_r; lra. }
      assert (Hd' : ((X - X * pow2 (- 53)) * inject_Z b ==
                     inject_Z a - inject_Z a * pow2 (- 53))%Q).
      { rewrite <- EX. ring. }
      lra.
    + apply Qle_trans with (float64 (inject_Z (a / b + 1))).
      * apply round_float_monotone; [reflexivity|].
        apply Qnot_lt_le. intros Hc.
        assert (Hx : (inject_Z (a / b + 1) * inject_Z b < inject_Z a)%Q).
        { rewrite <- EX. apply Qmult_lt_compat_r; assumption. }
        rewrite <- inject_Z_mult, <- Zlt_Qlt in Hx. nia.
      * unfold float64. rewrite round_float_Z by (reflexivity || lia).
        apply Qle_refl.
Qed.

(** Above [2 ^ 53] the double-precision quotient can lose the last bit:
    [math.ceil((2 ** 53 + 1) / 1)] is [2 ** 53]. *)
Lemma float_ceil_div_inexact :
  float_ceil_div (2 ^ 53 + 1) 1 = Ok (2 ^ 53) /\
  ceil_div (2 ^ 53 + 1) 1 = Ok (2 ^ 53 + 1).
Proof. split; vm_compute; reflexivity. Qed.

(** ** Grid geometry *)

Lemma ceil_div_pos (a b : Z) :
  0 < b -> exists c, ceil_div a b = Ok c /\ is_ceiling a b c.
Proof.
  intros Hb. unfold ceil_div.
  destruct (Z.eqb_spec b 0) as [->|_]; [lia|].
  eexists; split; [reflexivity|].
  unfold is_ceiling.
  pose proof (Z.div_mod (- a) b ltac:(lia)) as E.
  pose proof (Z.mod_pos_bound (- a) b Hb) as M.
  nia.
Qed.

Lemma axis_ok_intro (even : bool) (n g c : Z) :
  0 < g -> is_ceiling n g c ->
  let t := if even then bump_even c else c in
  axis_ok even n g t (t * g - n).
Proof.
  intros Hg [Hlo Hhi] t.
  assert (Ht : t = if even then (if c mod 2 =? 0 then c else c + 1) else c).
  { subst t. unfold bump_even. destruct even; [|reflexivity].
    destruct (c mod 2 =? 0); lia. }
  assert (Hct : c <= t).
  { rewrite Ht. destruct even; [destruct (c mod 2 =? 0)|]; lia. }
  assert (Hcov : n <= t * g) by nia.
  unfold axis_ok. repeat split; try assumption; try lia.
  - exists c. split; [split; assumption | exact Ht].
  - destruct H as [Hc' He'].
    assert (c <= t') by nia.
    rewrite Ht. destruct even; [|lia].
    destruct (Z.eqb_spec (c mod 2) 0) as [E|E]; [lia|].
    specialize (He' eq_refl).
    assert (c <> t') by (intros ->; contradiction).
    lia.
  - destruct H as [Hc' He'].
    assert (t <= t').
    { assert (c <= t') by nia.
      rewrite Ht. destruct even; [|lia].
      destruct (Z.eqb_spec (c mod 2) 0) as [E|E]; [lia|].
      specialize (He' eq_refl).
      assert (c <> t') by (intros ->; contradiction).
      lia. }
    nia.
Qed.

(** C6. For positive grid counts and the sizes of an image (below
    [2 ^ 53], where the double-precision quotient of line 149 has the
    exact ceiling), the geometry computed by [compute_tiles] has
    [TH = ceil(height / gridRows)] and [TW = ceil(width / gridCols)],
    each raised by one when odd if even tiles are requested; the tiles
    cover the image; the paddings are [TH * gridRows - height] and
    [TW * gridCols - width], they are non-negative, and no admissible tile
    size gives a smaller padding. *)
Theorem tile_geometry_minimal_padding
  (h w gr gc : Z) (even : bool) :
  0 <= h < 2 ^ 53 -> 0 <= w < 2 ^ 53 -> 0 < gr < 2 ^ 53 -> 0 < gc < 2 ^ 53 ->
  exists g, float_tile_geometry h w (gr, gc) even = Ok g /\
            tile_geometry h w (gr, gc) even = Ok g /\
            axis_ok even h gr (kernel_vert g) (pad_vert g) /\
            axis_ok even w gc (kernel_horz g) (pad_horz g).
Proof.
  intros Hh Hw [Hr _] [Hc _]. unfold float_tile_geometry, tile_geometry. cbn [fst snd].
  rewrite !float_ceil_div_exact by assumption.
  destruct (ceil_div_pos h gr Hr) as (cv & -> & Hv).
  destruct (ceil_div_pos w gc Hc) as (ch & -> & Hh').
  cbn [bind]. eexists. split; [reflexivity|]. split; [reflexivity|]. cbn.
  split; apply axis_ok_intro; assumption.
Qed.

Lemma tile_geometry_minimal_padding_witness :
  exists g, float_tile_geometry 5 7 (2, 3) true = Ok g /\
            tile_geometry 5 7 (2, 3) true = Ok g /\
            axis_ok true 5 2 (kernel_vert g) (pad_vert g) /\
            axis_ok true 7 3 (kernel_horz g) (pad_horz g).
Proof.
  apply (tile_geometry_minimal_padding 5 7 2 3 true);
    split; first [lia | reflexivity].
Defined.

(** ** The error monad *)

Lemma bind_ok_inv {A B : Type} (m : result A) (k : A -> result B) (b : B) :
  bind m k = Ok b -> exists a, m = Ok a /\ k a = Ok b.
Proof. destruct m as [a|e]; cbn; [eauto | discriminate]. Qed.

Lemma assert_ok_inv (c : bool) (u : unit) : assert c = Ok u -> c = true.
Proof. destruct c; [reflexivity | discriminate]. Qed.

Ltac inv_ok H :=
  match type of H with
  | bind _ _ = Ok _ =>
      let a := fresh "a" in
      let Ha := fresh "Ha" in
      let Hk := fresh "Hk" in
      apply bind_ok_inv in H; destruct H as (a & Ha & Hk)
  end.

(** ** Lists of indices *)

Lemma range_from_length (a : Z) (n : nat) : List.length (range_from a n) = n.
Proof. revert a; induction n; intros; cbn; [reflexivity | now rewrite IHn]. Qed.

Lemma range_from_In (a : Z) (n : nat) (k : Z) :
  In k (range_from a n) <-> a <= k < a + Z.of_nat n.
Proof.
  revert a; induction n as [|n IH]; intros a; cbn [range_from In].
  - lia.
  - rewrite IH. lia.
Qed.

Lemma range_In (n k : Z) : In k (range n) <-> 0 <= k < n.
Proof. unfold range. rewrite range_from_In. lia. Qed.

Lemma range_pos (n : Z) :
  0 < n -> range n = 0 :: range_from 1 (Z.to_nat (n - 1)).
Proof.
  intros Hn. unfold range.
  replace (Z.to_nat n) with (S (Z.to_nat (n - 1))) by lia.
  reflexivity.
Qed.

Lemma list_eqb_refl (l : list Z) : list_eqb l l = true.
Proof. unfold list_eqb. destruct (list_eq_dec Z.eq_dec l l); congruence. Qed.

Lemma list_eqb_eq (l1 l2 : list Z) : list_eqb l1 l2 = true <-> l1 = l2.
Proof.
  unfold list_eqb. destruct (list_eq_dec Z.eq_dec l1 l2); split; congruence.
Qed.

Lemma nth_set_nth (d : nat) (v : Z) (l : list Z) :
  (d < List.length l)%nat -> nth d (set_nth d v l) 0 = v.
Proof.
  revert l; induction d as [|d IH]; intros [|x l] H; cbn in *; try lia.
  apply IH. lia.
Qed.

Lemma set_nth_set_nth (d : nat) (v v' : Z) (l : list Z) :
  set_nth d v (set_nth d v' l) = set_nth d v l.
Proof.
  revert l; induction d as [|d IH]; intros [|x l]; cbn; try reflexivity.
  now rewrite IH.
Qed.

Lemma set_nth_length (d : nat) (v : Z) (l : list Z) :
  List.length (set_nth d v l) = List.length l.
Proof.
  revert l; induction d as [|d IH]; intros [|x l]; cbn; try reflexivity.
  now rewrite IH.
Qed.

Lemma remove_set_nth (d : nat) (v : Z) (l : list Z) :
  remove_nth d (set_nth d v l) = remove_nth d l.
Proof.
  revert l; induction d as [|d IH]; intros [|x l]; cbn; try reflexivity.
  now rewrite IH.
Qed.

Lemma sum_list_const {A : Type} (l : list A) (f : A -> Z) (k : Z) :
  (forall a, In a l -> f a = k) ->
  sum_list (map f l) = Z.of_nat (List.length l) * k.
Proof.
  induction l as [|a l IH]; intros H.
  - reflexivity.
  - cbn [map sum_list fold_right List.length].
    change (fold_right Z.add 0 (map f l)) with (sum_list (map f l)).
    rewrite IH by (intros; apply H; now right).
    rewrite (H a) by now left. lia.
Qed.

(** ** Concatenation of equally sized pieces *)

Lemma cat_item_uniform {A : Type} (f : Z -> tensor A) (d : nat) (sz : Z) :
  0 < sz ->
  (forall k, size (f k) d = sz) ->
  forall (len : nat) (a : Z) (idx : list Z),
    (d < List.length idx)%nat ->
    0 <= nth d idx 0 < sz * (Z.of_nat len + 1) ->
    cat_item (f a) (map f (range_from (a + 1) len)) d idx =
    item (f (a + nth d idx 0 / sz)) (set_nth d (nth d idx 0 mod sz) idx).
Proof.
  intros Hsz Hf. induction len as [|len IH]; intros a idx Hd Hx.
  - cbn [range_from map cat_item].
    assert (E : nth d idx 0 / sz = 0) by (apply Z.div_small; lia).
    rewrite E, Z.add_0_r, Z.mod_small by lia.
    f_equal. clear - Hd. revert idx Hd.
    induction d as [|d IH]; intros [|x l] H; cbn in *; try lia; try reflexivity.
    f_equal. apply IH. lia.
  - cbn [range_from map cat_item]. rewrite Hf.
    destruct (Z.ltb_spec (nth d idx 0) sz) as [Hlt|Hge].
    + assert (E : nth d idx 0 / sz = 0) by (apply Z.div_small; lia).
      rewrite E, Z.add_0_r, Z.mod_small by lia.
      f_equal. clear - Hd. revert idx Hd.
      induction d as [|d IH']; intros [|x l] H; cbn in *; try lia; try reflexivity.
      f_equal. apply IH'. lia.
    + rewrite IH.
      * rewrite nth_set_nth by assumption.
        rewrite set_nth_set_nth.
        replace (nth d idx 0) with ((nth d idx 0 - sz) + 1 * sz) at 3 4 by lia.
        rewrite Z.div_add, Z.mod_add by lia.
        f_equal. f_equal. lia.
      * now rewrite set_nth_length.
      * rewrite nth_set_nth by assumption. lia.
Qed.

Lemma cat_uniform {A : Type} (f : Z -> tensor A) (d : nat) (sh : list Z) (n : Z) :
  (forall k, shape (f k) = sh) ->
  0 < n -> (d < List.length sh)%nat -> 0 < nth d sh 0 ->
  exists r, cat (map f (range n)) d = Ok r /\
            shape r = set_nth d (n * nth d sh 0) sh /\
            forall idx, (d < List.length idx)%nat ->
                        0 <= nth d idx 0 < n * nth d sh 0 ->
                        item r idx =
                        item (f (nth d idx 0 / nth d sh 0))
                             (set_nth d (nth d idx 0 mod nth d sh 0) idx).
Proof.
  intros Hsh Hn Hd Hsz.
  assert (Hsize : forall k, size (f k) d = nth d sh 0).
  { intros k. unfold size. now rewrite Hsh. }
  rewrite range_pos by assumption. cbn [map].
  unfold cat. unfold ndim. rewrite Hsh.
  destruct (Nat.ltb_spec d (List.length sh)) as [_|]; [|lia].
  cbn [andb].
  rewrite (proj2 (forallb_forall _ _)).
  2:{ intros t Ht. apply in_map_iff in Ht. destruct Ht as (k & <- & _).
      rewrite !Hsh. apply list_eqb_refl. }
  eexists. split; [reflexivity|]. cbn [shape item]. split.
  - f_equal.
    change (f 0 :: map f (range_from 1 (Z.to_nat (n - 1))))
      with (map f (0 :: range_from 1 (Z.to_nat (n - 1)))).
    rewrite map_map.
    rewrite (sum_list_const _ _ (nth d sh 0)) by (intros; apply Hsize).
    cbn [List.length]. rewrite range_from_length.
    replace (Z.of_nat (S (Z.to_nat (n - 1)))) with n by lia. reflexivity.
  - intros idx Hidx Hx.
    pose proof (cat_item_uniform f d (nth d sh 0) Hsz Hsize
                  (Z.to_nat (n - 1)) 0 idx Hidx) as E.
    cbn [Z.add] in E. rewrite E; [reflexivity|].
    replace (Z.of_nat (Z.to_nat (n - 1)) + 1) with n by lia. lia.
Qed.

(** ** Tile extraction *)

Lemma shape_of_ndim4 {A : Type} (t : tensor A) :
  ndim t = 4%nat -> exists b c h w, shape t = [b; c; h; w].
Proof.
  unfold ndim. destruct (shape t) as [|b [|c [|h [|w [|? ?]]]]]; cbn; try discriminate.
  eauto.
Qed.

Lemma unfold_ok_inv {A : Type} (t r : tensor A) (d : nat) (sz step : Z) :
  unfold t d sz step = Ok r ->
  (d < ndim t)%nat /\ sz <= size t d /\ 0 < step /\
  r = mkTensor (set_nth d ((size t d - sz) / step + 1) (shape t) ++ [sz])
               (fun idx => item t (set_nth d (nth d idx 0 * step + last idx 0)
                                           (removelast idx))).
Proof.
  unfold unfold.
  destruct (Nat.leb_spec (ndim t) d); [discriminate|].
  destruct (Z.ltb_spec (size t d) sz); [discriminate|].
  destruct (Z.leb_spec step 0); [discriminate|].
  intros [= <-]. repeat split; lia.
Qed.

Lemma unfold_ok {A : Type} (t : tensor A) (d : nat) (sz step : Z) :
  (d < ndim t)%nat -> sz <= size t d -> 0 < step ->
  unfold t d sz step =
  Ok (mkTensor (set_nth d ((size t d - sz) / step + 1) (shape t) ++ [sz])
               (fun idx => item t (set_nth d (nth d idx 0 * step + last idx 0)
                                           (removelast idx)))).
Proof.
  intros Hd Hs Hst. unfold unfold.
  destruct (Nat.leb_spec (ndim t) d); [lia|].
  destruct (Z.ltb_spec (size t d) sz); [lia|].
  destruct (Z.leb_spec step 0); [lia|].
  reflexivity.
Qed.

Lemma windows_exact (k g : Z) : 0 < k -> 0 < g -> (k * g - k) / k + 1 = g.
Proof.
  intros Hk Hg. replace (k * g - k) with ((g - 1) * k) by lia.
  rewrite Z.div_mul by lia. lia.
Qed.

(** What [extract_tiles] returns on a 4-D batch, when it returns. *)
Lemma extract_tiles_inv {A : Type} (batch tiles : tensor A)
  (b c H W kv kh gr gc : Z) :
  shape batch = [b; c; H; W] ->
  extract_tiles batch kv kh (gr, gc) = Ok tiles ->
  0 < c /\ 0 < kv <= H /\ 0 < kh <= W /\
  gr = (H - kv) / kv + 1 /\ gc = (W - kh) / kh + 1 /\
  shape tiles = [b; gr; gc; c; kv; kh] /\
  forall ib gj gi ic y x,
    item tiles [ib; gj; gi; ic; y; x] =
    item batch [ib; ic; gj * kv + y; gi * kh + x].
Proof.
  intros Hsh Hex. unfold extract_tiles in Hex.
  unfold ndim, size in Hex. rewrite Hsh in Hex. cbn [List.length Nat.sub nth] in Hex.
  inv_ok Hex. apply unfold_ok_inv in Ha. destruct Ha as (_ & _ & Hc & ->).
  inv_ok Hk. apply unfold_ok_inv in Ha. destruct Ha as (_ & Hkv1 & Hkv & ->).
  inv_ok Hk0. apply unfold_ok_inv in Ha. destruct Ha as (_ & Hkh1 & Hkh & ->).
  unfold size in *. rewrite Hsh in *. cbn [shape nth set_nth app] in *.
  rewrite Z.sub_diag, Z.div_0_l in Hk by lia.
  unfold squeeze, ndim, size in Hk.
  cbn [shape nth set_nth app List.length Nat.ltb Nat.leb andb Z.add Z.eqb Pos.eqb
         remove_nth] in Hk.
  unfold size_from_end, ndim in Hk.
  cbn [shape List.length Nat.leb andb Nat.sub nth bind] in Hk.
  inv_ok Hk. apply assert_ok_inv in Ha. apply Z.eqb_eq in Ha.
  inv_ok Hk0. apply assert_ok_inv in Ha0. apply Z.eqb_eq in Ha0.
  injection Hk as <-. cbn [fst snd] in *.
  repeat split; try lia.
  cbn [shape]. congruence.
Qed.

(** [extract_tiles] succeeds on a batch that is an exact grid of tiles. *)
Lemma extract_tiles_exact {A : Type} (batch : tensor A)
  (b c kv kh gr gc : Z) :
  shape batch = [b; c; kv * gr; kh * gc] ->
  0 < c -> 0 < kv -> 0 < kh -> 0 < gr -> 0 < gc ->
  exists tiles, extract_tiles batch kv kh (gr, gc) = Ok tiles.
Proof.
  intros Hsh Hc Hkv Hkh Hgr Hgc.
  destruct batch as [sh it]. cbn [shape] in Hsh. subst sh.
  unfold extract_tiles, ndim, size. cbn [shape List.length Nat.sub nth].
  rewrite unfold_ok by (unfold ndim, size; cbn; lia).
  cbn [bind].
  rewrite unfold_ok by (unfold ndim, size; cbn; nia).
  cbn [bind].
  rewrite unfold_ok by (unfold ndim, size; cbn; nia).
  cbn [bind size shape nth set_nth app].
  rewrite Z.sub_diag, Z.div_0_l by lia.
  rewrite !windows_exact by assumption.
  unfold squeeze, ndim, size.
  cbn [shape nth set_nth app List.length Nat.ltb Nat.leb andb Z.add Z.eqb Pos.eqb
         remove_nth].
  unfold size_from_end, ndim.
  cbn [shape List.length Nat.leb andb Nat.sub nth bind fst snd].
  rewrite !Z.eqb_refl. cbn. eauto.
Qed.

(** Re-assembly of a tile set, element by element. *)
Lemma compose_tiles_spec {A : Type} (tiles : tensor A)
  (b c kv kh gr gc : Z) :
  shape tiles = [b; gr; gc; c; kv; kh] ->
  0 < kv -> 0 < kh -> 0 < gr -> 0 < gc ->
  exists p2, compose_tiles tiles = Ok p2 /\
             shape p2 = [b; c; gr * kv; gc * kh] /\
             forall ib ic Y X,
               0 <= Y < gr * kv -> 0 <= X < gc * kh ->
               item p2 [ib; ic; Y; X] =
               item tiles [ib; Y / kv; X / kh; ic; Y mod kv; X mod kh].
Proof.
  intros Hsh Hkv Hkh Hgr Hgc.
  destruct tiles as [sh it]. cbn [shape] in Hsh. subst sh.
  unfold compose_tiles, unbind. unfold size at 1. cbn [shape nth].
  destruct (cat_uniform (select (mkTensor [b; gr; gc; c; kv; kh] it) 2)
              4 [b; gr; c; kv; kh] gc) as (p1 & -> & Hp1 & Hi1);
    try assumption; try (cbn; lia); [reflexivity|].
  cbn [bind]. cbn [nth set_nth] in Hp1, Hi1.
  destruct p1 as [sh1 it1]. cbn [shape item] in Hp1, Hi1. subst sh1.
  unfold size at 1. cbn [shape nth].
  destruct (cat_uniform (select (mkTensor [b; gr; c; kv; gc * kh] it1) 1)
              2 [b; c; kv; gc * kh] gr) as (p2 & -> & Hp2 & Hi2);
    try assumption; try (cbn; lia); [reflexivity|].
  cbn [bind]. cbn [nth set_nth] in Hp2, Hi2.
  eexists. split; [reflexivity|]. split; [exact Hp2|].
  intros ib ic Y X HY HX.
  rewrite Hi2 by (cbn; lia).
  cbn [select item nth set_nth insert_nth].
  rewrite Hi1 by (cbn; lia).
  reflexivity.
Qed.

Lemma to_bchw_inv {A : Type} (imgs batch : tensor A) :
  _to_bchw imgs = Ok batch -> ndim batch = 4%nat.
Proof.
  unfold _to_bchw.
  destruct (ndim imgs) as [|[|[|[|[|n]]]]] eqn:E; try discriminate.
  - intros [= <-]. unfold ndim, unsqueeze0 in *. cbn. lia.
  - intros [= <-]. exact E.
Qed.

Lemma pad_reflect_shape {A : Type} (t r : tensor A) (b c h w pr pb : Z) :
  shape t = [b; c; h; w] ->
  pad_reflect t pr pb = Ok r ->
  shape r = [b; c; h + pb; w + pr].
Proof.
  intros Hsh. unfold pad_reflect. rewrite Hsh.
  destruct (_ && _); [|discriminate].
  intros [= <-]. reflexivity.
Qed.

Lemma tile_geometry_inv (h w gr gc : Z) (even : bool) (g : geometry) :
  tile_geometry h w (gr, gc) even = Ok g ->
  gr <> 0 /\ gc <> 0 /\
  pad_vert g = kernel_vert g * gr - h /\
  pad_horz g = kernel_horz g * gc - w /\
  (0 < gr -> 0 <= pad_vert g) /\ (0 < gc -> 0 <= pad_horz g) /\
  (gr < 0 -> 0 <= h -> kernel_vert g <= 0) /\
  (gc < 0 -> 0 <= w -> kernel_horz g <= 0).
Proof.
  unfold tile_geometry, ceil_div. cbn [fst snd].
  destruct (Z.eqb_spec gr 0) as [|Hr]; [discriminate|].
  destruct (Z.eqb_spec gc 0) as [|Hc]; [discriminate|].
  cbn [bind]. intros [= <-]. cbn [pad_vert pad_horz kernel_vert kernel_horz].
  assert (Hb : forall k, k <= bump_even k <= k + 1).
  { intros k. unfold bump_even. destruct (k mod 2 =? 0); lia. }
  assert (Hodd : forall k, k <= 0 -> bump_even k <= 0).
  { intros k Hk. unfold bump_even.
    destruct (Z.eqb_spec (k mod 2) 0) as [E|E]; [lia|].
    assert (k <> 0) by (intros ->; apply E; reflexivity). lia. }
  assert (Hceil : forall n d, 0 < d -> n <= - (- n / d) * d).
  { intros n d Hd.
    pose proof (Z.div_mod (- n) d ltac:(lia)).
    pose proof (Z.mod_pos_bound (- n) d Hd). nia. }
  assert (Hneg : forall n d, d < 0 -> 0 <= n -> - (- n / d) <= 0).
  { intros n d Hd Hn.
    pose proof (Z.div_mod (- n) d ltac:(lia)).
    pose proof (Z.mod_neg_bound (- n) d Hd). nia. }
  repeat split; try assumption; try reflexivity.
  - intros H. specialize (Hceil h gr H).
    destruct even; [specialize (Hb (- (- h / gr)))|]; nia.
  - intros H. specialize (Hceil w gc H).
    destruct even; [specialize (Hb (- (- w / gc)))|]; nia.
  - intros H H0. specialize (Hneg h gr H H0).
    destruct even; [apply Hodd|]; assumption.
  - intros H H0. specialize (Hneg w gc H H0).
    destruct even; [apply Hodd|]; assumption.
Qed.

(** What [compute_tiles] returns, when it returns: the padded batch is an
    exact grid of tiles. *)
Lemma compute_tiles_inv {A : Type} (imgs tiles batch : tensor A)
  (gr gc : Z) (even : bool) :
  compute_tiles imgs (gr, gc) even = Ok (tiles, batch) ->
  exists b c kv kh,
    shape batch = [b; c; kv * gr; kh * gc] /\
    0 < c /\ 0 < kv /\ 0 < kh /\ 0 < gr /\ 0 < gc /\
    extract_tiles batch kv kh (gr, gc) = Ok tiles.
Proof.
  intros H. unfold compute_tiles in H.
  inv_ok H. rename a into batch0.
  pose proof (to_bchw_inv _ _ Ha) as Hnd.
  destruct (shape_of_ndim4 _ Hnd) as (b & c & h & w & Hsh0).
  inv_ok Hk. rename a into g.
  unfold size in Ha0. rewrite Hsh0 in Ha0. cbn [nth] in Ha0.
  apply tile_geometry_inv in Ha0.
  destruct Ha0 as (Hgr & Hgc & Hpv & Hph & Hpv0 & Hph0 & _ & _).
  inv_ok Hk0. rename a into batch1.
  inv_ok Hk. injection Hk0 as <- <-.
  assert (Hsh1 : exists H W, shape batch1 = [b; c; H; W] /\
                 ((H = h + pad_vert g /\ W = w + pad_horz g) \/
                  (H = h /\ W = w /\ pad_vert g <= 0 /\ pad_horz g <= 0))).
  { destruct (Z.ltb_spec 0 (pad_vert g)); destruct (Z.ltb_spec 0 (pad_horz g));
      cbn [orb] in Ha0.
    1-3: exists (h + pad_vert g), (w + pad_horz g); split; [|left; split; reflexivity];
      eapply pad_reflect_shape; eassumption.
    injection Ha0 as <-. exists h, w. split; [assumption|]. right. lia. }
  destruct Hsh1 as (H & W & Hsh1 & Hdims).
  destruct (extract_tiles_inv _ _ _ _ _ _ _ _ _ _ Hsh1 Ha1)
    as (Hc & Hkv & Hkh & Egr & Egc & _ & _).
  assert (0 < gr).
  { assert (0 <= (H - kernel_vert g) / kernel_vert g) by (apply Z.div_pos; lia). lia. }
  assert (0 < gc).
  { assert (0 <= (W - kernel_horz g) / kernel_horz g) by (apply Z.div_pos; lia). lia. }
  exists b, c, (kernel_vert g), (kernel_horz g).
  assert (H = kernel_vert g * gr /\ W = kernel_horz g * gc) as [-> ->].
  { specialize (Hpv0 ltac:(assumption)). specialize (Hph0 ltac:(assumption)). lia. }
  repeat split; try lia; assumption.
Qed.

(** ** Round trip of extraction and re-assembly *)

Lemma in_bounds4 (idx : list Z) (b c h w : Z) :
  in_bounds idx [b; c; h; w] ->
  exists ib ic y x, idx = [ib; ic; y; x] /\
                    0 <= ib < b /\ 0 <= ic < c /\ 0 <= y < h /\ 0 <= x < w.
Proof.
  destruct idx as [|ib [|ic [|y [|x [|? ?]]]]]; cbn; try tauto.
  intros (? & ? & ? & ? & _). exists ib, ic, y, x. tauto.
Qed.

(** Every exact grid of tiles is cut into tiles and re-assembled into
    itself. *)
Lemma padded_image_roundtrip {A : Type} (batch : tensor A)
  (b c kv kh gr gc : Z) :
  shape batch = [b; c; kv * gr; kh * gc] ->
  0 < c -> 0 < kv -> 0 < kh -> 0 < gr -> 0 < gc ->
  exists tiles p2,
    extract_tiles batch kv kh (gr, gc) = Ok tiles /\
    compose_tiles tiles = Ok p2 /\
    tensor_eq p2 batch.
Proof.
  intros Hsh Hc Hkv Hkh Hgr Hgc.
  destruct (extract_tiles_exact batch b c kv kh gr gc) as (tiles & Hex);
    try assumption.
  destruct (extract_tiles_inv _ _ _ _ _ _ _ _ _ _ Hsh Hex)
    as (_ & _ & _ & _ & _ & Hst & Hit).
  destruct (compose_tiles_spec tiles b c kv kh gr gc) as (p2 & Hp2 & Hs2 & Hi2);
    try assumption.
  exists tiles, p2. repeat split; try assumption.
  - rewrite Hs2, Hsh. now rewrite (Z.mul_comm gr), (Z.mul_comm gc).
  - intros idx Hidx. rewrite Hs2 in Hidx.
    apply in_bounds4 in Hidx.
    destruct Hidx as (ib & ic & y & x & -> & _ & _ & Hy & Hx).
    rewrite Hi2, Hit by assumption.
    rewrite (Z.mul_comm (y / kv)), (Z.mul_comm (x / kh)).
    rewrite <- !Z.div_mod by lia. reflexivity.
Qed.

(** C7. Cutting the padded image into statistics tiles and re-assembling
    the unmodified tiles (concatenation along the width within each grid
    row, then of the rows along the height) gives back the padded image. *)
Theorem tiles_roundtrip {A : Type} (imgs tiles batch : tensor A)
  (grid_size : Z * Z) (even_tile_size : bool) :
  compute_tiles imgs grid_size even_tile_size = Ok (tiles, batch) ->
  exists p2, compose_tiles tiles = Ok p2 /\ tensor_eq p2 batch.
Proof.
  destruct grid_size as [gr gc]. intros H.
  destruct (compute_tiles_inv _ _ _ _ _ _ H)
    as (b & c & kv & kh & Hsh & Hc & Hkv & Hkh & Hgr & Hgc & Hex).
  destruct (padded_image_roundtrip batch b c kv kh gr gc)
    as (tiles' & p2 & Hex' & Hp2 & Heq); try assumption.
  rewrite Hex in Hex'. injection Hex' as <-.
  exists p2. split; assumption.
Qed.

Lemma tiles_roundtrip_witness :
  exists tiles batch p2,
    compute_tiles sample_image (2, 2) true = Ok (tiles, batch) /\
    compose_tiles tiles = Ok p2 /\ tensor_eq p2 batch.
Proof.
  destruct (compute_tiles sample_image (2, 2) true) as [[tiles batch]|e] eqn:E.
  - exists tiles, batch.
    destruct (tiles_roundtrip sample_image tiles batch (2, 2) true E) as (p2 & H1 & H2).
    exists p2. split; [reflexivity | split; assumption].
  - vm_compute in E. discriminate E.
Defined.

(** ** Failures of the tiling functions *)

Lemma unfold_step_le0 {A : Type} (t : tensor A) (d : nat) (k : Z) :
  (d < ndim t)%nat -> k <= 0 -> unfold t d k k = Raise RuntimeError.
Proof.
  intros Hd Hk. unfold unfold.
  destruct (Nat.leb_spec (ndim t) d); [lia|].
  destruct (Z.ltb_spec (size t d) k); [reflexivity|].
  destruct (Z.leb_spec k 0); [reflexivity | lia].
Qed.

Lemma unfold_cases {A : Type} (t : tensor A) (d : nat) (sz step : Z) :
  (d < ndim t)%nat ->
  unfold t d sz step = Raise RuntimeError \/
  exists r, unfold t d sz step = Ok r /\ ndim r = S (ndim t).
Proof.
  intros Hd. unfold unfold.
  destruct (Nat.leb_spec (ndim t) d); [lia|].
  destruct (Z.ltb_spec (size t d) sz); [now left|].
  destruct (Z.leb_spec step 0); [now left|].
  right. eexists. split; [reflexivity|].
  unfold ndim. cbn [shape]. rewrite length_app, set_nth_length. cbn. lia.
Qed.

Lemma pad_reflect_cases {A : Type} (t : tensor A) (pr pb : Z) :
  pad_reflect t pr pb = Raise RuntimeError \/
  exists r, pad_reflect t pr pb = Ok r /\ ndim r = 4%nat.
Proof.
  unfold pad_reflect.
  destruct (shape t) as [|b [|c [|h [|w [|? ?]]]]]; try now left.
  destruct (_ && _); [|now left].
  right. eexists. split; reflexivity.
Qed.

(** A non-positive tile extent makes the extraction fail inside torch. *)
Lemma extract_tiles_nonpositive {A : Type} (batch : tensor A) (kv kh : Z)
  (grid_size : Z * Z) :
  ndim batch = 4%nat -> kv <= 0 \/ kh <= 0 ->
  extract_tiles batch kv kh grid_size = Raise RuntimeError.
Proof.
  intros Hnd Hk. unfold extract_tiles.
  destruct (unfold_cases batch 1 (size batch (ndim batch - 3))
              (size batch (ndim batch - 3)) ltac:(lia)) as [->|(t1 & -> & H1)];
    [reflexivity|]. cbn [bind].
  destruct (unfold_cases t1 2 kv kv ltac:(lia)) as [->|(t2 & E2 & H2)];
    [reflexivity|].
  destruct Hk as [Hk|Hk].
  { rewrite unfold_step_le0 in E2 by lia. discriminate. }
  rewrite E2. cbn [bind].
  rewrite unfold_step_le0 by lia. reflexivity.
Qed.

(** C8 (as the code has it). [compute_tiles] never validates the grid size.
    A grid count of zero makes the tile-size division raise
    [ZeroDivisionError], before any padding or tile extraction; with
    non-zero counts of which one is negative the geometry is computed, the
    tile extent in that direction is non-positive, and the call fails only
    inside padding or tile extraction, with torch's [RuntimeError]. *)
Theorem nonpositive_grid_fails {A : Type} (imgs batch : tensor A)
  (gr gc : Z) (even_tile_size : bool) :
  _to_bchw imgs = Ok batch ->
  0 <= size batch 2 -> 0 <= size batch 3 ->
  gr <= 0 \/ gc <= 0 ->
  (gr = 0 \/ gc = 0 ->
   tile_geometry (size batch 2) (size batch 3) (gr, gc) even_tile_size
     = Raise ZeroDivisionError /\
   compute_tiles imgs (gr, gc) even_tile_size = Raise ZeroDivisionError) /\
  (gr <> 0 -> gc <> 0 ->
   (exists g, tile_geometry (size batch 2) (size batch 3) (gr, gc) even_tile_size
                = Ok g /\
              (kernel_vert g <= 0 \/ kernel_horz g <= 0)) /\
   compute_tiles imgs (gr, gc) even_tile_size = Raise RuntimeError).
Proof.
  intros Hb Hh Hw Hneg. unfold compute_tiles. rewrite Hb. cbn [bind].
  split.
  - intros Hz.
    assert (E : tile_geometry (size batch 2) (size batch 3) (gr, gc) even_tile_size
                = Raise ZeroDivisionError).
    { unfold tile_geometry, ceil_div. cbn [fst snd].
      destruct (Z.eqb_spec gr 0); [reflexivity|].
      destruct (Z.eqb_spec gc 0); [reflexivity|]. lia. }
    rewrite E. split; reflexivity.
  - intros Hr Hc.
    destruct (tile_geometry (size batch 2) (size batch 3) (gr, gc) even_tile_size)
      as [g|e] eqn:E.
    2:{ exfalso. unfold tile_geometry, ceil_div in E. cbn [fst snd] in E.
        destruct (Z.eqb_spec gr 0); [lia|].
        destruct (Z.eqb_spec gc 0); [lia|]. discriminate. }
    pose proof (tile_geometry_inv _ _ _ _ _ _ E)
      as (_ & _ & _ & _ & _ & _ & Hkv & Hkh).
    assert (Hk : kernel_vert g <= 0 \/ kernel_horz g <= 0).
    { destruct Hneg; [left; apply Hkv | right; apply Hkh]; lia. }
    split; [exists g; split; [reflexivity | exact Hk]|].
    cbn [bind].
    pose proof (to_bchw_inv _ _ Hb) as Hnd.
    destruct ((0 <? pad_vert g) || (0 <? pad_horz g)).
    + destruct (pad_reflect_cases batch (pad_horz g) (pad_vert g))
        as [->|(r & -> & Hr4)]; [reflexivity|].
      cbn [bind]. rewrite extract_tiles_nonpositive by assumption. reflexivity.
    + cbn [bind]. rewrite extract_tiles_nonpositive by assumption. reflexivity.
Qed.

Lemma nonpositive_grid_fails_witness :
  compute_tiles sample_image (0, 2) true = Raise ZeroDivisionError /\
  compute_tiles sample_image (-1, 2) true = Raise RuntimeError.
Proof.
  split.
  - apply (nonpositive_grid_fails sample_image sample_image 0 2 true);
      [reflexivity | cbn; lia | cbn; lia | lia | lia].
  - apply (nonpositive_grid_fails sample_image sample_image (-1) 2 true);
      [reflexivity | cbn; lia | cbn; lia | lia | lia | lia].
Defined.

(** C8 as stated does not hold: with a grid of zero rows the exception is
    not an [InvalidGridError]. *)
Lemma zero_grid_not_invalid_grid_error :
  ~ fails_with (compute_tiles sample_image (0, 2) true) "InvalidGridError".
Proof.
  intros (e & He & Hn). vm_compute in He. injection He as <-.
  discriminate Hn.
Qed.





(** ** Histograms and cumulative sums *)

Lemma histc_length (patch : list Q) : List.length (histc patch) = 256%nat.
Proof. unfold histc. rewrite length_map. reflexivity. Qed.

Lemma histc_nonneg (patch : list Q) : Forall (fun c => 0 <= c) (histc patch).
Proof.
  unfold histc. apply Forall_forall. intros c Hc.
  apply in_map_iff in Hc. destruct Hc as (k & <- & _). lia.
Qed.

Lemma cumsum_from_length (acc : Z) (l : list Z) :
  List.length (cumsum_from acc l) = List.length l.
Proof. revert acc; induction l; intros; cbn; [reflexivity | now rewrite IHl]. Qed.

Lemma cumsum_from_sorted (acc : Z) (l : list Z) :
  Forall (fun c => 0 <= c) l ->
  StronglySorted Z.le (cumsum_from acc l) /\
  Forall (fun x => acc <= x) (cumsum_from acc l).
Proof.
  intros H. revert acc. induction H as [|x l Hx Hl IH]; intros acc; cbn.
  - split; constructor.
  - destruct (IH (acc + x)) as [S1 F1]. split.
    + constructor; assumption.
    + constructor; [lia|].
      eapply Forall_impl; [|exact F1]. cbn. intros; lia.
Qed.

Lemma StronglySorted_map_mono (f : Z -> Z) (l : list Z) :
  (forall x y, x <= y -> f x <= f y) ->
  StronglySorted Z.le l -> StronglySorted Z.le (map f l).
Proof.
  intros Hf H. induction H as [|x l Hs IH Hx]; cbn; constructor.
  - exact IH.
  - apply Forall_forall. intros y Hy. apply in_map_iff in Hy.
    destruct Hy as (z & <- & Hz). apply Hf.
    rewrite Forall_forall in Hx. now apply Hx.
Qed.

Lemma In_removelast {A : Type} (x : A) (l : list A) :
  In x (removelast l) -> In x l.
Proof.
  induction l as [|a l IH]; [intros []|].
  destruct l as [|b l]; [intros []|].
  change (removelast (a :: b :: l)) with (a :: removelast (b :: l)).
  intros [->|H]; [now left | right; apply IH; exact H].
Qed.

Lemma StronglySorted_removelast (l : list Z) :
  StronglySorted Z.le l -> StronglySorted Z.le (removelast l).
Proof.
  intros H. induction H as [|x l Hs IH Hx]; [constructor|].
  destruct l as [|y l]; [constructor|].
  change (removelast (x :: y :: l)) with (x :: removelast (y :: l)).
  constructor; [exact IH|].
  apply Forall_forall. intros z Hz. apply In_removelast in Hz.
  rewrite Forall_forall in Hx. now apply Hx.
Qed.

Lemma removelast_length_pred {A : Type} (l : list A) :
  List.length (removelast l) = pred (List.length l).
Proof.
  induction l as [|a [|b l] IH]; try reflexivity.
  change (removelast (a :: b :: l)) with (a :: removelast (b :: l)).
  cbn [List.length]. rewrite IH. reflexivity.
Qed.

Lemma clamp_bounds (x : Z) : 0 <= clamp 0 255 x <= 255.
Proof. unfold clamp. lia. Qed.

Lemma clamp_mono (x y : Z) : x <= y -> clamp 0 255 x <= clamp 0 255 y.
Proof. unfold clamp. lia. Qed.

(** The contract holds for every table built from a monotone rounding of
    the cumulative counts. *)
Lemma shifted_table_contract (f : Z -> Z) (histo : list Z) :
  (forall x y, x <= y -> f x <= f y) ->
  (forall x, 0 <= x -> 0 <= f x) ->
  Forall (fun c => 0 <= c) histo ->
  List.length histo = 256%nat ->
  lut_contract (shifted_table f histo).
Proof.
  intros Hmono Hpos Hh Hlen. unfold lut_contract, shifted_table.
  destruct (cumsum_from_sorted 0 histo Hh) as [Hs Hb].
  split; [|split; [|split]].
  - cbn [map List.length]. rewrite length_map, removelast_length_pred, length_map.
    unfold cumsum. rewrite cumsum_from_length, Hlen. reflexivity.
  - apply Forall_forall. intros z Hz. apply in_map_iff in Hz.
    destruct Hz as (y & <- & _). apply clamp_bounds.
  - reflexivity.
  - apply StronglySorted_map_mono; [exact clamp_mono|].
    constructor.
    + apply StronglySorted_removelast, StronglySorted_map_mono; assumption.
    + apply Forall_forall. intros z Hz. apply In_removelast in Hz.
      apply in_map_iff in Hz. destruct Hz as (y & <- & Hy).
      apply Hpos. rewrite Forall_forall in Hb. now apply Hb.
Qed.

Lemma last_le_sum (l : list Z) :
  Forall (fun c => 0 <= c) l -> last l 0 <= sum_list l.
Proof.
  intros H. induction H as [|x l Hx Hl IH]; [reflexivity|].
  assert (0 <= sum_list l).
  { clear - Hl. induction Hl; cbn; [lia|]. unfold sum_list in *. lia. }
  destruct l as [|y l]; cbn [last sum_list fold_right] in *; lia.
Qed.

Lemma lut_step_nonneg (histo : list Z) : 0 <= lut_step histo.
Proof.
  unfold lut_step.
  set (nz := filter (fun c => 1 <=? c) histo).
  assert (Hnz : Forall (fun c => 0 <= c) nz).
  { apply Forall_forall. intros c Hc. apply filter_In in Hc.
    destruct Hc as [_ Hc]. lia. }
  pose proof (last_le_sum nz Hnz).
  destruct nz; [lia|]. apply Z.div_pos; lia.
Qed.

(** The table of [compute_luts] satisfies the contract for every tile. *)
Lemma lut_satisfies_contract (patch : list Q) : lut_contract (lut patch).
Proof.
  unfold lut, lut_of_histo.
  pose proof (lut_step_nonneg (histc patch)) as Hs.
  destruct (Z.eqb_spec (lut_step (histc patch)) 0) as [E|E].
  - unfold lut_contract. rewrite length_map, histc_length.
    assert (Hz : forall z, In z (map (fun _ : Z => 0) (histc patch)) -> z = 0).
    { intros z Hz. apply in_map_iff in Hz. now destruct Hz as (? & <- & _). }
    split; [reflexivity|split; [|split]].
    + apply Forall_forall. intros z Hin. rewrite (Hz z Hin). lia.
    + destruct (histc patch); reflexivity.
    + clear E Hs Hz. induction (histc patch) as [|c l IH]; cbn; constructor.
      * exact IH.
      * apply Forall_forall. intros z Hin. apply in_map_iff in Hin.
        destruct Hin as (? & <- & _). lia.
  - apply (shifted_table_contract
             (fun cu => (cu + lut_step (histc patch) / 2) / lut_step (histc patch))).
    + intros x y Hxy. apply Z.div_le_mono; lia.
    + intros x Hx. apply Z.div_pos; [|lia].
      assert (0 <= lut_step (histc patch) / 2) by (apply Z.div_pos; lia). lia.
    + apply histc_nonneg.
    + apply histc_length.
Qed.

(** ** The table of [compute_luts_optim] *)

Lemma Qfloor_div_Z (a b : Z) :
  0 < b -> Qfloor (inject_Z a / inject_Z b) = a / b.
Proof.
  intros H. destruct b as [|p|p]; try lia.
  unfold Qdiv, Qinv, Qmult, inject_Z, Qfloor. cbn.
  rewrite Z.mul_1_r. reflexivity.
Qed.

Lemma optim_step_pos (pixels : Z) : 2 <= pixels -> (0 < optim_step pixels)%Q.
Proof.
  intros H. unfold optim_step, Qlt, Qdiv, Qmult, Qinv, inject_Z. cbn. lia.
Qed.

Lemma removelast_map {A B : Type} (f : A -> B) (l : list A) :
  removelast (map f l) = map f (removelast l).
Proof.
  induction l as [|a [|b l] IH]; try reflexivity.
  change (removelast (a :: b :: l)) with (a :: removelast (b :: l)).
  cbn [map]. change (f a :: f b :: map f l) with (f a :: map f (b :: l)).
  change (removelast (f a :: map f (b :: l)))
    with (f a :: removelast (map f (b :: l))).
  now rewrite IH.
Qed.

Lemma fclamp_level (z : Z) :
  fclamp (Finite (inject_Z z)) = Finite (inject_Z (clamp 0 255 z)).
Proof.
  unfold fclamp, clamp.
  destruct (Qlt_le_dec (inject_Z z) 0) as [H|H].
  - change 0%Q with (inject_Z 0) in H. rewrite <- Zlt_Qlt in H.
    replace (Z.min (Z.max z 0) 255) with 0 by lia. reflexivity.
  - change 0%Q with (inject_Z 0) in H. rewrite <- Zle_Qle in H.
    destruct (Qlt_le_dec (inject_Z 255) (inject_Z z)) as [H'|H'].
    + rewrite <- Zlt_Qlt in H'.
      replace (Z.min (Z.max z 0) 255) with 255 by lia. reflexivity.
    + rewrite <- Zle_Qle in H'.
      replace (Z.min (Z.max z 0) 255) with z by lia. reflexivity.
Qed.

(** With at least two pixels the step is positive and the row computed by
    [compute_luts_optim] is a table of integers. *)
Lemma luts_optim_row_table (pixels : Z) (tile : list Q) :
  2 <= pixels ->
  luts_optim_row pixels tile =
  map (fun z => Finite (inject_Z z))
      (shifted_table (optim_round pixels) (histc tile)).
Proof.
  intros Hp. unfold luts_optim_row, shifted_table.
  change (inject_Z (pixels - 1) / inject_Z 255)%Q with (optim_step pixels).
  pose proof (optim_step_pos pixels Hp) as Hpos.
  assert (Hne : Qeq_bool (optim_step pixels) 0 = false).
  { destruct (Qeq_bool (optim_step pixels) 0) eqn:E; [|reflexivity].
    apply Qeq_bool_iff in E. rewrite E in Hpos. discriminate Hpos. }
  rewrite (map_ext _ (fun cu => Finite (inject_Z (optim_round pixels cu)))).
  2:{ intros cu. unfold float_floordiv. rewrite Hne. reflexivity. }
  rewrite <- (map_map (optim_round pixels) (fun z => Finite (inject_Z z))).
  rewrite removelast_map.
  change (Finite 0 :: map (fun z => Finite (inject_Z z))
                          (removelast (map (optim_round pixels) (cumsum (histc tile)))))
    with (map (fun z => Finite (inject_Z z))
              (0 :: removelast (map (optim_round pixels) (cumsum (histc tile))))).
  rewrite !map_map. apply map_ext. intros z. apply fclamp_level.
Qed.

Lemma optim_round_mono (pixels x y : Z) :
  2 <= pixels -> x <= y -> optim_round pixels x <= optim_round pixels y.
Proof.
  intros Hp Hxy. unfold optim_round. apply Qfloor_resp_le.
  unfold Qdiv. apply Qmult_le_compat_r.
  - apply Qplus_le_compat; [|apply Qle_refl]. now rewrite <- Zle_Qle.
  - apply Qlt_le_weak, Qinv_lt_0_compat, optim_step_pos, Hp.
Qed.

Lemma optim_round_nonneg (pixels x : Z) :
  2 <= pixels -> 0 <= x -> 0 <= optim_round pixels x.
Proof.
  intros Hp Hx. unfold optim_round.
  pose proof (optim_step_pos pixels Hp) as Hs.
  change 0 with (Qfloor 0). apply Qfloor_resp_le.
  assert (Hh : (0 <= optim_step pixels / inject_Z 2)%Q).
  { unfold Qdiv. apply Qmult_le_0_compat; [now apply Qlt_le_weak | discriminate]. }
  apply Qfloor_resp_le in Hh. change (Qfloor 0) with 0 in Hh.
  unfold Qdiv. apply Qmult_le_0_compat.
  - change 0%Q with (inject_Z 0 + inject_Z 0)%Q.
    apply Qplus_le_compat; now rewrite <- Zle_Qle.
  - apply Qlt_le_weak, Qinv_lt_0_compat, Hs.
Qed.

(** The table of [compute_luts_optim] satisfies the contract for every
    tile of at least two pixels. *)
Lemma luts_optim_row_contract (pixels : Z) (tile : list Q) :
  2 <= pixels ->
  exists l, luts_optim_row pixels tile = map (fun z => Finite (inject_Z z)) l /\
            lut_contract l.
Proof.
  intros Hp. eexists. split; [apply luts_optim_row_table, Hp|].
  apply shifted_table_contract.
  - intros x y. now apply optim_round_mono.
  - intros x. now apply optim_round_nonneg.
  - apply histc_nonneg.
  - apply histc_length.
Qed.

(** ** Agreement of the two builders *)

Lemma optim_round_integer_step (pixels s cu : Z) :
  0 < s -> pixels - 1 = 255 * s ->
  optim_round pixels cu = (cu + s / 2) / s.
Proof.
  intros Hs Hp. unfold optim_round.
  assert (E : (optim_step pixels == inject_Z s)%Q).
  { unfold optim_step, Qeq, Qdiv, Qmult, Qinv, inject_Z.
    cbn [Qnum Qden]. change (Qnum (1 # 255)) with 1.
    change (Qden (1 # 255)) with 255%positive. lia. }
  assert (E2 : Qfloor (optim_step pixels / inject_Z 2) = s / 2).
  { rewrite <- (Qfloor_div_Z s 2) by lia.
    apply Qfloor_comp, Qdiv_comp; [exact E | reflexivity]. }
  rewrite E2.
  transitivity (Qfloor (inject_Z (cu + s / 2) / inject_Z s)).
  - apply Qfloor_comp, Qdiv_comp; [|exact E].
    rewrite inject_Z_plus. reflexivity.
  - apply Qfloor_div_Z, Hs.
Qed.

(** The two builders return the same table for a tile whenever the step
    of [compute_luts] is not zero and equals the step [(total - 1) / 255]
    of [compute_luts_optim], [total] being the number of pixels of the
    tile. *)
Lemma luts_agree_when_steps_coincide (patch : list Q) :
  lut_step (histc patch) <> 0 ->
  Z.of_nat (List.length patch) - 1 = 255 * lut_step (histc patch) ->
  luts_agree patch.
Proof.
  intros Hne Hst. unfold luts_agree.
  pose proof (lut_step_nonneg (histc patch)) as Hs.
  rewrite luts_optim_row_table by lia.
  f_equal. unfold lut, lut_of_histo.
  destruct (Z.eqb_spec (lut_step (histc patch)) 0) as [E|_]; [contradiction|].
  unfold shifted_table. f_equal. f_equal. f_equal.
  apply map_ext. intros cu. apply optim_round_integer_step; lia.
Qed.

Lemma all_levels_luts_agree : luts_agree all_levels_patch.
Proof.
  apply (luts_agree_when_steps_coincide all_levels_patch).
  - vm_compute. discriminate.
  - vm_compute. reflexivity.
Qed.

(** C2. The two builders do not agree on every tile whose histogram sums
    to the number of pixels: for a 2 x 2 tile of equal pixels the step of
    the claim is [floor(3 / 255) = 0] and [compute_luts] returns the
    all-zero table, [compute_luts_optim] does not floor its step, has no
    [step == 0] branch and returns another table. *)
Theorem uniform_tile_luts_disagree :
  sum_list (histc (repeat (1 # 2)%Q 4)) = Z.of_nat (List.length (repeat (1 # 2)%Q 4)) /\
  ~ luts_agree (repeat (1 # 2)%Q 4).
Proof.
  split.
  - vm_compute. reflexivity.
  - intros H. apply (f_equal (fun l => nth 200 l NaN)) in H.
    vm_compute in H. discriminate H.
Qed.

(** ** Uniform tiles *)

Lemma filter_repeat {A : Type} (p : A -> bool) (v : A) (n : nat) :
  filter p (repeat v n) = if p v then repeat v n else [].
Proof.
  induction n as [|n IH]; cbn.
  - now destruct (p v).
  - rewrite IH. now destruct (p v).
Qed.

(** The histogram of a uniform tile has at most one populated bin. *)
Lemma histc_uniform (v : Q) (n : nat) :
  exists b c, histc (repeat v n) = map (fun k => if b =? k then c else 0) (range 256).
Proof.
  unfold histc.
  destruct (histc_bin v) as [b|] eqn:E.
  - exists b, (Z.of_nat n). apply map_ext. intros k.
    rewrite filter_repeat. unfold in_bin. rewrite E.
    destruct (b =? k); [now rewrite repeat_length | reflexivity].
  - exists 0, 0. apply map_ext. intros k.
    rewrite filter_repeat. unfold in_bin. rewrite E.
    now destruct (0 =? k).
Qed.

Lemma filter_single_bin (b c : Z) (m : nat) (a : Z) :
  filter (fun x => 1 <=? x) (map (fun k => if b =? k then c else 0) (range_from a m)) =
  if (1 <=? c) && (a <=? b) && (b <? a + Z.of_nat m) then [c] else [].
Proof.
  revert a. induction m as [|m IH]; intros a.
  - cbn [range_from map filter].
    destruct (1 <=? c); destruct (Z.leb_spec a b); destruct (Z.ltb_spec b (a + Z.of_nat 0));
      cbn; try reflexivity; lia.
  - cbn [range_from map filter]. rewrite IH.
    destruct (Z.eqb_spec b a) as [->|Hne].
    + destruct (Z.leb_spec 1 c); cbn [andb].
      * destruct (Z.leb_spec (a + 1) a); [lia|].
        destruct (Z.leb_spec a a); [|lia].
        destruct (Z.ltb_spec a (a + Z.of_nat (S m))); [|lia].
        reflexivity.
      * reflexivity.
    + cbn [Z.leb Z.compare].
      destruct (1 <=? c); cbn [andb]; [|reflexivity].
      destruct (Z.leb_spec (a + 1) b); destruct (Z.leb_spec a b);
        destruct (Z.ltb_spec b (a + 1 + Z.of_nat m));
        destruct (Z.ltb_spec b (a + Z.of_nat (S m))); cbn; try reflexivity; lia.
Qed.

(** [compute_luts] takes the [step == 0] path on every uniform tile and
    returns the all-zero table. *)
Lemma lut_uniform (v : Q) (n : nat) : lut (repeat v n) = repeat 0 256.
Proof.
  unfold lut.
  destruct (histc_uniform v n) as (b & c & E).
  assert (Hs : lut_step (histc (repeat v n)) = 0).
  { unfold lut_step. rewrite E. unfold range. rewrite filter_single_bin.
    destruct (_ && _); [|reflexivity].
    cbn [sum_list fold_right last]. rewrite Z.add_0_r, Z.sub_diag. reflexivity. }
  unfold lut_of_histo. rewrite Hs. cbn [Z.eqb].
  pose proof (histc_length (repeat v n)) as Hl.
  revert Hl. generalize (histc (repeat v n)). generalize 256%nat.
  intros m l. revert m. induction l as [|x l IH]; intros [|m] H; cbn in *;
    try discriminate; [reflexivity|].
  f_equal. apply IH. now injection H.
Qed.

(** C4, at a uniform tile.  [compute_luts] returns the all-zero table;
    [compute_luts_optim] has no degenerate path: on a 2 x 2 tile of equal
    pixels [1/2] its step is [3/255] and the table is zero up to the bin
    of the pixels and 255 above it. *)
Theorem uniform_tile_luts_optim_not_zero :
  (exists t, compute_luts uniform_tiles = Ok t /\ elements t = repeat 0 256) /\
  (exists t, compute_luts_optim uniform_tiles = Ok t /\
             elements t =
             repeat (Finite 0%Q) 129 ++ repeat (Finite (inject_Z 255)) 127).
Proof.
  split; eexists; (split; [reflexivity|]); vm_compute; reflexivity.
Qed.

(** C3, at a tile of a single pixel.  The step of [compute_luts_optim] is
    zero there, the division by it gives NaN for the bins below the pixel
    and an infinity (clamped to 255) from its bin on: entries 1 to 128
    of the table are not integers. *)
Theorem single_pixel_luts_optim_nan :
  exists t, compute_luts_optim single_pixel_tiles = Ok t /\
            elements t =
            Finite 0%Q :: repeat NaN 128 ++ repeat (Finite (inject_Z 255)) 127 /\
            ~ is_level (item t [0; 0; 0; 0; 1]).
Proof.
  eexists. split; [reflexivity|]. split.
  - vm_compute. reflexivity.
  - intros (z & Hz & _). vm_compute in Hz. discriminate Hz.
Qed.

(** ** Interpolation weights *)

Ltac tcbn :=
  cbn [bind shape item ndim size List.length nth set_nth remove_nth insert_nth
       app rev removelast last tl map2 forallb2 skipn firstn
       Nat.sub Nat.leb Nat.ltb Nat.eqb andb orb tmap unsqueeze0 transpose arange].

Lemma div_minus_one (a : Z) : a / -1 = - a.
Proof. symmetry. apply Z.div_unique with 0; lia. Qed.

Lemma two_windows (n : Z) : 0 < n -> (2 * n - n) / n + 1 = 2.
Proof.
  intros H. replace (2 * n - n) with (1 * n) by lia.
  rewrite Z.div_mul by lia. reflexivity.
Qed.

Lemma one_window (n : Z) : 0 < n -> (n - n) / n + 1 = 1.
Proof. intros H. rewrite Z.sub_diag, Z.div_0_l by lia. reflexivity. Qed.

Lemma vertical_weights_spec (th tw : Z) :
  0 < th -> 0 < tw ->
  exists ih, vertical_weights th tw = Ok ih /\
             shape ih = [2; th; tw] /\
             forall k y x,
               item ih [k; y; x] =
               (inject_Z (2 * th - 1 - (k * th + y)) / inject_Z (2 * th - 1))%Q.
Proof.
  intros Hth Htw. unfold vertical_weights.
  unfold expand. tcbn.
  replace (2 * th - 1 - -1) with (2 * th) by lia.
  rewrite div_minus_one, Z.opp_involutive.
  replace (Z.max 0 (2 * th)) with (2 * th) by lia.
  rewrite Z.eqb_refl. cbn [orb andb Z.eqb Pos.eqb]. rewrite orb_true_r.
  tcbn.
  rewrite unfold_ok by (tcbn; lia).
  tcbn. rewrite two_windows by assumption.
  rewrite unfold_ok by (tcbn; lia).
  tcbn. rewrite one_window by assumption.
  unfold squeeze. tcbn. cbn [Z.eqb Pos.eqb].
  eexists. split; [reflexivity|]. split; [reflexivity|].
  intros k y x. tcbn.
  destruct (Z.eqb_spec (2 * th) 1) as [E|_]; [lia|].
  f_equal. f_equal. lia.
Qed.

Lemma horizontal_weights_spec (th tw : Z) :
  0 < th -> 0 < tw ->
  exists iw, horizontal_weights th tw = Ok iw /\
             shape iw = [2; th; tw] /\
             forall k y x,
               item iw [k; y; x] =
               (inject_Z (2 * tw - 1 - (k * tw + x)) / inject_Z (2 * tw - 1))%Q.
Proof.
  intros Hth Htw. unfold horizontal_weights.
  unfold expand. tcbn.
  replace (2 * tw - 1 - -1) with (2 * tw) by lia.
  rewrite div_minus_one, Z.opp_involutive.
  replace (Z.max 0 (2 * tw)) with (2 * tw) by lia.
  rewrite Z.eqb_refl. cbn [orb andb].
  tcbn.
  rewrite unfold_ok by (tcbn; lia).
  tcbn. rewrite one_window by assumption.
  rewrite unfold_ok by (tcbn; lia).
  tcbn. rewrite two_windows by assumption.
  unfold squeeze. tcbn. cbn [Z.eqb Pos.eqb].
  eexists. split; [reflexivity|]. split; [reflexivity|].
  intros k y x. tcbn.
  destruct (Z.eqb_spec (2 * tw) 1) as [E|_]; [lia|].
  f_equal. f_equal. lia.
Qed.

(** ** Indexing, broadcasting and gathering *)

Lemma py_index_ok (n k : Z) : 0 <= k < n -> py_index n k = Ok k.
Proof.
  intros H. unfold py_index.
  destruct (Z.ltb_spec k (- n)); [lia|].
  destruct (Z.leb_spec n k); [lia|]. cbn [orb].
  destruct (Z.ltb_spec k 0); [lia|]. reflexivity.
Qed.

Lemma py_indices_ok (sh ks : list Z) :
  (List.length ks <= List.length sh)%nat ->
  in_bounds ks (firstn (List.length ks) sh) ->
  py_indices sh ks = Ok ks.
Proof.
  revert sh. induction ks as [|k ks IH]; intros sh Hl Hb.
  - destruct sh; reflexivity.
  - destruct sh as [|n sh]; cbn in Hl; [lia|].
    cbn [List.length firstn in_bounds] in Hb. destruct Hb as [Hk Hb].
    cbn [py_indices]. rewrite py_index_ok by assumption. cbn [bind].
    rewrite IH by (assumption || lia). reflexivity.
Qed.

Lemma getitem_ok {A : Type} (t : tensor A) (ks : list Z) :
  (List.length ks <= List.length (shape t))%nat ->
  in_bounds ks (firstn (List.length ks) (shape t)) ->
  getitem t ks = Ok (mkTensor (skipn (List.length ks) (shape t))
                              (fun idx => item t (ks ++ idx))).
Proof.
  intros Hl Hb. unfold getitem. rewrite py_indices_ok by assumption.
  reflexivity.
Qed.

Lemma indices_in_bounds (sh idx : list Z) :
  In idx (indices sh) -> in_bounds idx sh.
Proof.
  revert idx. induction sh as [|n sh IH]; intros idx H; cbn [indices] in H.
  - destruct H as [<-|[]]. exact I.
  - apply in_flat_map in H. destruct H as (i & Hi & H).
    apply in_map_iff in H. destruct H as (idx' & <- & H').
    apply range_In in Hi. cbn [in_bounds]. split; [exact Hi | now apply IH].
Qed.

Lemma forallb2_expand_refl (sh : list Z) :
  forallb2 (fun n s => (n =? s) || (n =? 1)) sh sh = true.
Proof.
  induction sh as [|n sh IH]; [reflexivity|].
  cbn [forallb2]. now rewrite Z.eqb_refl, IH.
Qed.

Lemma map2_in_bounds (sh idx : list Z) :
  in_bounds idx sh ->
  map2 (fun n i => if n =? 1 then 0 else i) sh idx = idx.
Proof.
  revert sh. induction idx as [|i idx IH]; intros [|n sh] H; cbn in H;
    try contradiction; try reflexivity.
  destruct H as [Hi H]. cbn [map2]. rewrite IH by assumption.
  destruct (Z.eqb_spec n 1); [f_equal; lia | reflexivity].
Qed.

Lemma expand_same {A : Type} (t : tensor A) :
  exists r, expand t (shape t) = Ok r /\ shape r = shape t /\
            forall idx, in_bounds idx (shape t) -> item r idx = item t idx.
Proof.
  unfold expand, ndim. rewrite Nat.sub_diag, Nat.leb_refl. cbn [skipn andb].
  rewrite forallb2_expand_refl.
  eexists. split; [reflexivity|]. split; [reflexivity|].
  intros idx H. cbn [item]. now rewrite map2_in_bounds.
Qed.

Lemma broadcast_rev_refl (sh : list Z) : broadcast_rev sh sh = Ok sh.
Proof.
  induction sh as [|n sh IH]; [reflexivity|].
  cbn [broadcast_rev]. rewrite IH. cbn [bind]. now rewrite Z.eqb_refl.
Qed.

Lemma bcast2_same {A B C : Type} (f : A -> B -> C) (a : tensor A) (b : tensor B) :
  shape a = shape b ->
  exists r, bcast2 f a b = Ok r /\ shape r = shape a /\
            forall idx, in_bounds idx (shape a) ->
                        item r idx = f (item a idx) (item b idx).
Proof.
  intros Hs. unfold bcast2, broadcast_shapes. rewrite <- Hs.
  rewrite broadcast_rev_refl. cbn [bind]. rewrite rev_involutive.
  destruct (expand_same a) as (a' & -> & _ & Ha).
  rewrite Hs.
  destruct (expand_same b) as (b' & -> & _ & Hb).
  cbn [bind]. eexists. split; [reflexivity|]. split; [reflexivity|].
  intros idx H. cbn [item]. rewrite Ha by (now rewrite Hs).
  rewrite Hb by assumption. reflexivity.
Qed.

(** A weight plane [th x tw] combined with a tile [c x th x tw]. *)
Lemma bcast2_plane {A B C : Type} (f : A -> B -> C) (w : tensor A) (d : tensor B)
  (c th tw : Z) :
  shape w = [th; tw] -> shape d = [c; th; tw] ->
  exists r, bcast2 f w d = Ok r /\ shape r = [c; th; tw] /\
            forall ch y x, in_bounds [ch; y; x] [c; th; tw] ->
                           item r [ch; y; x] = f (item w [y; x]) (item d [ch; y; x]).
Proof.
  intros Hw Hd. destruct w as [shw iw]. destruct d as [shd id].
  cbn [shape] in Hw, Hd. subst shw shd.
  unfold bcast2, broadcast_shapes. tcbn. cbn [broadcast_rev bind].
  rewrite !Z.eqb_refl. tcbn.
  unfold expand. tcbn. rewrite !Z.eqb_refl. cbn [orb andb]. tcbn.
  eexists. split; [reflexivity|]. split; [reflexivity|].
  intros ch y x (Hc & Hy & Hx & _). tcbn.
  f_equal.
  - f_equal.
    destruct (Z.eqb_spec th 1); destruct (Z.eqb_spec tw 1); repeat f_equal; lia.
  - f_equal.
    destruct (Z.eqb_spec c 1); destruct (Z.eqb_spec th 1); destruct (Z.eqb_spec tw 1);
      repeat f_equal; lia.
Qed.

Lemma scale_add_spec (w d b : tensor Q) (c th tw : Z) :
  shape w = [th; tw] -> shape d = [c; th; tw] -> shape b = [c; th; tw] ->
  exists r, scale_add w d b = Ok r /\ shape r = [c; th; tw] /\
            forall ch y x, in_bounds [ch; y; x] [c; th; tw] ->
                           item r [ch; y; x] =
                           float32 (float32 (item w [y; x] * item d [ch; y; x])
                                    + item b [ch; y; x])%Q.
Proof.
  intros Hw Hd Hb. unfold scale_add.
  destruct (bcast2_plane (fun x y => float32 (x * y)%Q) w d c th tw Hw Hd)
    as (m & -> & Hsm & Hm).
  cbn [bind].
  destruct (bcast2_same (fun x y => float32 (x + y)%Q) m b) as (r & -> & Hsr & Hr);
    [congruence|].
  rewrite Hsm in Hsr, Hr.
  eexists. split; [reflexivity|]. split; [exact Hsr|].
  intros ch y x H. rewrite Hr, Hm by assumption. reflexivity.
Qed.

Lemma blend_long_spec (w : tensor Q) (a b : tensor Z) (c th tw : Z) :
  shape w = [th; tw] -> shape a = [c; th; tw] -> shape b = [c; th; tw] ->
  exists r, blend_long w a b = Ok r /\ shape r = [c; th; tw] /\
            forall ch y x, in_bounds [ch; y; x] [c; th; tw] ->
                           item r [ch; y; x] =
                           float32 (float32 (item w [y; x]
                                             * float32 (inject_Z (item a [ch; y; x]
                                                                  - item b [ch; y; x])))
                                    + float32 (inject_Z (item b [ch; y; x])))%Q.
Proof.
  intros Hw Ha Hb. unfold blend_long.
  destruct (bcast2_same Z.sub a b) as (d & -> & Hsd & Hd); [congruence|].
  cbn [bind]. rewrite Ha in Hsd, Hd.
  destruct (scale_add_spec w (to_float d) (to_float b) c th tw Hw Hsd Hb)
    as (r & -> & Hsr & Hr).
  eexists. split; [reflexivity|]. split; [exact Hsr|].
  intros ch y x H. rewrite Hr by assumption. unfold to_float. cbn [tmap item].
  rewrite Hd by assumption. reflexivity.
Qed.

Lemma blend_spec (w a b : tensor Q) (c th tw : Z) :
  shape w = [th; tw] -> shape a = [c; th; tw] -> shape b = [c; th; tw] ->
  exists r, blend w a b = Ok r /\ shape r = [c; th; tw] /\
            forall ch y x, in_bounds [ch; y; x] [c; th; tw] ->
                           item r [ch; y; x] =
                           float32 (float32 (item w [y; x]
                                             * float32 (item a [ch; y; x]
                                                        - item b [ch; y; x]))
                                    + item b [ch; y; x])%Q.
Proof.
  intros Hw Ha Hb. unfold blend.
  destruct (bcast2_same (fun x y => float32 (x - y)%Q) a b) as (d & -> & Hsd & Hd);
    [congruence|].
  cbn [bind]. rewrite Ha in Hsd, Hd.
  destruct (scale_add_spec w d b c th tw Hw Hsd Hb) as (r & -> & Hsr & Hr).
  eexists. split; [reflexivity|]. split; [exact Hsr|].
  intros ch y x H. rewrite Hr, Hd by assumption. reflexivity.
Qed.

(** ** One query tile *)

Lemma flatten_quantize (interp : tensor Q) (B gh gw c th tw : Z) :
  shape interp = [B; gh; gw; c; th; tw] ->
  exists flat, flatten_last2 (tmap quantize interp) = Ok flat /\
               shape flat = [B; gh; gw; c; th * tw] /\
               forall im j i ch p,
                 item flat [im; j; i; ch; p] =
                 quantize (item interp [im; j; i; ch; p / tw; p mod tw]).
Proof.
  intros Hs. destruct interp as [sh it]. cbn [shape] in Hs. subst sh.
  unfold flatten_last2. tcbn.
  eexists. split; [reflexivity|]. split; reflexivity.
Qed.

Lemma row_major_split (n m q r : Z) :
  0 <= r < m -> (q * m + r) / m = q /\ (q * m + r) mod m = r.
Proof.
  intros H. split.
  - symmetry. apply Z.div_unique with r; lia.
  - symmetry. apply Z.mod_unique with q; lia.
Qed.

Lemma lookup_spec (luts flat : tensor Z) (interp : tensor Q)
  (B GH GW gh gw C L th tw im j i r s : Z) :
  shape luts = [B; GH; GW; C; L] ->
  shape flat = [B; gh; gw; C; th * tw] ->
  (forall ch p, item flat [im; j; i; ch; p] =
                quantize (item interp [im; j; i; ch; p / tw; p mod tw])) ->
  0 < th -> 0 < tw ->
  (forall ch y x, in_bounds [ch; y; x] [C; th; tw] ->
                  0 <= quantize (item interp [im; j; i; ch; y; x]) < L) ->
  in_bounds [im; j; i] [B; gh; gw] ->
  0 <= r < GH -> 0 <= s < GW ->
  exists a, lookup luts flat C th tw im j i r s = Ok a /\
            shape a = [C; th; tw] /\
            forall ch y x, in_bounds [ch; y; x] [C; th; tw] ->
                           item a [ch; y; x] = mapped luts interp im r s j i ch y x.
Proof.
  intros Hl Hf Hfi Hth Htw Hpx (Him & Hj & Hi & _) Hr Hs.
  unfold lookup.
  rewrite getitem_ok by (rewrite Hl; cbn; (lia || tauto)).
  cbn [bind]. rewrite getitem_ok by (rewrite Hf; cbn; (lia || tauto)).
  cbn [bind]. rewrite Hl, Hf. tcbn.
  unfold gather1. tcbn.
  assert (Hall :
    forallb (fun idx => (0 <=? item flat (im :: j :: i :: idx)) &&
                        (item flat (im :: j :: i :: idx) <? L))
            (indices [C; th * tw]) = true).
  { apply forallb_forall. intros idx Hin. apply indices_in_bounds in Hin.
    destruct idx as [|ch [|p [|? ?]]]; cbn in Hin; try tauto.
    destruct Hin as (Hch & Hp & _). rewrite Hfi.
    assert (Hb : in_bounds [ch; p / tw; p mod tw] [C; th; tw]).
    { cbn. repeat split; try lia.
      - apply Z.div_pos; lia.
      - apply Z.div_lt_upper_bound; lia.
      - apply Z.mod_pos_bound; lia.
      - apply Z.mod_pos_bound; lia. }
    specialize (Hpx _ _ _ Hb).
    apply andb_true_iff. split; [apply Z.leb_le | apply Z.ltb_lt]; lia. }
  rewrite Hall. rewrite Z.leb_refl. cbn [andb bind].
  unfold reshape3. tcbn. rewrite Z.mul_assoc, Z.eqb_refl.
  eexists. split; [reflexivity|]. split; [reflexivity|].
  intros ch y x (Hch & Hy & Hx & _). tcbn. unfold mapped.
  assert (E1 : 0 <= y * tw + x < th * tw) by nia.
  replace ((ch * th + y) * tw + x) with (ch * (th * tw) + (y * tw + x)) by lia.
  destruct (row_major_split 0 (th * tw) ch (y * tw + x) E1) as [-> ->].
  rewrite Hfi.
  destruct (row_major_split 0 tw y x Hx) as [-> ->].
  reflexivity.
Qed.

Lemma neighbour_bounds (k G : Z) :
  0 < k < 2 * G - 1 ->
  0 <= upper k < G /\ 0 <= lower k < G.
Proof.
  intros H. unfold upper, lower.
  pose proof (Z.div_mod k 2 ltac:(lia)).
  pose proof (Z.mod_pos_bound k 2 ltac:(lia)). lia.
Qed.

Lemma parent_bounds (k G : Z) : 0 <= k < 2 * G -> 0 <= k / 2 < G.
Proof.
  intros H.
  pose proof (Z.div_mod k 2 ltac:(lia)).
  pose proof (Z.mod_pos_bound k 2 ltac:(lia)). lia.
Qed.

Lemma not_edge (k G : Z) :
  0 <= k < 2 * G -> (k =? 0) || (k =? 2 * G - 1) = false -> 0 < k < 2 * G - 1.
Proof.
  intros H E. apply orb_false_iff in E. destruct E as [E1 E2].
  apply Z.eqb_neq in E1, E2. lia.
Qed.

Section QueryTile.

Variables (luts flat : tensor Z) (interp ih iw : tensor Q).
Variables (B GH GW C L th tw : Z).

Hypothesis Hwf : well_formed interp luts B GH GW C th tw L.
Hypothesis Hflat_shape : shape flat = [B; 2 * GH; 2 * GW; C; th * tw].
Hypothesis Hflat :
  forall im j i ch p,
    item flat [im; j; i; ch; p] =
    quantize (item interp [im; j; i; ch; p / tw; p mod tw]).
Hypothesis Hih_shape : shape ih = [2; th; tw].
Hypothesis Hih :
  forall k y x,
    item ih [k; y; x] =
    float32 (inject_Z (2 * th - 1 - (k * th + y)) / inject_Z (2 * th - 1))%Q.
Hypothesis Hiw_shape : shape iw = [2; th; tw].
Hypothesis Hiw :
  forall k y x,
    item iw [k; y; x] =
    float32 (inject_Z (2 * tw - 1 - (k * tw + x)) / inject_Z (2 * tw - 1))%Q.

Lemma look_ok (im j i r s : Z) :
  in_bounds [im; j; i] [B; 2 * GH; 2 * GW] ->
  0 <= r < GH -> 0 <= s < GW ->
  exists a, lookup luts flat C th tw im j i r s = Ok a /\
            shape (to_float a) = [C; th; tw] /\
            shape a = [C; th; tw] /\
            forall ch y x, in_bounds [ch; y; x] [C; th; tw] ->
                           item a [ch; y; x] = mapped luts interp im r s j i ch y x.
Proof.
  intros Hb Hr Hs.
  destruct (lookup_spec luts flat interp B GH GW (2 * GH) (2 * GW) C L th tw
              im j i r s) as (a & Ha & Hsa & Hia);
    try assumption;
    try (destruct Hwf; assumption).
  - intros. apply Hflat.
  - intros ch y x (Hc & Hy & Hx & _).
    destruct Hwf as [Hsi _ _ _ Hpx]. apply Hpx. rewrite Hsi.
    destruct Hb as (? & ? & ? & _). cbn. tauto.
  - exists a. repeat split; assumption.
Qed.

Lemma vertical_plane (j : Z) :
  exists w, getitem ih [(j + 1) mod 2] = Ok w /\ shape w = [th; tw] /\
            forall y x, item w [y; x] = float32 (ramp th j y).
Proof.
  rewrite getitem_ok.
  - eexists. split; [reflexivity|]. rewrite Hih_shape.
    split; [reflexivity|]. intros y x. cbn [item app]. apply Hih.
  - rewrite Hih_shape. cbn. lia.
  - rewrite Hih_shape. cbn.
    pose proof (Z.mod_pos_bound (j + 1) 2 ltac:(lia)). tauto.
Qed.

Lemma horizontal_plane (i : Z) :
  exists w, getitem iw [(i + 1) mod 2] = Ok w /\ shape w = [th; tw] /\
            forall y x, item w [y; x] = float32 (ramp tw i x).
Proof.
  rewrite getitem_ok.
  - eexists. split; [reflexivity|]. rewrite Hiw_shape.
    split; [reflexivity|]. intros y x. cbn [item app]. apply Hiw.
  - rewrite Hiw_shape. cbn. lia.
  - rewrite Hiw_shape. cbn.
    pose proof (Z.mod_pos_bound (i + 1) 2 ltac:(lia)). tauto.
Qed.

Lemma equalized_tile_spec (im j i : Z) :
  in_bounds [im; j; i] [B; 2 * GH; 2 * GW] ->
  exists a, equalized_tile luts flat ih iw (2 * GH) (2 * GW) C th tw im j i = Ok a /\
            shape a = [C; th; tw] /\
            forall ch y x, in_bounds [ch; y; x] [C; th; tw] ->
                           item a [ch; y; x] =
                           expected_value luts interp GH GW th tw im j i ch y x.
Proof.
  intros Hb. pose proof Hb as (Him & Hj & Hi & _).
  unfold equalized_tile, expected_value, mix, mix_long.
  change (Z.max 0 (j / 2 + j mod 2 - 1)) with (upper j).
  change (Z.max 0 (i / 2 + i mod 2 - 1)) with (upper i).
  change (j / 2 + j mod 2) with (lower j).
  change (i / 2 + i mod 2) with (lower i).
  pose proof (parent_bounds j GH Hj) as Hpj.
  pose proof (parent_bounds i GW Hi) as Hpi.
  destruct ((i =? 0) || (i =? 2 * GW - 1)) eqn:Ei;
    destruct ((j =? 0) || (j =? 2 * GH - 1)) eqn:Ej; cbn [andb].
  - (* corner *)
    destruct (look_ok im j i (j / 2) (i / 2) Hb Hpj Hpi) as (a & -> & _ & Hs & Hi').
    exists a. repeat split; assumption.
  - (* border, blended vertically *)
    destruct (neighbour_bounds j GH (not_edge j GH Hj Ej)) as [Hu Hl].
    destruct (look_ok im j i (upper j) (i / 2) Hb Hu Hpi) as (t & -> & _ & Hst & Hit).
    destruct (look_ok im j i (lower j) (i / 2) Hb Hl Hpi) as (b & -> & _ & Hsb & Hib).
    cbn [bind].
    destruct (vertical_plane j) as (w & -> & Hsw & Hiw').
    cbn [bind].
    destruct (blend_long_spec w t b C th tw Hsw Hst Hsb)
      as (r & -> & Hsr & Hir).
    cbn [bind]. eexists. split; [reflexivity|]. split; [exact Hsr|].
    intros ch y x Hin. cbn [tmap item]. rewrite Hir by assumption.
    rewrite Hiw', Hit, Hib by assumption. reflexivity.
  - (* border, blended horizontally *)
    destruct (neighbour_bounds i GW (not_edge i GW Hi Ei)) as [Hu Hl].
    destruct (look_ok im j i (j / 2) (upper i) Hb Hpj Hu) as (l & -> & _ & Hsl & Hil).
    destruct (look_ok im j i (j / 2) (lower i) Hb Hpj Hl) as (r & -> & _ & Hsr & Hir).
    cbn [bind].
    destruct (horizontal_plane i) as (w & -> & Hsw & Hiw').
    cbn [bind].
    destruct (blend_long_spec w l r C th tw Hsw Hsl Hsr)
      as (v & -> & Hsv & Hiv).
    cbn [bind]. eexists. split; [reflexivity|]. split; [exact Hsv|].
    intros ch y x Hin. cbn [tmap item]. rewrite Hiv by assumption.
    rewrite Hiw', Hil, Hir by assumption. reflexivity.
  - (* interior *)
    destruct (neighbour_bounds j GH (not_edge j GH Hj Ej)) as [Huj Hlj].
    destruct (neighbour_bounds i GW (not_edge i GW Hi Ei)) as [Hui Hli].
    destruct (look_ok im j i (upper j) (upper i) Hb Huj Hui)
      as (tl & -> & _ & Hstl & Hitl).
    destruct (look_ok im j i (upper j) (lower i) Hb Huj Hli)
      as (tr & -> & _ & Hstr & Hitr).
    destruct (look_ok im j i (lower j) (upper i) Hb Hlj Hui)
      as (bl & -> & _ & Hsbl & Hibl).
    destruct (look_ok im j i (lower j) (lower i) Hb Hlj Hli)
      as (br & -> & _ & Hsbr & Hibr).
    cbn [bind].
    destruct (horizontal_plane i) as (wh & -> & Hswh & Hiwh).
    cbn [bind].
    destruct (blend_long_spec wh tl tr C th tw Hswh Hstl Hstr)
      as (t & -> & Hst & Hit).
    cbn [bind].
    destruct (blend_long_spec wh bl br C th tw Hswh Hsbl Hsbr)
      as (b & -> & Hsb & Hib).
    cbn [bind].
    destruct (vertical_plane j) as (wv & -> & Hswv & Hiwv).
    cbn [bind].
    destruct (blend_spec wv t b C th tw Hswv Hst Hsb) as (v & -> & Hsv & Hiv).
    cbn [bind]. eexists. split; [reflexivity|]. split; [exact Hsv|].
    intros ch y x Hin. cbn [tmap item]. rewrite Hiv by assumption.
    rewrite Hit, Hib by assumption.
    rewrite Hiwv, Hiwh.
    rewrite Hitl, Hitr, Hibl, Hibr by assumption. reflexivity.
Qed.

End QueryTile.

(** ** The loops over the query tiles *)

Lemma filled_weaken (sh : list Z) (F : list Z -> Z)
  (D D' : Z -> Z -> Z -> Prop) (te : tensor Z) :
  (forall a b i, D' a b i -> D a b i) ->
  filled sh F D te -> filled sh F D' te.
Proof.
  intros H [Hs Hi]. split; [exact Hs|].
  intros a b i rest Hb Hd. apply Hi; [exact Hb | now apply H].
Qed.

Lemma for_each_filled (sh : list Z) (F : list Z -> Z)
  (E : Z -> Z -> Z -> Z -> Prop) (l : list Z)
  (body : Z -> tensor Z -> result (tensor Z)) :
  (forall k D te, In k l -> filled sh F D te ->
     exists te', body k te = Ok te' /\
                 filled sh F (fun a b i => D a b i \/ E k a b i) te') ->
  forall D te, filled sh F D te ->
    exists te', for_each l body te = Ok te' /\
                filled sh F (fun a b i => D a b i \/ exists k, In k l /\ E k a b i) te'.
Proof.
  induction l as [|k l IH]; intros Hbody D te Hf.
  - exists te. split; [reflexivity|].
    eapply filled_weaken; [|exact Hf].
    intros a b i [H|(k & [] & _)]. exact H.
  - destruct (Hbody k D te (or_introl eq_refl) Hf) as (te1 & E1 & Hf1).
    cbn [for_each]. rewrite E1. cbn [bind].
    destruct (IH (fun k' D' te' Hin => Hbody k' D' te' (or_intror Hin)) _ _ Hf1)
      as (te' & E' & Hf').
    exists te'. split; [exact E'|].
    eapply filled_weaken; [|exact Hf'].
    intros a b i [H|(k' & [<-|Hin] & H)].
    + left. now left.
    + left. now right.
    + right. exists k'. split; assumption.
Qed.

Lemma setitem_tile (te a : tensor Z) (B gh gw C th tw im j i : Z) :
  shape te = [B; gh; gw; C; th; tw] ->
  in_bounds [im; j; i] [B; gh; gw] ->
  shape a = [C; th; tw] ->
  exists te', setitem te [im; j; i] a = Ok te' /\
              shape te' = shape te /\
              (forall rest, in_bounds rest [C; th; tw] ->
                            item te' (im :: j :: i :: rest) = item a rest) /\
              (forall a0 b0 i0 rest, (a0, b0, i0) <> (im, j, i) ->
                            item te' (a0 :: b0 :: i0 :: rest) =
                            item te (a0 :: b0 :: i0 :: rest)).
Proof.
  intros Hs Hb Ha. unfold setitem.
  rewrite py_indices_ok by (rewrite Hs; first [exact Hb | cbn; lia]).
  cbn [bind]. rewrite Hs. cbn [List.length skipn]. rewrite <- Ha.
  destruct (expand_same a) as (a' & -> & _ & Hia).
  cbn [bind]. eexists. split; [reflexivity|]. split; [reflexivity|]. split.
  - intros rest Hr. cbn [item firstn skipn].
    rewrite list_eqb_refl. apply Hia. exact Hr.
  - intros a0 b0 i0 rest Hne. cbn [item firstn skipn].
    destruct (list_eqb [a0; b0; i0] [im; j; i]) eqn:E; [|reflexivity].
    apply list_eqb_eq in E. injection E as -> -> ->. contradiction.
Qed.

Section QueryTiles.

Variables (luts : tensor Z) (interp : tensor Q).
Variables (B GH GW C L th tw : Z).

Hypothesis Hwf : well_formed interp luts B GH GW C th tw L.

(** The assignment of one tile. *)
Lemma assign_tile_filled (flat : tensor Z) (ih iw : tensor Q) (im j i : Z)
  (D : Z -> Z -> Z -> Prop) (te : tensor Z) :
  shape flat = [B; 2 * GH; 2 * GW; C; th * tw] ->
  (forall im j i ch p,
      item flat [im; j; i; ch; p] =
      quantize (item interp [im; j; i; ch; p / tw; p mod tw])) ->
  shape ih = [2; th; tw] ->
  (forall k y x,
      item ih [k; y; x] =
      float32 (inject_Z (2 * th - 1 - (k * th + y)) / inject_Z (2 * th - 1))%Q) ->
  shape iw = [2; th; tw] ->
  (forall k y x,
      item iw [k; y; x] =
      float32 (inject_Z (2 * tw - 1 - (k * tw + x)) / inject_Z (2 * tw - 1))%Q) ->
  in_bounds [im; j; i] [B; 2 * GH; 2 * GW] ->
  filled [B; 2 * GH; 2 * GW; C; th; tw] (expected_item luts interp GH GW th tw) D te ->
  exists te',
    (a <- equalized_tile luts flat ih iw (2 * GH) (2 * GW) C th tw im j i ;;
     setitem te [im; j; i] a) = Ok te' /\
    filled [B; 2 * GH; 2 * GW; C; th; tw] (expected_item luts interp GH GW th tw) (fun a b c => D a b c \/ (a = im /\ b = j /\ c = i)) te'.
Proof.
  intros Hfs Hfi Hihs Hih Hiws Hiw Hb [Hts Hti].
  destruct (equalized_tile_spec luts flat interp ih iw B GH GW C L th tw
              Hwf Hfs Hfi Hihs Hih Hiws Hiw im j i Hb) as (a & -> & Hsa & Hia).
  cbn [bind].
  destruct (setitem_tile te a B (2 * GH) (2 * GW) C th tw im j i Hts Hb Hsa)
    as (te' & -> & Hs' & Hset & Hkeep).
  exists te'. split; [reflexivity|]. split; [congruence|].
  intros a0 b0 i0 rest Hin Hd.
  destruct (list_eq_dec Z.eq_dec [a0; b0; i0] [im; j; i]) as [E|E].
  - injection E as -> -> ->.
    destruct rest as [|ch [|y [|x [|? ?]]]]; cbn in Hin; try tauto.
    rewrite Hset by (cbn; tauto).
    rewrite Hia by (cbn; tauto). reflexivity.
  - rewrite Hkeep by congruence.
    destruct Hd as [Hd|(-> & -> & ->)]; [|contradiction].
    now apply Hti.
Qed.

(** [compute_equalized_tiles] returns, and every element of its result
    is the expected one. *)
Lemma compute_equalized_tiles_spec :
  exists out, compute_equalized_tiles interp luts = Ok out /\
              shape out = shape interp /\
              forall im j i ch y x,
                in_bounds [im; j; i; ch; y; x] (shape interp) ->
                item out [im; j; i; ch; y; x] =
                expected_value luts interp GH GW th tw im j i ch y x.
Proof.
  pose proof Hwf as [Hsi Hsl Hth Htw Hpx].
  unfold compute_equalized_tiles. rewrite Hsi.
  destruct (vertical_weights_spec th tw Hth Htw) as (ih0 & -> & Hihs0 & Hih0).
  destruct (horizontal_weights_spec th tw Hth Htw) as (iw0 & -> & Hiws0 & Hiw0).
  cbn [bind]. cbv zeta.
  set (ih := tmap float32 ih0). set (iw := tmap float32 iw0).
  assert (Hihs : shape ih = [2; th; tw]) by exact Hihs0.
  assert (Hiws : shape iw = [2; th; tw]) by exact Hiws0.
  assert (Hih : forall k y x,
             item ih [k; y; x] =
             float32 (inject_Z (2 * th - 1 - (k * th + y))
                      / inject_Z (2 * th - 1))%Q).
  { intros k y x. unfold ih. cbn [tmap item]. rewrite Hih0. reflexivity. }
  assert (Hiw : forall k y x,
             item iw [k; y; x] =
             float32 (inject_Z (2 * tw - 1 - (k * tw + x))
                      / inject_Z (2 * tw - 1))%Q).
  { intros k y x. unfold iw. cbn [tmap item]. rewrite Hiw0. reflexivity. }
  clearbody ih iw. clear ih0 iw0 Hihs0 Hih0 Hiws0 Hiw0.
  destruct (flatten_quantize interp B (2 * GH) (2 * GW) C th tw Hsi)
    as (flat & -> & Hfs & Hfi).
  cbn [bind].
  assert (H0 : filled [B; 2 * GH; 2 * GW; C; th; tw] (expected_item luts interp GH GW th tw) (fun _ _ _ => False) (zeros_like interp)).
  { split; [exact Hsi|]. intros ? ? ? ? _ []. }
  destruct (for_each_filled [B; 2 * GH; 2 * GW; C; th; tw]
              (expected_item luts interp GH GW th tw)
              (fun im a b c => a = im /\ In b (range (2 * GH)) /\ In c (range (2 * GW)))
              (range B)
              (fun im te =>
                 for_each (range (2 * GH)) (fun j te =>
                   for_each (range (2 * GW)) (fun i te =>
                     a <- equalized_tile luts flat ih iw (2 * GH) (2 * GW) C th tw im j i ;;
                     setitem te [im; j; i] a) te) te))
    with (D := fun _ _ _ : Z => False) (te := zeros_like interp)
    as (out & Hout & Hfo & Hfi'); [|exact H0|].
  - intros im D te Him Hf. apply range_In in Him.
    destruct (for_each_filled [B; 2 * GH; 2 * GW; C; th; tw]
              (expected_item luts interp GH GW th tw)
                (fun j a b c => a = im /\ b = j /\ In c (range (2 * GW)))
                (range (2 * GH))
                (fun j te =>
                   for_each (range (2 * GW)) (fun i te =>
                     a <- equalized_tile luts flat ih iw (2 * GH) (2 * GW) C th tw im j i ;;
                     setitem te [im; j; i] a) te))
      with (D := D) (te := te) as (te' & Ht' & Hf'); [|exact Hf|].
    + intros j D' te0 Hj Hf0. apply range_In in Hj.
      destruct (for_each_filled [B; 2 * GH; 2 * GW; C; th; tw]
              (expected_item luts interp GH GW th tw)
                  (fun i a b c => a = im /\ b = j /\ c = i)
                  (range (2 * GW))
                  (fun i te =>
                     a <- equalized_tile luts flat ih iw (2 * GH) (2 * GW) C th tw im j i ;;
                     setitem te [im; j; i] a))
        with (D := D') (te := te0) as (te1 & Ht1 & Hf1); [|exact Hf0|].
      * intros i D'' te2 Hi Hf2. apply range_In in Hi.
        apply assign_tile_filled; try assumption. cbn. tauto.
      * exists te1. split; [exact Ht1|].
        eapply filled_weaken; [|exact Hf1].
        intros a b c [H|(-> & -> & H)]; [now left|].
        right. exists c. tauto.
    + exists te'. split; [exact Ht'|].
      eapply filled_weaken; [|exact Hf'].
      intros a b c [H|(-> & H1 & H2)]; [now left|].
      right. exists b. tauto.
  - exists out. split; [exact Hout|]. split; [exact Hfo|].
    intros im j i ch y x Hin.
    rewrite (Hfi' im j i [ch; y; x] Hin); [reflexivity|].
    destruct Hin as (Him & Hj & Hi & _).
    right. exists im. rewrite !range_In. tauto.
Qed.

End QueryTiles.

(** ** Quantization *)

Lemma quantize_unit (v : Q) :
  (0 <= v)%Q -> (v <= 1)%Q ->
  quantize v = Qfloor (v * inject_Z 255) /\ 0 <= quantize v <= 255.
Proof.
  intros H0 H1. unfold quantize, to_long.
  assert (Hlo : (0 <= v * inject_Z 255)%Q).
  { apply Qmult_le_0_compat; [exact H0 | discriminate]. }
  assert (Hhi : (v * inject_Z 255 <= inject_Z 255)%Q).
  { setoid_replace (inject_Z 255) with (1 * inject_Z 255)%Q at 2 by ring.
    apply Qmult_le_compat_r; [exact H1 | discriminate]. }
  rewrite (proj2 (Qle_bool_iff _ _) Hlo).
  split; [reflexivity|].
  apply Qfloor_resp_le in Hlo, Hhi.
  rewrite Qfloor_Z in Hhi. change (Qfloor 0) with 0 in Hlo. lia.
Qed.

Lemma in_bounds6 (idx : list Z) (n0 n1 n2 n3 n4 n5 : Z) :
  in_bounds idx [n0; n1; n2; n3; n4; n5] ->
  exists a b c d e f,
    idx = [a; b; c; d; e; f] /\
    0 <= a < n0 /\ 0 <= b < n1 /\ 0 <= c < n2 /\
    0 <= d < n3 /\ 0 <= e < n4 /\ 0 <= f < n5.
Proof.
  destruct idx as [|a [|b [|c [|d [|e [|f [|? ?]]]]]]]; cbn; try tauto.
  intros H. exists a, b, c, d, e, f. tauto.
Qed.

Lemma sample_well_formed :
  well_formed sample_query_tiles sample_luts 1 2 1 1 2 2 256.
Proof.
  constructor; try reflexivity; try lia.
  intros idx _. unfold sample_query_tiles. cbn [item].
  change (quantize (1 # 2)) with 127. lia.
Qed.

Lemma single_grid_well_formed :
  well_formed single_grid_query_tiles single_grid_luts 1 1 1 1 1 1 256.
Proof.
  constructor; try reflexivity; try lia.
  intros idx H. apply in_bounds6 in H.
  destruct H as (a & j & i & d & e & f & -> & _ & Hj & Hi & _).
  assert (Ej : j = 0 \/ j = 1) by lia. assert (Ei : i = 0 \/ i = 1) by lia.
  destruct Ej as [-> | ->]; destruct Ei as [-> | ->];
    unfold single_grid_query_tiles; cbn [item].
  - change (quantize (inject_Z (2 * 0 + 0) / inject_Z 4)) with 0. lia.
  - change (quantize (inject_Z (2 * 0 + 1) / inject_Z 4)) with 63. lia.
  - change (quantize (inject_Z (2 * 1 + 0) / inject_Z 4)) with 127. lia.
  - change (quantize (inject_Z (2 * 1 + 1) / inject_Z 4)) with 191. lia.
Qed.

(** ** The statements about [compute_equalized_tiles] *)





(** The rounding of the single operations shows in the result: with the
    weight [3/5] and the LUT entries 0 and 25 the blend is 10 in the
    rationals, in single precision it is [9.999999] and 9 is stored. *)
Lemma single_precision_blend_below_exact :
  to_long (mix_long (3 # 5) 0 25) = 9 /\
  to_long (exact_blend (3 # 5) (inject_Z 0) (inject_Z 25)) = 10.
Proof. split; vm_compute; reflexivity. Qed.

(** C5. At every corner query tile the output is the LUT of the parent
    statistics tile [(j//2, i//2)] applied to the quantized pixel, without
    blending; with a grid of one row and one column every query tile is a
    corner and the whole output is the single LUT applied to every
    pixel. *)
Theorem corner_tiles_single_lut (interp : tensor Q) (luts : tensor Z)
  (B GH GW C L th tw : Z) :
  well_formed interp luts B GH GW C th tw L ->
  exists out,
    compute_equalized_tiles interp luts = Ok out /\
    shape out = shape interp /\
    (forall im j i ch y x,
        in_bounds [im; j; i; ch; y; x] (shape interp) ->
        i = 0 \/ i = 2 * GW - 1 -> j = 0 \/ j = 2 * GH - 1 ->
        item out [im; j; i; ch; y; x] =
        item luts [im; j / 2; i / 2; ch; quantize (item interp [im; j; i; ch; y; x])]) /\
    (GH = 1 -> GW = 1 ->
     forall im j i ch y x,
        in_bounds [im; j; i; ch; y; x] (shape interp) ->
        (i = 0 \/ i = 2 * GW - 1) /\ (j = 0 \/ j = 2 * GH - 1) /\
        item out [im; j; i; ch; y; x] =
        item luts [im; 0; 0; ch; quantize (item interp [im; j; i; ch; y; x])]).
Proof.
  intros Hwf.
  destruct (compute_equalized_tiles_spec luts interp B GH GW C L th tw Hwf)
    as (out & Hout & Hs & Hi).
  exists out. split; [exact Hout|]. split; [exact Hs|].
  assert (Hcorner : forall im j i ch y x,
             in_bounds [im; j; i; ch; y; x] (shape interp) ->
             i = 0 \/ i = 2 * GW - 1 -> j = 0 \/ j = 2 * GH - 1 ->
             item out [im; j; i; ch; y; x] =
             item luts [im; j / 2; i / 2; ch;
                        quantize (item interp [im; j; i; ch; y; x])]).
  { intros im j i ch y x Hin Hei Hej.
    rewrite (Hi im j i ch y x Hin). unfold expected_value.
    assert (Ei : (i =? 0) || (i =? 2 * GW - 1) = true).
    { rewrite orb_true_iff, !Z.eqb_eq. exact Hei. }
    assert (Ej : (j =? 0) || (j =? 2 * GH - 1) = true).
    { rewrite orb_true_iff, !Z.eqb_eq. exact Hej. }
    rewrite Ei, Ej. reflexivity. }
  split; [exact Hcorner|].
  intros -> -> im j i ch y x Hin.
  pose proof Hin as Hin'. rewrite (wf_interp _ _ _ _ _ _ _ _ _ Hwf) in Hin'.
  destruct Hin' as (_ & Hj & Hi' & _).
  assert (Hei : i = 0 \/ i = 2 * 1 - 1) by lia.
  assert (Hej : j = 0 \/ j = 2 * 1 - 1) by lia.
  split; [exact Hei|]. split; [exact Hej|].
  rewrite (Hcorner im j i ch y x Hin Hei Hej).
  assert (Ej : j / 2 = 0) by (apply Z.div_small; lia).
  assert (Ei : i / 2 = 0) by (apply Z.div_small; lia).
  rewrite Ej, Ei. reflexivity.
Qed.

Lemma corner_tiles_single_lut_witness :
  exists out,
    compute_equalized_tiles single_grid_query_tiles single_grid_luts = Ok out /\
    item out [0; 1; 0; 0; 0; 0] =
    item single_grid_luts
         [0; 0; 0; 0; quantize (item single_grid_query_tiles [0; 1; 0; 0; 0; 0])].
Proof.
  destruct (corner_tiles_single_lut single_grid_query_tiles single_grid_luts
              1 1 1 1 256 1 1 single_grid_well_formed)
    as (out & Hout & _ & _ & Hall).
  exists out. split; [exact Hout|].
  apply (Hall eq_refl eq_refl 0 1 0 0 0 0). cbn. lia.
Defined.

(** C10. When every pixel lies in [[0, 1]] the quantization is
    [floor(v * 255)], an index of a 256-entry table, and every lookup of
    [compute_equalized_tiles] is within bounds: the function returns.  A
    pixel value outside [[0, 1]] can make a lookup fail. *)
Theorem quantized_lookups_in_bounds (interp : tensor Q) (luts : tensor Z)
  (B GH GW C th tw : Z) :
  shape interp = [B; 2 * GH; 2 * GW; C; th; tw] ->
  shape luts = [B; GH; GW; C; 256] ->
  0 < th -> 0 < tw ->
  (forall idx, in_bounds idx (shape interp) ->
               (0 <= item interp idx)%Q /\ (item interp idx <= 1)%Q) ->
  (forall idx, in_bounds idx (shape interp) ->
               quantize (item interp idx) = Qfloor (item interp idx * inject_Z 255) /\
               0 <= quantize (item interp idx) <= 255) /\
  (exists out, compute_equalized_tiles interp luts = Ok out /\
               shape out = shape interp) /\
  compute_equalized_tiles overexposed_query_tiles single_grid_luts
    = Raise RuntimeError.
Proof.
  intros Hsi Hsl Hth Htw Hpx.
  assert (Hq : forall idx, in_bounds idx (shape interp) ->
               quantize (item interp idx) = Qfloor (item interp idx * inject_Z 255) /\
               0 <= quantize (item interp idx) <= 255).
  { intros idx Hin. destruct (Hpx idx Hin). now apply quantize_unit. }
  split; [exact Hq|]. split.
  - assert (Hwf : well_formed interp luts B GH GW C th tw 256).
    { constructor; try assumption. intros idx Hin.
      destruct (Hq idx Hin) as [_ H]. lia. }
    destruct (compute_equalized_tiles_spec luts interp B GH GW C 256 th tw Hwf)
      as (out & Hout & Hs & _).
    exists out. split; assumption.
  - vm_compute. reflexivity.
Qed.

Lemma quantized_lookups_in_bounds_witness :
  exists out,
    compute_equalized_tiles single_grid_query_tiles single_grid_luts = Ok out /\
    shape out = shape single_grid_query_tiles.
Proof.
  apply (quantized_lookups_in_bounds single_grid_query_tiles single_grid_luts
           1 1 1 1 1 1); try reflexivity; try lia.
  intros idx H. apply in_bounds6 in H.
  destruct H as (a & j & i & d & e & f & -> & _ & Hj & Hi & _).
  assert (Ej : j = 0 \/ j = 1) by lia. assert (Ei : i = 0 \/ i = 1) by lia.
  destruct Ej as [-> | ->]; destruct Ei as [-> | ->]; vm_compute;
    split; intros H; discriminate H.
Defined.

(** * Further properties of the tiling functions *)

Lemma to_bchw_4d {A : Type} (imgs : tensor A) (b c h w : Z) :
  shape imgs = [b; c; h; w] -> _to_bchw imgs = Ok imgs.
Proof. intros H. unfold _to_bchw, ndim. rewrite H. reflexivity. Qed.

Lemma reflect_in_range (n pad y : Z) :
  pad < n -> 0 <= y < n + pad -> 0 <= reflect n y < n.
Proof.
  intros Hp Hy. unfold reflect. destruct (Z.ltb_spec y n); lia.
Qed.

Lemma reflect_id (n y : Z) : y < n -> reflect n y = y.
Proof. intros H. unfold reflect. destruct (Z.ltb_spec y n); lia. Qed.

Lemma pad_reflect_ok {A : Type} (t : tensor A) (b c h w pr pb : Z) :
  shape t = [b; c; h; w] ->
  pr < w -> pb < h -> 0 < h + pb -> 0 < w + pr ->
  exists r, pad_reflect t pr pb = Ok r /\
            shape r = [b; c; h + pb; w + pr] /\
            forall ib ic y x,
              item r [ib; ic; y; x] = item t [ib; ic; reflect h y; reflect w x].
Proof.
  intros Hs Hr Hb Hh Hw. unfold pad_reflect. rewrite Hs.
  destruct (Z.ltb_spec pr w); [|lia]. destruct (Z.ltb_spec pb h); [|lia].
  destruct (Z.leb_spec 1 (h + pb)); [|lia]. destruct (Z.leb_spec 1 (w + pr)); [|lia].
  cbn [andb]. eexists. split; [reflexivity|]. split; reflexivity.
Qed.

Lemma pad_reflect_inv {A : Type} (t r : tensor A) (b c h w pr pb : Z) :
  shape t = [b; c; h; w] ->
  pad_reflect t pr pb = Ok r ->
  pr < w /\ pb < h /\
  shape r = [b; c; h + pb; w + pr] /\
  forall ib ic y x,
    item r [ib; ic; y; x] = item t [ib; ic; reflect h y; reflect w x].
Proof.
  intros Hs. unfold pad_reflect. rewrite Hs.
  destruct (Z.ltb_spec pr w); [|discriminate].
  destruct (Z.ltb_spec pb h); [|discriminate].
  destruct (Z.leb_spec 1 (h + pb)); [|discriminate].
  destruct (Z.leb_spec 1 (w + pr)); [|discriminate].
  cbn [andb]. intros [= <-]. repeat split; assumption.
Qed.

Lemma tile_geometry_kernel_pos (h w gr gc : Z) (even : bool) (g : geometry) :
  tile_geometry h w (gr, gc) even = Ok g ->
  0 < gr -> 0 < gc -> 0 < h -> 0 < w ->
  0 < kernel_vert g /\ 0 < kernel_horz g /\
  (even = true -> kernel_vert g mod 2 = 0 /\ kernel_horz g mod 2 = 0).
Proof.
  intros Hg Hgr Hgc Hh Hw.
  unfold tile_geometry in Hg. cbn [fst snd] in Hg.
  destruct (ceil_div_pos h gr Hgr) as (cv & Ecv & [Hcv1 Hcv2]).
  destruct (ceil_div_pos w gc Hgc) as (ch & Ech & [Hch1 Hch2]).
  rewrite Ecv, Ech in Hg. cbn [bind] in Hg. injection Hg as <-.
  cbn [kernel_vert kernel_horz].
  assert (Hb : forall k, 0 < k -> 0 < bump_even k /\ bump_even k mod 2 = 0).
  { intros k Hk. unfold bump_even.
    destruct (Z.eqb_spec (k mod 2) 0) as [E|E].
    - rewrite Z.add_0_r. split; assumption.
    - split; [lia|].
      pose proof (Z.mod_pos_bound k 2 ltac:(lia)).
      rewrite <- Zplus_mod_idemp_l.
      replace (k mod 2) with 1 by lia. reflexivity. }
  assert (0 < cv) by nia. assert (0 < ch) by nia.
  destruct (Hb cv ltac:(assumption)) as [Hv1 Hv2].
  destruct (Hb ch ltac:(assumption)) as [Hh1 Hh2].
  destruct even; repeat split; try assumption; try discriminate.
Qed.

(** What [compute_tiles] returns on a 4-D image, when it returns. *)
Lemma compute_tiles_inv_image {A : Type} (imgs tiles batch : tensor A)
  (b c h w gr gc : Z) (even : bool) :
  shape imgs = [b; c; h; w] ->
  compute_tiles imgs (gr, gc) even = Ok (tiles, batch) ->
  exists g,
    tile_geometry h w (gr, gc) even = Ok g /\
    0 < gr /\ 0 < gc /\ 0 < c /\ 0 < kernel_vert g /\ 0 < kernel_horz g /\
    0 <= pad_vert g /\ 0 <= pad_horz g /\
    shape batch = [b; c; h + pad_vert g; w + pad_horz g] /\
    h + pad_vert g = kernel_vert g * gr /\
    w + pad_horz g = kernel_horz g * gc /\
    (forall ib ic y x, y < h -> x < w ->
                       item batch [ib; ic; y; x] = item imgs [ib; ic; y; x]) /\
    (0 < pad_vert g \/ 0 < pad_horz g ->
     pad_vert g < h /\ pad_horz g < w /\
     forall ib ic y x,
       item batch [ib; ic; y; x] = item imgs [ib; ic; reflect h y; reflect w x]) /\
    extract_tiles batch (kernel_vert g) (kernel_horz g) (gr, gc) = Ok tiles.
Proof.
  intros Hs H.
  destruct (compute_tiles_inv _ _ _ _ _ _ H)
    as (b' & c' & kv & kh & Hsb & Hc & Hkv & Hkh & Hgr & Hgc & Hex).
  unfold compute_tiles in H. rewrite (to_bchw_4d imgs b c h w Hs) in H.
  cbn [bind] in H. unfold size in H at 1 2. rewrite Hs in H. cbn [nth] in H.
  inv_ok H. rename a into g. exists g. split; [exact Ha|].
  pose proof (tile_geometry_inv _ _ _ _ _ _ Ha)
    as (_ & _ & Hpv & Hph & Hpv0 & Hph0 & _ & _).
  specialize (Hpv0 Hgr). specialize (Hph0 Hgc).
  inv_ok Hk. rename a into batch1. inv_ok Hk0. injection Hk as <- <-.
  assert (Hb1 :
    shape batch1 = [b; c; h + pad_vert g; w + pad_horz g] /\
    (forall ib ic y x, y < h -> x < w ->
                       item batch1 [ib; ic; y; x] = item imgs [ib; ic; y; x]) /\
    (0 < pad_vert g \/ 0 < pad_horz g ->
     pad_vert g < h /\ pad_horz g < w /\
     forall ib ic y x,
       item batch1 [ib; ic; y; x] = item imgs [ib; ic; reflect h y; reflect w x])).
  { destruct ((0 <? pad_vert g) || (0 <? pad_horz g)) eqn:Ep.
    - destruct (pad_reflect_inv _ _ _ _ _ _ _ _ Hs Ha0) as (Hr & Hb & Hsh & Hit).
      split; [exact Hsh|]. split.
      + intros ib ic y x Hy Hx. rewrite Hit, !reflect_id by assumption. reflexivity.
      + intros _. repeat split; assumption.
    - injection Ha0 as <-. apply orb_false_iff in Ep. destruct Ep as [E1 E2].
      apply Z.ltb_ge in E1, E2.
      replace (pad_vert g) with 0 by lia. replace (pad_horz g) with 0 by lia.
      rewrite !Z.add_0_r. split; [exact Hs|]. split; [reflexivity|].
      intros [?|?]; lia. }
  destruct Hb1 as (Hsh1 & Hkeep & Hrefl).
  destruct (extract_tiles_inv _ _ _ _ _ _ _ _ _ _ Hsh1 Ha1)
    as (Hc' & Hkv' & Hkh' & _).
  repeat split; try lia; try assumption; apply Hrefl; assumption.
Qed.

(** X1. When [compute_tiles] returns, the tiles are a partition of the
    padded image: element [(y, x)] of tile [(gj, gi)] is the pixel
    [(gj * TH + y, gi * TW + x)] of the padded image. *)
Theorem tiles_partition_padded_image {A : Type} (imgs tiles batch : tensor A)
  (gr gc : Z) (even_tile_size : bool) :
  compute_tiles imgs (gr, gc) even_tile_size = Ok (tiles, batch) ->
  exists b c th tw,
    0 < th /\ 0 < tw /\
    shape batch = [b; c; th * gr; tw * gc] /\
    shape tiles = [b; gr; gc; c; th; tw] /\
    forall ib gj gi ic y x,
      item tiles [ib; gj; gi; ic; y; x] =
      item batch [ib; ic; gj * th + y; gi * tw + x].
Proof.
  intros H.
  destruct (compute_tiles_inv _ _ _ _ _ _ H)
    as (b & c & kv & kh & Hsb & Hc & Hkv & Hkh & Hgr & Hgc & Hex).
  destruct (extract_tiles_inv _ _ _ _ _ _ _ _ _ _ Hsb Hex)
    as (_ & _ & _ & _ & _ & Hst & Hit).
  exists b, c, kv, kh. repeat split; assumption.
Qed.

Lemma compute_tiles_ok {A : Type} (imgs : tensor A)
  (b c h w gr gc : Z) (even_tile_size : bool) (g : geometry) :
  shape imgs = [b; c; h; w] ->
  0 < c -> 0 < h -> 0 < w -> 0 < gr -> 0 < gc ->
  tile_geometry h w (gr, gc) even_tile_size = Ok g ->
  pad_vert g < h -> pad_horz g < w ->
  exists tiles batch,
    compute_tiles imgs (gr, gc) even_tile_size = Ok (tiles, batch) /\
    shape batch = [b; c; kernel_vert g * gr; kernel_horz g * gc] /\
    shape tiles = [b; gr; gc; c; kernel_vert g; kernel_horz g] /\
    (forall ib ic y x, 0 <= y < h -> 0 <= x < w ->
                       item batch [ib; ic; y; x] = item imgs [ib; ic; y; x]) /\
    (forall ib ic y x,
        0 <= y < kernel_vert g * gr -> 0 <= x < kernel_horz g * gc ->
        0 <= reflect h y < h /\ 0 <= reflect w x < w /\
        item batch [ib; ic; y; x] = item imgs [ib; ic; reflect h y; reflect w x]).
Proof.
  intros Hs Hc Hh Hw Hgr Hgc Hg Hpv Hph.
  destruct (tile_geometry_kernel_pos _ _ _ _ _ _ Hg Hgr Hgc Hh Hw) as (Hkv & Hkh & _).
  pose proof (tile_geometry_inv _ _ _ _ _ _ Hg)
    as (_ & _ & Epv & Eph & Hpv0 & Hph0 & _ & _).
  specialize (Hpv0 Hgr). specialize (Hph0 Hgc).
  assert (Hbatch : exists batch,
    (if (0 <? pad_vert g) || (0 <? pad_horz g)
     then pad_reflect imgs (pad_horz g) (pad_vert g) else Ok imgs) = Ok batch /\
    shape batch = [b; c; kernel_vert g * gr; kernel_horz g * gc] /\
    forall ib ic y x,
      0 <= y < kernel_vert g * gr -> 0 <= x < kernel_horz g * gc ->
      item batch [ib; ic; y; x] = item imgs [ib; ic; reflect h y; reflect w x]).
  { destruct ((0 <? pad_vert g) || (0 <? pad_horz g)) eqn:Ep.
    - destruct (pad_reflect_ok imgs b c h w (pad_horz g) (pad_vert g) Hs)
        as (r & Hr & Hsr & Hir); try lia.
      exists r. split; [exact Hr|]. split.
      + rewrite Hsr. f_equal. f_equal. f_equal; [lia|]. f_equal. lia.
      + intros. apply Hir.
    - exists imgs. apply orb_false_iff in Ep. destruct Ep as [E1 E2].
      apply Z.ltb_ge in E1, E2. split; [reflexivity|]. split.
      + rewrite Hs. f_equal. f_equal. f_equal; [lia|]. f_equal. lia.
      + intros ib ic y x Hy Hx. rewrite !reflect_id by lia. reflexivity. }
  destruct Hbatch as (batch & Hb & Hsb & Hib).
  destruct (extract_tiles_exact batch b c (kernel_vert g) (kernel_horz g) gr gc)
    as (tiles & Hex); try assumption.
  destruct (extract_tiles_inv _ _ _ _ _ _ _ _ _ _ Hsb Hex)
    as (_ & _ & _ & _ & _ & Hst & _).
  exists tiles, batch. split.
  - unfold compute_tiles. rewrite (to_bchw_4d imgs b c h w Hs). cbn [bind].
    unfold size at 1 2. rewrite Hs. cbn [nth]. rewrite Hg. cbn [bind].
    rewrite Hb. cbn [bind]. rewrite Hex. reflexivity.
  - split; [exact Hsb|]. split; [exact Hst|]. split.
    + intros ib ic y x Hy Hx. rewrite Hib by lia.
      rewrite !reflect_id by lia. reflexivity.
    + intros ib ic y x Hy Hx.
      split; [apply (reflect_in_range h (pad_vert g)); lia|].
      split; [apply (reflect_in_range w (pad_horz g)); lia|].
      apply Hib; assumption.
Qed.

(** X2. [compute_tiles] returns for every 4-D image with at least one
    channel and one pixel, a positive grid, and paddings smaller than the
    image.  The padded image has the size of the grid of tiles, it keeps
    every pixel of the image in place, and each of its pixels is the
    pixel of the image at the position reflected at the bottom and right
    edges. *)
Theorem compute_tiles_returns {A : Type} (imgs : tensor A)
  (b c h w gr gc : Z) (even_tile_size : bool) (g : geometry) :
  shape imgs = [b; c; h; w] ->
  0 < c -> 0 < h -> 0 < w -> 0 < gr -> 0 < gc ->
  tile_geometry h w (gr, gc) even_tile_size = Ok g ->
  pad_vert g < h -> pad_horz g < w ->
  exists tiles batch,
    compute_tiles imgs (gr, gc) even_tile_size = Ok (tiles, batch) /\
    shape batch = [b; c; kernel_vert g * gr; kernel_horz g * gc] /\
    shape tiles = [b; gr; gc; c; kernel_vert g; kernel_horz g] /\
    (forall ib ic y x, 0 <= y < h -> 0 <= x < w ->
                       item batch [ib; ic; y; x] = item imgs [ib; ic; y; x]) /\
    (forall ib ic y x,
        0 <= y < kernel_vert g * gr -> 0 <= x < kernel_horz g * gc ->
        0 <= reflect h y < h /\ 0 <= reflect w x < w /\
        item batch [ib; ic; y; x] = item imgs [ib; ic; reflect h y; reflect w x]).
Proof.
  intros. eapply compute_tiles_ok; eassumption.
Qed.

Lemma sample_geometry :
  tile_geometry 3 3 (2, 2) true =
  Ok {| kernel_vert := 2; kernel_horz := 2; pad_vert := 1; pad_horz := 1 |}.
Proof. reflexivity. Qed.

Lemma compute_tiles_returns_witness :
  exists tiles batch,
    compute_tiles sample_image (2, 2) true = Ok (tiles, batch) /\
    shape batch = [1; 1; 4; 4] /\ shape tiles = [1; 2; 2; 1; 2; 2].
Proof.
  destruct (compute_tiles_returns sample_image 1 1 3 3 2 2 true _
              eq_refl ltac:(lia) ltac:(lia) ltac:(lia) ltac:(lia) ltac:(lia)
              sample_geometry ltac:(cbn; lia) ltac:(cbn; lia))
    as (tiles & batch & H & Hb & Ht & _).
  exists tiles, batch. repeat split; assumption.
Defined.

Lemma sample_tiles :
  exists tiles batch,
    compute_tiles sample_image (2, 2) true = Ok (tiles, batch) /\
    shape batch = [1; 1; 4; 4] /\ shape tiles = [1; 2; 2; 1; 2; 2].
Proof.
  destruct (compute_tiles_ok sample_image 1 1 3 3 2 2 true _
              eq_refl ltac:(lia) ltac:(lia) ltac:(lia) ltac:(lia) ltac:(lia)
              sample_geometry ltac:(cbn; lia) ltac:(cbn; lia))
    as (tiles & batch & H & Hb & Ht & _).
  exists tiles, batch. repeat split; assumption.
Qed.

Lemma tiles_partition_padded_image_witness :
  exists tiles batch b c th tw,
    compute_tiles sample_image (2, 2) true = Ok (tiles, batch) /\
    shape tiles = [b; 2; 2; c; th; tw] /\
    forall ib gj gi ic y x,
      item tiles [ib; gj; gi; ic; y; x] =
      item batch [ib; ic; gj * th + y; gi * tw + x].
Proof.
  destruct sample_tiles as (tiles & batch & H & _).
  destruct (tiles_partition_padded_image sample_image tiles batch 2 2 true H)
    as (b & c & th & tw & _ & _ & _ & Hs & Hi).
  exists tiles, batch, b, c, th, tw. repeat split; assumption.
Defined.

(** X3. [compute_tiles] fails with torch's [RuntimeError] when the grid
    needs a padding that is not smaller than the image (reflection cannot
    produce it). *)
Theorem compute_tiles_padding_too_large {A : Type} (imgs : tensor A)
  (b c h w gr gc : Z) (even_tile_size : bool) (g : geometry) :
  shape imgs = [b; c; h; w] ->
  tile_geometry h w (gr, gc) even_tile_size = Ok g ->
  0 < pad_vert g \/ 0 < pad_horz g ->
  h <= pad_vert g \/ w <= pad_horz g ->
  compute_tiles imgs (gr, gc) even_tile_size = Raise RuntimeError.
Proof.
  intros Hs Hg Hpos Hbig. unfold compute_tiles.
  rewrite (to_bchw_4d imgs b c h w Hs). cbn [bind].
  unfold size at 1 2. rewrite Hs. cbn [nth]. rewrite Hg. cbn [bind].
  assert (E : (0 <? pad_vert g) || (0 <? pad_horz g) = true).
  { apply orb_true_iff. rewrite !Z.ltb_lt. exact Hpos. }
  rewrite E. unfold pad_reflect. rewrite Hs.
  destruct (Z.ltb_spec (pad_horz g) w); destruct (Z.ltb_spec (pad_vert g) h);
    cbn [andb bind]; try reflexivity. lia.
Qed.

Lemma compute_tiles_padding_too_large_witness :
  compute_tiles sample_image (3, 3) true = Raise RuntimeError.
Proof.
  apply (compute_tiles_padding_too_large sample_image 1 1 3 3 3 3 true
           {| kernel_vert := 2; kernel_horz := 2; pad_vert := 3; pad_horz := 3 |});
    [reflexivity | reflexivity | cbn; lia | cbn; lia].
Defined.

(** ** Query tiles *)

Lemma half_double (n : Z) : 2 * n / 2 = n.
Proof. rewrite Z.mul_comm. apply Z.div_mul. lia. Qed.

(** What [compute_interpolation_tiles] returns, when it returns. *)
Lemma interpolation_tiles_inv {A : Type} (padded interp : tensor A) (th tw : Z) :
  compute_interpolation_tiles padded (th, tw) = Ok interp ->
  exists b c H W hh hw,
    shape padded = [b; c; H; W] /\
    th = 2 * hh /\ tw = 2 * hw /\ 0 < hh /\ 0 < hw /\ 0 < c /\
    0 < H /\ 0 < W /\ H mod th = 0 /\ W mod tw = 0 /\
    shape interp = [b; (H - hh) / hh + 1; (W - hw) / hw + 1; c; hh; hw] /\
    forall ib j i ic y x,
      item interp [ib; j; i; ic; y; x] =
      item padded [ib; ic; j * hh + y; i * hw + x].
Proof.
  intros H. unfold compute_interpolation_tiles in H. cbn [fst snd] in H.
  inv_ok H. apply assert_ok_inv in Ha. apply Nat.eqb_eq in Ha.
  destruct (shape_of_ndim4 _ Ha) as (b & c & Hh & Ww & Hs).
  unfold size in Hk. rewrite Hs in Hk. cbn [nth] in Hk.
  unfold py_mod in Hk.
  destruct (Z.eqb_spec th 0) as [|Hth]; [discriminate|]. cbn [bind] in Hk.
  inv_ok Hk. apply assert_ok_inv in Ha0. apply Z.eqb_eq in Ha0.
  destruct (Z.eqb_spec tw 0) as [|Htw]; [discriminate|]. cbn [bind] in Hk0.
  inv_ok Hk0. apply assert_ok_inv in Ha1. apply Z.eqb_eq in Ha1.
  inv_ok Hk. apply unfold_ok_inv in Ha2. destruct Ha2 as (_ & _ & Hc & ->).
  inv_ok Hk0. apply unfold_ok_inv in Ha2. destruct Ha2 as (_ & Hkv1 & Hkv & ->).
  inv_ok Hk. apply unfold_ok_inv in Ha2. destruct Ha2 as (_ & Hkh1 & Hkh & ->).
  unfold size in *. rewrite Hs in *. cbn [shape nth set_nth app] in *.
  rewrite Z.sub_diag, Z.div_0_l in Hk0 by lia.
  unfold squeeze, ndim, size in Hk0.
  cbn [shape nth set_nth app List.length Nat.ltb Nat.leb andb Z.add Z.eqb Pos.eqb
         remove_nth] in Hk0.
  unfold size_from_end, ndim in Hk0.
  cbn [shape List.length Nat.leb andb Nat.sub nth bind] in Hk0.
  inv_ok Hk0. apply assert_ok_inv in Ha2.
  inv_ok Hk. apply assert_ok_inv in Ha3. apply Z.eqb_eq in Ha3.
  inv_ok Hk0. apply assert_ok_inv in Ha4. apply Z.eqb_eq in Ha4.
  injection Hk as <-.
  exists b, c, Hh, Ww, (th / 2), (tw / 2).
  repeat split; try lia; try assumption.
Qed.

Lemma multiple_windows (n k : Z) :
  0 < k -> 0 < n -> n mod (2 * k) = 0 ->
  exists m, 0 < m /\ n = k * (2 * m) /\ (n - k) / k + 1 = 2 * m.
Proof.
  intros Hk Hn Hm.
  pose proof (Z.div_mod n (2 * k) ltac:(lia)) as E. rewrite Hm in E.
  exists (n / (2 * k)).
  assert (0 < n / (2 * k)) by nia.
  split; [assumption|]. split; [lia|].
  replace (n - k) with ((2 * (n / (2 * k)) - 1) * k) by lia.
  rewrite Z.div_mul by lia. lia.
Qed.

(** [compute_interpolation_tiles] on an exact grid of even tiles. *)
Lemma interpolation_tiles_ok {A : Type} (padded : tensor A)
  (b c hh hw GH GW : Z) :
  shape padded = [b; c; 2 * hh * GH; 2 * hw * GW] ->
  0 < c -> 0 < hh -> 0 < hw -> 0 < GH -> 0 < GW ->
  exists interp,
    compute_interpolation_tiles padded (2 * hh, 2 * hw) = Ok interp /\
    shape interp = [b; 2 * GH; 2 * GW; c; hh; hw] /\
    forall ib j i ic y x,
      item interp [ib; j; i; ic; y; x] =
      item padded [ib; ic; j * hh + y; i * hw + x].
Proof.
  intros Hs Hc Hhh Hhw HGH HGW.
  destruct padded as [sh it]. cbn [shape] in Hs. subst sh.
  unfold compute_interpolation_tiles, ndim, size.
  cbn [shape List.length Nat.eqb assert bind fst snd nth]. unfold py_mod.
  destruct (Z.eqb_spec (2 * hh) 0); [lia|].
  destruct (Z.eqb_spec (2 * hw) 0); [lia|]. cbn [bind].
  replace (2 * hh * GH) with (GH * (2 * hh)) by lia.
  replace (2 * hw * GW) with (GW * (2 * hw)) by lia.
  rewrite !Z.mod_mul by lia. cbn [Z.eqb assert bind].
  rewrite !half_double.
  rewrite unfold_ok by (tcbn; lia). cbn [bind].
  rewrite unfold_ok by (tcbn; nia). cbn [bind].
  rewrite unfold_ok by (tcbn; nia).
  cbn [bind size shape nth set_nth app].
  rewrite Z.sub_diag, Z.div_0_l by lia.
  replace (GH * (2 * hh)) with (hh * (2 * GH)) by lia.
  replace (GW * (2 * hw)) with (hw * (2 * GW)) by lia.
  rewrite !windows_exact by lia.
  unfold squeeze, ndim, size.
  cbn [shape nth set_nth app List.length Nat.ltb Nat.leb andb Z.add Z.eqb Pos.eqb
         remove_nth].
  unfold size_from_end, ndim.
  cbn [shape List.length Nat.leb andb Nat.sub nth bind fst snd].
  rewrite !Z.eqb_refl. cbn [assert bind].
  eexists. split; [reflexivity|]. split; reflexivity.
Qed.

(** X4. [compute_interpolation_tiles] returns on every padded image that
    is a [GH x GW] grid of tiles of even size [2 hh x 2 hw]: the result
    has [2 GH x 2 GW] query tiles of size [hh x hw], and element [(y, x)]
    of query tile [(j, i)] is the pixel [(j * hh + y, i * hw + x)]. *)
Theorem interpolation_tiles_returns {A : Type} (padded : tensor A)
  (b c hh hw GH GW : Z) :
  shape padded = [b; c; 2 * hh * GH; 2 * hw * GW] ->
  0 < c -> 0 < hh -> 0 < hw -> 0 < GH -> 0 < GW ->
  exists interp,
    compute_interpolation_tiles padded (2 * hh, 2 * hw) = Ok interp /\
    shape interp = [b; 2 * GH; 2 * GW; c; hh; hw] /\
    forall ib j i ic y x,
      item interp [ib; j; i; ic; y; x] =
      item padded [ib; ic; j * hh + y; i * hw + x].
Proof. apply interpolation_tiles_ok. Qed.

Lemma interpolation_tiles_returns_witness :
  exists interp,
    compute_interpolation_tiles even_batch (2, 2) = Ok interp /\
    shape interp = [1; 4; 4; 1; 1; 1].
Proof.
  destruct (interpolation_tiles_returns even_batch 1 1 1 1 2 2
              eq_refl ltac:(lia) ltac:(lia) ltac:(lia) ltac:(lia) ltac:(lia))
    as (interp & H & Hs & _).
  exists interp. split; [exact H | exact Hs].
Defined.

(** X5. [compute_interpolation_tiles] returns only for a 4-D padded image
    and a tile size that is even in both directions and divides the
    height and the width of the image; for an odd tile size it always
    fails. *)
Theorem interpolation_tiles_need_even_tiles {A : Type} (padded interp : tensor A)
  (th tw : Z) :
  compute_interpolation_tiles padded (th, tw) = Ok interp ->
  ndim padded = 4%nat /\
  th mod 2 = 0 /\ tw mod 2 = 0 /\ 0 < th /\ 0 < tw /\
  size padded 2 mod th = 0 /\ size padded 3 mod tw = 0.
Proof.
  intros H.
  destruct (interpolation_tiles_inv _ _ _ _ H)
    as (b & c & Hh & Ww & hh & hw & Hs & -> & -> & Hhh & Hhw & _ & _ & _ & Hm1 & Hm2 & _).
  unfold ndim, size. rewrite Hs. cbn [List.length nth].
  rewrite !(Z.mul_comm 2), !Z.mod_mul by lia.
  rewrite !(Z.mul_comm _ 2). repeat split; try lia; assumption.
Qed.

Lemma interpolation_tiles_need_even_tiles_witness :
  exists interp,
    compute_interpolation_tiles even_batch (2, 2) = Ok interp /\
    2 mod 2 = 0 /\ size even_batch 2 mod 2 = 0.
Proof.
  destruct (interpolation_tiles_ok even_batch 1 1 1 1 2 2
              eq_refl ltac:(lia) ltac:(lia) ltac:(lia) ltac:(lia) ltac:(lia))
    as (interp & H & _).
  exists interp. split; [exact H|].
  destruct (interpolation_tiles_need_even_tiles even_batch interp 2 2 H)
    as (_ & H1 & _ & _ & _ & H2 & _).
  split; assumption.
Defined.

(** Query tiles of the padded image returned by [compute_tiles]. *)
Lemma query_tiles_of_tiles {A : Type} (imgs tiles batch interp : tensor A)
  (gr gc b c th tw : Z) (even : bool) :
  compute_tiles imgs (gr, gc) even = Ok (tiles, batch) ->
  shape tiles = [b; gr; gc; c; th; tw] ->
  compute_interpolation_tiles batch (th, tw) = Ok interp ->
  exists hh hw,
    th = 2 * hh /\ tw = 2 * hw /\ 0 < hh /\ 0 < hw /\ 0 < gr /\ 0 < gc /\
    shape batch = [b; c; th * gr; tw * gc] /\
    shape interp = [b; 2 * gr; 2 * gc; c; hh; hw] /\
    (forall ib gj gi ic y x,
        item tiles [ib; gj; gi; ic; y; x] =
        item batch [ib; ic; gj * th + y; gi * tw + x]) /\
    (forall ib j i ic y x,
        item interp [ib; j; i; ic; y; x] =
        item batch [ib; ic; j * hh + y; i * hw + x]).
Proof.
  intros Hct Hst Hit.
  destruct (compute_tiles_inv _ _ _ _ _ _ Hct)
    as (b' & c' & kv & kh & Hsb & Hc & Hkv & Hkh & Hgr & Hgc & Hex).
  destruct (extract_tiles_inv _ _ _ _ _ _ _ _ _ _ Hsb Hex)
    as (_ & _ & _ & _ & _ & Hst' & Htiles).
  rewrite Hst in Hst'.
  assert (b' = b) by (apply (f_equal (fun l => nth 0 l 0)) in Hst'; cbn [nth] in Hst'; lia).
  assert (c' = c) by (apply (f_equal (fun l => nth 3 l 0)) in Hst'; cbn [nth] in Hst'; lia).
  assert (kv = th) by (apply (f_equal (fun l => nth 4 l 0)) in Hst'; cbn [nth] in Hst'; lia).
  assert (kh = tw) by (apply (f_equal (fun l => nth 5 l 0)) in Hst'; cbn [nth] in Hst'; lia).
  subst b' c' kv kh. clear Hst'.
  destruct (interpolation_tiles_inv _ _ _ _ Hit)
    as (b2 & c2 & Hh & Ww & hh & hw & Hs & -> & -> & Hhh & Hhw & _ & HH & HW & _ & _
        & Hsi & Hii).
  rewrite Hsb in Hs.
  assert (Eb : b2 = b) by (apply (f_equal (fun l => nth 0 l 0)) in Hs; cbn [nth] in Hs; lia).
  assert (Ec : c2 = c) by (apply (f_equal (fun l => nth 1 l 0)) in Hs; cbn [nth] in Hs; lia).
  assert (EH : Hh = 2 * hh * gr)
    by (apply (f_equal (fun l => nth 2 l 0)) in Hs; cbn [nth] in Hs; lia).
  assert (EW : Ww = 2 * hw * gc)
    by (apply (f_equal (fun l => nth 3 l 0)) in Hs; cbn [nth] in Hs; lia).
  subst b2 c2 Hh Ww. clear Hs.
  assert (E1 : (2 * hh * gr - hh) / hh + 1 = 2 * gr).
  { replace (2 * hh * gr - hh) with ((2 * gr - 1) * hh) by lia.
    rewrite Z.div_mul by lia. lia. }
  assert (E2 : (2 * hw * gc - hw) / hw + 1 = 2 * gc).
  { replace (2 * hw * gc - hw) with ((2 * gc - 1) * hw) by lia.
    rewrite Z.div_mul by lia. lia. }
  rewrite E1, E2 in Hsi.
  exists hh, hw. repeat split; assumption.
Qed.

(** X6. The query tiles quarter the statistics tiles: query tile
    [(2 gj + p, 2 gi + q)] is the quadrant [(p, q)] of statistics tile
    [(gj, gi)]. *)
Theorem query_tiles_quarter_tiles {A : Type} (imgs tiles batch interp : tensor A)
  (gr gc b c th tw : Z) (even_tile_size : bool) :
  compute_tiles imgs (gr, gc) even_tile_size = Ok (tiles, batch) ->
  shape tiles = [b; gr; gc; c; th; tw] ->
  compute_interpolation_tiles batch (th, tw) = Ok interp ->
  shape interp = [b; 2 * gr; 2 * gc; c; th / 2; tw / 2] /\
  forall ib gj gi ic p q y x,
    item interp [ib; 2 * gj + p; 2 * gi + q; ic; y; x] =
    item tiles [ib; gj; gi; ic; p * (th / 2) + y; q * (tw / 2) + x].
Proof.
  intros Hct Hst Hit.
  destruct (query_tiles_of_tiles _ _ _ _ _ _ _ _ _ _ _ Hct Hst Hit)
    as (hh & hw & -> & -> & Hhh & Hhw & _ & _ & _ & Hsi & Htiles & Hii).
  rewrite !half_double. split; [exact Hsi|].
  intros ib gj gi ic p q y x. rewrite Hii, Htiles.
  replace ((2 * gj + p) * hh + y) with (gj * (2 * hh) + (p * hh + y)) by lia.
  replace ((2 * gi + q) * hw + x) with (gi * (2 * hw) + (q * hw + x)) by lia.
  reflexivity.
Qed.

Lemma sample_query_tiles_exist :
  exists tiles batch interp,
    compute_tiles sample_image (2, 2) true = Ok (tiles, batch) /\
    shape tiles = [1; 2; 2; 1; 2; 2] /\
    compute_interpolation_tiles batch (2, 2) = Ok interp.
Proof.
  destruct sample_tiles as (tiles & batch & H & Hb & Ht).
  destruct (interpolation_tiles_ok batch 1 1 1 1 2 2
              Hb ltac:(lia) ltac:(lia) ltac:(lia) ltac:(lia) ltac:(lia))
    as (interp & Hi & _).
  exists tiles, batch, interp. repeat split; assumption.
Qed.

Lemma query_tiles_quarter_tiles_witness :
  exists tiles batch interp,
    compute_tiles sample_image (2, 2) true = Ok (tiles, batch) /\
    compute_interpolation_tiles batch (2, 2) = Ok interp /\
    shape interp = [1; 2 * 2; 2 * 2; 1; 2 / 2; 2 / 2] /\
    item interp [0; 2 * 1 + 1; 2 * 0 + 1; 0; 0; 0] =
    item tiles [0; 1; 0; 0; 1 * (2 / 2) + 0; 1 * (2 / 2) + 0].
Proof.
  destruct sample_query_tiles_exist as (tiles & batch & interp & H & Ht & Hi).
  destruct (query_tiles_quarter_tiles sample_image tiles batch interp
              2 2 1 1 2 2 true H Ht Hi) as (Hs & Hq).
  exists tiles, batch, interp. repeat split; try assumption. apply Hq.
Defined.

(** X7. Re-assembling the unmodified query tiles gives back the padded
    image. *)
Theorem query_tiles_roundtrip {A : Type} (padded interp : tensor A) (th tw : Z) :
  compute_interpolation_tiles padded (th, tw) = Ok interp ->
  exists p2, compose_tiles interp = Ok p2 /\ tensor_eq p2 padded.
Proof.
  intros H.
  destruct (interpolation_tiles_inv _ _ _ _ H)
    as (b & c & Hh & Ww & hh & hw & Hs & -> & -> & Hhh & Hhw & Hc & HH & HW
        & Hm1 & Hm2 & Hsi & Hii).
  destruct (multiple_windows Hh hh Hhh HH Hm1) as (m1 & Hm1p & EH & Ew1).
  destruct (multiple_windows Ww hw Hhw HW Hm2) as (m2 & Hm2p & EW & Ew2).
  rewrite Ew1, Ew2 in Hsi.
  destruct (compose_tiles_spec interp b c hh hw (2 * m1) (2 * m2) Hsi)
    as (p2 & Hp2 & Hs2 & Hi2); try lia.
  exists p2. split; [exact Hp2|]. split.
  - rewrite Hs2, Hs, EH, EW.
    replace (2 * m1 * hh) with (hh * (2 * m1)) by lia.
    replace (2 * m2 * hw) with (hw * (2 * m2)) by lia. reflexivity.
  - intros idx Hidx. rewrite Hs2 in Hidx. apply in_bounds4 in Hidx.
    destruct Hidx as (ib & ic & y & x & -> & _ & _ & Hy & Hx).
    rewrite Hi2, Hii by assumption.
    rewrite (Z.mul_comm (y / hh)), (Z.mul_comm (x / hw)).
    rewrite <- !Z.div_mod by lia. reflexivity.
Qed.

Lemma query_tiles_roundtrip_witness :
  exists interp p2,
    compute_interpolation_tiles even_batch (2, 2) = Ok interp /\
    compose_tiles interp = Ok p2 /\ tensor_eq p2 even_batch.
Proof.
  destruct (interpolation_tiles_ok even_batch 1 1 1 1 2 2
              eq_refl ltac:(lia) ltac:(lia) ltac:(lia) ltac:(lia) ltac:(lia))
    as (interp & H & _).
  destruct (query_tiles_roundtrip even_batch interp 2 2 H) as (p2 & Hp & He).
  exists interp, p2. split; [exact H|]. split; assumption.
Defined.

(** ** Crop *)

Lemma crop_4d {A : Type} (p2 : tensor A) (b c H W h w : Z) :
  shape p2 = [b; c; H; W] -> 0 <= h <= H -> 0 <= w <= W ->
  crop p2 h w = Ok (mkTensor [b; c; h; w] (item p2)).
Proof.
  intros Hs Hh Hw. unfold crop, ndim, size, slice_end. rewrite Hs.
  cbn [List.length Nat.ltb Nat.leb Nat.sub firstn app nth].
  destruct (Z.ltb_spec h 0); [lia|]. destruct (Z.ltb_spec w 0); [lia|].
  rewrite !Z.min_l by lia. reflexivity.
Qed.

(** X8. Cutting an image into tiles, re-assembling the unmodified tiles
    and cropping to the size of the image gives back the image. *)
Theorem tiles_compose_crop_identity {A : Type} (imgs tiles batch : tensor A)
  (b c h w gr gc : Z) (even_tile_size : bool) :
  shape imgs = [b; c; h; w] -> 0 <= h -> 0 <= w ->
  compute_tiles imgs (gr, gc) even_tile_size = Ok (tiles, batch) ->
  exists p2 r,
    compose_tiles tiles = Ok p2 /\ crop p2 h w = Ok r /\ tensor_eq r imgs.
Proof.
  intros Hs Hh Hw Hct.
  destruct (compute_tiles_inv_image _ _ _ _ _ _ _ _ _ _ Hs Hct)
    as (g & Hg & Hgr & Hgc & Hc & Hkv & Hkh & Hpv & Hph & Hsb & Ev & Eh
        & Hkeep & _ & Hex).
  rewrite Ev, Eh in Hsb.
  destruct (padded_image_roundtrip batch b c (kernel_vert g) (kernel_horz g) gr gc)
    as (tiles' & p2 & Hex' & Hp2 & [Hs2 Hi2]); try assumption.
  rewrite Hex in Hex'. injection Hex' as <-.
  rewrite Hsb in Hs2.
  exists p2. eexists. split; [exact Hp2|]. split.
  - apply (crop_4d p2 b c _ _ h w Hs2); lia.
  - split; [cbn [shape]; now rewrite Hs|].
    cbn [shape item]. intros idx Hidx. apply in_bounds4 in Hidx.
    destruct Hidx as (ib & ic & y & x & -> & Hib & Hic & Hy & Hx).
    rewrite Hi2 by (rewrite Hs2; cbn; lia).
    apply Hkeep; lia.
Qed.

Lemma tiles_compose_crop_identity_witness :
  exists tiles batch p2 r,
    compute_tiles sample_image (2, 2) true = Ok (tiles, batch) /\
    compose_tiles tiles = Ok p2 /\ crop p2 3 3 = Ok r /\
    tensor_eq r sample_image.
Proof.
  destruct sample_tiles as (tiles & batch & H & _).
  destruct (tiles_compose_crop_identity sample_image tiles batch 1 1 3 3 2 2 true
              eq_refl ltac:(lia) ltac:(lia) H) as (p2 & r & H1 & H2 & H3).
  exists tiles, batch, p2, r. repeat split; try assumption; apply H3.
Defined.

(** * Further properties of the LUT builders *)

Lemma StronglySorted_nth_le (l : list Z) (i j : nat) :
  StronglySorted Z.le l -> (i <= j < List.length l)%nat ->
  nth i l 0 <= nth j l 0.
Proof.
  intros H. revert i j. induction H as [|x l Hs IH Hx]; intros i j Hij.
  - cbn in Hij. lia.
  - destruct i as [|i]; destruct j as [|j]; cbn [nth List.length] in *; try lia.
    + rewrite Forall_forall in Hx. apply Hx. apply nth_In. lia.
    + apply IH. lia.
Qed.

(** The contract of a LUT, element by element. *)
Lemma lut_contract_elements (l : list Z) :
  lut_contract l ->
  nth 0 l 0 = 0 /\
  (forall k, (k < 256)%nat -> 0 <= nth k l 0 <= 255) /\
  (forall k k', (k <= k' < 256)%nat -> nth k l 0 <= nth k' l 0).
Proof.
  intros (Hlen & Hall & H0 & Hs). split; [exact H0|]. split.
  - intros k Hk. rewrite Forall_forall in Hall. apply Hall, nth_In. lia.
  - intros k k' Hk. apply StronglySorted_nth_le; [exact Hs | lia].
Qed.

(** X9. [compute_luts] returns for every tile set with at least one
    image, grid cell and channel; each of its LUTs has entries in
    [[0, 255]], starts at zero and is non-decreasing. *)
Theorem compute_luts_contract (tiles_x_im : tensor Q) (b gh gw c th tw : Z) :
  shape tiles_x_im = [b; gh; gw; c; th; tw] ->
  0 < b -> 0 < gh -> 0 < gw -> 0 < c ->
  exists luts,
    compute_luts tiles_x_im = Ok luts /\
    shape luts = [b; gh; gw; c; 256] /\
    forall ib gj gi ic,
      item luts [ib; gj; gi; ic; 0] = 0 /\
      (forall k, 0 <= k < 256 -> 0 <= item luts [ib; gj; gi; ic; k] <= 255) /\
      (forall k k', 0 <= k <= k' -> k' < 256 ->
                    item luts [ib; gj; gi; ic; k] <= item luts [ib; gj; gi; ic; k']).
Proof.
  intros Hs Hb Hgh Hgw Hc. unfold compute_luts. rewrite Hs.
  destruct (Z.ltb_spec 0 b); [|lia]. destruct (Z.ltb_spec 0 gh); [|lia].
  destruct (Z.ltb_spec 0 gw); [|lia]. destruct (Z.ltb_spec 0 c); [|lia].
  cbn [andb]. eexists. split; [reflexivity|]. split; [reflexivity|].
  intros ib gj gi ic. cbn [item last removelast].
  destruct (lut_contract_elements _
              (lut_satisfies_contract (tile_pixels tiles_x_im [ib; gj; gi; ic])))
    as (Hz & Hr & Hm).
  split; [exact Hz|]. split.
  - intros k Hk. apply Hr. lia.
  - intros k k' Hk Hk'. apply Hm. lia.
Qed.

Lemma compute_luts_contract_witness :
  exists luts,
    compute_luts uniform_tiles = Ok luts /\
    shape luts = [1; 1; 1; 1; 256].
Proof.
  destruct (compute_luts_contract uniform_tiles 1 1 1 1 2 2
              eq_refl ltac:(lia) ltac:(lia) ltac:(lia) ltac:(lia))
    as (luts & H & Hs & _).
  exists luts. split; assumption.
Defined.

(** X10. [compute_luts_optim] returns for every tile set whose tiles have
    at least two pixels; each of its LUTs holds integers in [[0, 255]],
    starts at zero and is non-decreasing. *)
Theorem compute_luts_optim_contract (tiles_x_im : tensor Q) (b gh gw c th tw : Z) :
  shape tiles_x_im = [b; gh; gw; c; th; tw] ->
  2 <= th * tw ->
  exists luts,
    compute_luts_optim tiles_x_im = Ok luts /\
    shape luts = [b; gh; gw; c; 256] /\
    forall ib gj gi ic,
      exists l,
        nth 0 l 0 = 0 /\
        (forall k, (k < 256)%nat -> 0 <= nth k l 0 <= 255) /\
        (forall k k', (k <= k' < 256)%nat -> nth k l 0 <= nth k' l 0) /\
        forall k, 0 <= k < 256 ->
                  item luts [ib; gj; gi; ic; k] =
                  Finite (inject_Z (nth (Z.to_nat k) l 0)).
Proof.
  intros Hs Hp. unfold compute_luts_optim. rewrite Hs.
  destruct (Z.eqb_spec (th * tw) 0); [lia|].
  eexists. split; [reflexivity|]. split; [reflexivity|].
  intros ib gj gi ic. cbn [item last removelast].
  destruct (luts_optim_row_contract (th * tw)
              (tile_pixels tiles_x_im [ib; gj; gi; ic]) Hp) as (l & El & Hl).
  destruct (lut_contract_elements l Hl) as (Hz & Hr & Hm).
  exists l. repeat split; try assumption; try (apply Hr; assumption).
  intros k Hk. rewrite El.
  destruct Hl as (Hlen & _).
  rewrite (nth_indep _ NaN (Finite (inject_Z 0))) by (rewrite length_map; lia).
  apply (map_nth (fun z => Finite (inject_Z z))).
Qed.

Lemma compute_luts_optim_contract_witness :
  exists luts,
    compute_luts_optim uniform_tiles = Ok luts /\
    shape luts = [1; 1; 1; 1; 256].
Proof.
  destruct (compute_luts_optim_contract uniform_tiles 1 1 1 1 2 2
              eq_refl ltac:(lia)) as (luts & H & Hs & _).
  exists luts. split; assumption.
Defined.

Lemma map_constant {A B : Type} (f : A -> B) (v : B) (l : list A) :
  (forall a, In a l -> f a = v) -> map f l = repeat v (List.length l).
Proof.
  induction l as [|a l IH]; intros H; [reflexivity|].
  cbn [map List.length repeat]. rewrite (H a) by now left.
  f_equal. apply IH. intros; apply H; now right.
Qed.

Lemma nth_repeat_zero (n k : nat) : nth k (repeat 0 n) 0 = 0.
Proof.
  revert k. induction n as [|n IH]; intros [|k]; cbn; try reflexivity. apply IH.
Qed.

(** X11. [compute_luts] gives the all-zero LUT to every tile whose pixels
    all have the same value (the [step == 0] path). *)
Theorem compute_luts_uniform_tile (tiles_x_im : tensor Q) (luts : tensor Z)
  (b gh gw c th tw ib gj gi ic : Z) (v : Q) :
  shape tiles_x_im = [b; gh; gw; c; th; tw] ->
  compute_luts tiles_x_im = Ok luts ->
  (forall y x, 0 <= y < th -> 0 <= x < tw ->
               item tiles_x_im [ib; gj; gi; ic; y; x] = v) ->
  forall k, item luts [ib; gj; gi; ic; k] = 0.
Proof.
  intros Hs H Hv k. unfold compute_luts in H. rewrite Hs in H.
  destruct (_ && _); [|discriminate]. injection H as <-.
  cbn [item last removelast]. unfold tile_pixels. rewrite Hs. cbn [skipn].
  rewrite (map_constant _ v).
  - rewrite lut_uniform. apply nth_repeat_zero.
  - intros yx Hin. apply indices_in_bounds in Hin.
    destruct yx as [|y [|x [|? ?]]]; cbn in Hin; try tauto.
    cbn [app]. apply Hv; tauto.
Qed.

Lemma compute_luts_uniform_tile_witness :
  exists luts,
    compute_luts uniform_tiles = Ok luts /\
    forall k, item luts [0; 0; 0; 0; k] = 0.
Proof.
  eexists. split; [reflexivity|].
  apply (compute_luts_uniform_tile uniform_tiles _ 1 1 1 1 2 2 0 0 0 0 (1 # 2)%Q
           eq_refl eq_refl).
  intros y x _ _. reflexivity.
Defined.

(** ** Histograms *)

Lemma filter_length_perm {A : Type} (f : A -> bool) (l1 l2 : list A) :
  Permutation l1 l2 ->
  List.length (filter f l1) = List.length (filter f l2).
Proof.
  intros H. induction H as [|x l1 l2 H IH|x y l|l1 l2 l3 H1 IH1 H2 IH2].
  - reflexivity.
  - cbn [filter]. destruct (f x); cbn [List.length]; lia.
  - cbn [filter]. destruct (f x); destruct (f y); reflexivity.
  - lia.
Qed.

Lemma histc_perm (p1 p2 : list Q) : Permutation p1 p2 -> histc p1 = histc p2.
Proof.
  intros H. unfold histc. apply map_ext. intros k.
  now rewrite (filter_length_perm (in_bin k) p1 p2 H).
Qed.

(** X12. The LUT of a tile depends only on the values of its pixels, not
    on where they are in the tile: both builders give the same table to
    tiles whose pixels are a rearrangement of each other. *)
Theorem lut_permutation_invariant (p1 p2 : list Q) (pixels : Z) :
  Permutation p1 p2 ->
  lut p1 = lut p2 /\ luts_optim_row pixels p1 = luts_optim_row pixels p2.
Proof.
  intros H. unfold lut, luts_optim_row. now rewrite (histc_perm p1 p2 H).
Qed.

Lemma lut_permutation_invariant_witness :
  lut [(1 # 4)%Q; (3 # 4)%Q] = lut [(3 # 4)%Q; (1 # 4)%Q] /\
  luts_optim_row 2 [(1 # 4)%Q; (3 # 4)%Q] = luts_optim_row 2 [(3 # 4)%Q; (1 # 4)%Q].
Proof.
  apply (lut_permutation_invariant [(1 # 4)%Q; (3 # 4)%Q] [(3 # 4)%Q; (1 # 4)%Q] 2).
  apply perm_swap.
Defined.

Lemma sum_list_map_add {A : Type} (f g : A -> Z) (l : list A) :
  sum_list (map (fun a => f a + g a) l) = sum_list (map f l) + sum_list (map g l).
Proof.
  induction l as [|a l IH]; [reflexivity|].
  cbn [map sum_list fold_right] in *. unfold sum_list in *. lia.
Qed.

Lemma sum_indicator (b : Z) (m : nat) (a : Z) :
  sum_list (map (fun k => if b =? k then 1 else 0) (range_from a m)) =
  if (a <=? b) && (b <? a + Z.of_nat m) then 1 else 0.
Proof.
  revert a. induction m as [|m IH]; intros a.
  - cbn [range_from map sum_list fold_right].
    destruct (Z.leb_spec a b); destruct (Z.ltb_spec b (a + Z.of_nat 0));
      cbn; try reflexivity; lia.
  - cbn [range_from map sum_list fold_right].
    change (fold_right Z.add 0 ?l) with (sum_list l). rewrite IH.
    destruct (Z.eqb_spec b a) as [E|Hne];
      destruct (Z.leb_spec (a + 1) b); destruct (Z.leb_spec a b);
      destruct (Z.ltb_spec b (a + 1 + Z.of_nat m));
      destruct (Z.ltb_spec b (a + Z.of_nat (S m))); cbn; try reflexivity; lia.
Qed.

Lemma histc_bin_range (v : Q) (b : Z) : histc_bin v = Some b -> 0 <= b < 256.
Proof.
  unfold histc_bin.
  destruct (Qle_bool 0 v) eqn:E0; [|discriminate].
  destruct (Qle_bool v 1); [|discriminate]. cbn [andb]. intros E.
  assert (Eb : b = Z.min (Qfloor (v * inject_Z 256)) 255) by congruence.
  apply Qle_bool_iff in E0.
  assert (H : (0 <= v * inject_Z 256)%Q).
  { apply Qmult_le_0_compat; [exact E0 | discriminate]. }
  apply Qfloor_resp_le in H. change (Qfloor 0) with 0 in H. lia.
Qed.

(** X13. The histogram counts each pixel that lies in [[0, 1]] exactly
    once and ignores the others: its bins sum to the number of such
    pixels, which is the number of pixels of the tile when all of them are
    in [[0, 1]]. *)
Theorem histc_total (patch : list Q) :
  sum_list (histc patch) = Z.of_nat (List.length (filter in_unit_range patch)) /\
  (forallb in_unit_range patch = true ->
   sum_list (histc patch) = Z.of_nat (List.length patch)).
Proof.
  assert (H : sum_list (histc patch) =
              Z.of_nat (List.length (filter in_unit_range patch))).
  { induction patch as [|v p IH].
    - unfold histc. cbn [filter List.length].
      rewrite (sum_list_const _ _ 0) by reflexivity. lia.
    - unfold histc in *. cbn [filter].
      rewrite (map_ext _ (fun k => (if in_bin k v then 1 else 0) +
                                   Z.of_nat (List.length (filter (in_bin k) p)))).
      2:{ intros k. destruct (in_bin k v); cbn [List.length]; lia. }
      rewrite sum_list_map_add, IH.
      assert (E : sum_list (map (fun k => if in_bin k v then 1 else 0) (range 256)) =
                  if in_unit_range v then 1 else 0).
      { unfold in_bin, in_unit_range.
        destruct (histc_bin v) as [b|] eqn:Eb.
        - pose proof (histc_bin_range v b Eb) as Hb.
          unfold histc_bin in Eb.
          destruct (Qle_bool 0 v && Qle_bool v 1); [|discriminate].
          unfold range. rewrite sum_indicator.
          destruct (Z.leb_spec 0 b); [|lia].
          destruct (Z.ltb_spec b (0 + Z.of_nat (Z.to_nat 256))); [reflexivity | lia].
        - unfold histc_bin in Eb.
          destruct (Qle_bool 0 v && Qle_bool v 1); [discriminate|].
          rewrite (sum_list_const _ _ 0) by reflexivity. lia. }
      rewrite E. destruct (in_unit_range v); cbn [List.length]; lia. }
  split; [exact H|].
  intros Hall. rewrite H. f_equal. f_equal.
  clear H. induction patch as [|v p IH]; [reflexivity|].
  cbn [forallb] in Hall. apply andb_true_iff in Hall. destruct Hall as [Hv Hp].
  cbn [filter]. rewrite Hv. f_equal. apply IH, Hp.
Qed.

Lemma histc_total_witness :
  sum_list (histc [(1 # 4)%Q; (3 # 4)%Q]) = 2.
Proof.
  apply (proj2 (histc_total [(1 # 4)%Q; (3 # 4)%Q])). reflexivity.
Defined.

(** * Further properties of [compute_equalized_tiles] *)

Lemma float32_0 : float32 0 = 0%Q.
Proof. apply (float32_Z 0). cbn. lia. Qed.

Lemma float32_1 : float32 1 = 1%Q.
Proof. apply (float32_Z 1). cbn. lia. Qed.

(** A stored weight is a weight. *)
Lemma float32_unit (w : Q) :
  (0 <= w)%Q -> (w <= 1)%Q -> (0 <= float32 w)%Q /\ (float32 w <= 1)%Q.
Proof.
  intros H0 H1.
  pose proof (float32_monotone 0 w H0) as M0. rewrite float32_0 in M0.
  pose proof (float32_monotone w 1 H1) as M1. rewrite float32_1 in M1.
  split; assumption.
Qed.

(** Rounding does not cross a float. *)
Lemma float32_le_float (x f : Q) :
  (float32 f == f)%Q -> (x <= f)%Q -> (float32 x <= f)%Q.
Proof. intros Hf H. rewrite <- Hf. apply float32_monotone, H. Qed.

Lemma float32_ge_float (x f : Q) :
  (float32 f == f)%Q -> (f <= x)%Q -> (f <= float32 x)%Q.
Proof. intros Hf H. rewrite <- Hf. apply float32_monotone, H. Qed.

Lemma float32_Z_float (z : Z) : Z.abs z <= 2 ^ 24 -> (float32 (inject_Z z) == inject_Z z)%Q.
Proof. intros H. rewrite float32_Z by exact H. reflexivity. Qed.

(** The rounded product of a weight and a float lies between zero and the
    float. *)
Lemma float32_scale (w d : Q) :
  (0 <= w)%Q -> (w <= 1)%Q -> (float32 d == d)%Q ->
  ((0 <= d -> 0 <= float32 (w * d) /\ float32 (w * d) <= d) /\
   (d <= 0 -> d <= float32 (w * d) /\ float32 (w * d) <= 0))%Q.
Proof.
  intros H0 H1 Hd. split; intros Hs.
  - split.
    + apply float32_ge_float; [rewrite float32_0; reflexivity | nra].
    + apply float32_le_float; [exact Hd | nra].
  - split.
    + apply float32_ge_float; [exact Hd | nra].
    + apply float32_le_float; [rewrite float32_0; reflexivity | nra].
Qed.

(** The single-precision blend of two LUT entries of at most 24 bits
    lies between them. *)
Lemma mix_long_between (w : Q) (a b lo hi : Z) :
  (0 <= w)%Q -> (w <= 1)%Q ->
  lo <= a <= hi -> lo <= b <= hi ->
  - 2 ^ 24 <= lo -> hi <= 2 ^ 24 -> hi - lo <= 2 ^ 24 ->
  (inject_Z lo <= mix_long w a b)%Q /\ (mix_long w a b <= inject_Z hi)%Q.
Proof.
  intros H0 H1 Ha Hb Hlo Hhi Hd. unfold mix_long.
  destruct (float32_unit w H0 H1) as [W0 W1].
  assert (P24 : 2 ^ 24 = 16777216) by reflexivity.
  rewrite (float32_Z (a - b)) by lia. rewrite (float32_Z b) by lia.
  destruct (float32_scale (float32 w) (inject_Z (a - b)) W0 W1) as [Hp Hn].
  { rewrite float32_Z by lia. reflexivity. }
  assert (Eab : (inject_Z (a - b) == inject_Z a - inject_Z b)%Q).
  { unfold Zminus. rewrite inject_Z_plus, inject_Z_opp. ring. }
  assert (Qa : (inject_Z lo <= inject_Z a)%Q /\ (inject_Z a <= inject_Z hi)%Q).
  { rewrite <- !Zle_Qle. lia. }
  assert (Qb : (inject_Z lo <= inject_Z b)%Q /\ (inject_Z b <= inject_Z hi)%Q).
  { rewrite <- !Zle_Qle. lia. }
  pose proof (float32_Z_float lo ltac:(lia)) as Flo.
  pose proof (float32_Z_float hi ltac:(lia)) as Fhi.
  destruct (Z_le_gt_dec b a) as [Hab|Hab].
  - destruct Hp as [P1 P2]; [apply (inject_Z_le 0); lia|].
    split; [apply float32_ge_float | apply float32_le_float]; try assumption; lra.
  - destruct Hn as [P1 P2]; [apply (inject_Z_le _ 0); lia|].
    split; [apply float32_ge_float | apply float32_le_float]; try assumption; lra.
Qed.

Lemma mix_long_float (w : Q) (a b : Z) : (float32 (mix_long w a b) == mix_long w a b)%Q.
Proof. unfold mix_long. rewrite float32_idempotent. reflexivity. Qed.

(** The difference of an integer and a float above it is a float. *)
Lemma representable_int_sub (lo : Z) (b : Q) :
  representable 24 b -> 0 <= lo -> (inject_Z lo <= b)%Q -> (b <= inject_Z (2 ^ 24))%Q ->
  representable 24 (inject_Z lo - b).
Proof.
  intros (M & E & HM & Hb) Hlo Hlb Hb24.
  destruct (Z_le_gt_dec 0 E) as [HE|HE].
  - assert (Eb : (b == inject_Z (M * 2 ^ E))%Q).
    { rewrite Hb, inject_Z_mult, <- pow2_Z by lia. reflexivity. }
    exists (lo - M * 2 ^ E), 0. split.
    + rewrite Eb in Hlb, Hb24. rewrite <- Zle_Qle in Hlb, Hb24. lia.
    + rewrite Eb. change (pow2 0) with 1%Q. unfold Zminus.
      rewrite inject_Z_plus, inject_Z_opp. ring.
  - assert (E1 : (pow2 E * pow2 (- E) == 1)%Q).
    { rewrite <- pow2_add. replace (E + - E) with 0 by lia. reflexivity. }
    pose proof (pow2_pos (- E)) as Pk. pose proof (pow2_pos E) as Pe.
    assert (Hk : (inject_Z (lo * 2 ^ (- E)) <= inject_Z M)%Q).
    { rewrite inject_Z_mult, <- pow2_Z by lia.
      apply Qle_trans with (b * pow2 (- E))%Q.
      - apply Qmult_le_compat_r; lra.
      - rewrite Hb, <- Qmult_assoc, E1. lra. }
    rewrite <- Zle_Qle in Hk.
    assert (0 <= lo * 2 ^ (- E)) by (apply Z.mul_nonneg_nonneg; [|apply Z.pow_nonneg]; lia).
    exists (lo * 2 ^ (- E) - M), E. split; [lia|].
    unfold Zminus. rewrite inject_Z_plus, inject_Z_opp, inject_Z_mult.
    rewrite <- pow2_Z by lia. rewrite Hb.
    setoid_replace ((inject_Z lo * pow2 (- E) + - inject_Z M) * pow2 E)%Q
      with (inject_Z lo * (pow2 E * pow2 (- E)) - inject_Z M * pow2 E)%Q by ring.
    rewrite E1. ring.
Qed.

Lemma half_above_representable (hi : Z) :
  0 <= hi < 2 ^ 23 -> representable 24 (inject_Z hi + (1 # 2)).
Proof.
  intros H. exists (2 * hi + 1), (-1). split.
  - assert (2 ^ 24 = 2 * 2 ^ 23) by reflexivity. lia.
  - rewrite inject_Z_plus, inject_Z_mult. change (pow2 (-1)) with (1 # 2)%Q.
    change (inject_Z 2) with 2%Q. change (inject_Z 1) with 1%Q. field.
Qed.

(** The single-precision blend of two floats of a range [[lo, hi]] of
    non-negative integers below [2 ^ 23] is at least [lo] and exceeds [hi]
    by at most one half. *)
Lemma mix_between (w t b : Q) (lo hi : Z) :
  (0 <= w)%Q -> (w <= 1)%Q ->
  (float32 t == t)%Q -> (float32 b == b)%Q ->
  0 <= lo -> hi < 2 ^ 23 ->
  (inject_Z lo <= t)%Q -> (t <= inject_Z hi)%Q ->
  (inject_Z lo <= b)%Q -> (b <= inject_Z hi)%Q ->
  (inject_Z lo <= mix w t b)%Q /\ (mix w t b <= inject_Z hi + (1 # 2))%Q.
Proof.
  intros H0 H1 Ft Fb Hlo Hhi Lt Ht Lb Hb. unfold mix.
  destruct (float32_unit w H0 H1) as [W0 W1].
  assert (P23 : 2 ^ 23 = 8388608) by reflexivity.
  assert (P24 : 2 ^ 24 = 16777216) by reflexivity.
  assert (Hlh : lo <= hi) by (rewrite Zle_Qle; lra).
  assert (Q24 : (inject_Z hi <= inject_Z (2 ^ 24))%Q) by (rewrite <- Zle_Qle; lia).
  set (d := float32 (t - b)).
  assert (Fd : (float32 d == d)%Q) by (unfold d; rewrite float32_idempotent; reflexivity).
  destruct (float32_scale (float32 w) d W0 W1 Fd) as [Hp Hn].
  (* the difference is not below [lo - b] *)
  assert (Dlo : (inject_Z lo - b <= d)%Q).
  { apply float32_ge_float; [|lra].
    apply float32_exact, representable_int_sub; try assumption; try lra.
    rewrite <- Fb. apply float32_representable. }
  (* and exceeds [t - b] by at most one half *)
  assert (Dhi : (d <= t - b + (1 # 2))%Q).
  { pose proof (float32_error (t - b)) as Herr. fold d in Herr.
    cbn [Z.opp] in Herr.
    assert (Habs : (Qabs (t - b) <= inject_Z (2 ^ 23))%Q).
    { apply Qabs_Qle_condition.
      assert ((inject_Z hi <= inject_Z (2 ^ 23))%Q) by (rewrite <- Zle_Qle; lia).
      assert ((0 <= inject_Z lo)%Q) by (apply (inject_Z_le 0); lia).
      split; lra. }
    assert (E : (inject_Z (2 ^ 23) * pow2 (-24) == 1 # 2)%Q) by reflexivity.
    pose proof (pow2_pos (-24)) as P.
    assert ((Qabs (t - b) * pow2 (-24) <= 1 # 2)%Q).
    { rewrite <- E. apply Qmult_le_compat_r; lra. }
    apply Qabs_Qle_condition in Herr. lra. }
  pose proof (float32_Z_float lo ltac:(lia)) as Flo.
  pose proof (float32_exact _ (half_above_representable hi ltac:(lia))) as Fhi.
  destruct (Qlt_le_dec d 0) as [Hd|Hd].
  - destruct Hn as [P1 P2]; [lra|].
    split; [apply float32_ge_float | apply float32_le_float]; try assumption; lra.
  - destruct Hp as [P1 P2]; [lra|].
    split; [apply float32_ge_float | apply float32_le_float]; try assumption; lra.
Qed.

Lemma to_long_floor_range (q : Q) (lo hi : Z) :
  0 <= lo -> (inject_Z lo <= q)%Q -> (q <= inject_Z hi + (1 # 2))%Q ->
  lo <= to_long q <= hi.
Proof.
  intros Hlo Hl Hh. unfold to_long.
  assert (H0 : (0 <= q)%Q).
  { assert ((0 <= inject_Z lo)%Q) by (apply (inject_Z_le 0); lia). lra. }
  rewrite (proj2 (Qle_bool_iff _ _) H0).
  split.
  - apply Qfloor_resp_le in Hl. rewrite Qfloor_Z in Hl. exact Hl.
  - assert (Hlt : (q < inject_Z (hi + 1))%Q).
    { rewrite inject_Z_plus. change (inject_Z 1) with 1%Q. lra. }
    pose proof (Qfloor_le q) as Hf.
    assert (Hq : (inject_Z (Qfloor q) < inject_Z (hi + 1))%Q) by lra.
    rewrite <- Zlt_Qlt in Hq. lia.
Qed.

(** Blending an entry with itself gives the entry. *)
Lemma mix_long_same (w : Q) (a : Z) :
  Z.abs a <= 2 ^ 24 -> mix_long w a a = inject_Z a.
Proof.
  intros Ha. unfold mix_long. rewrite Z.sub_diag.
  change (inject_Z 0) with 0%Q. rewrite float32_0.
  rewrite (float32_comp (float32 w * 0) 0) by ring. rewrite float32_0.
  rewrite (float32_Z a) by exact Ha.
  rewrite (float32_comp (0 + inject_Z a) (inject_Z a)) by ring.
  apply float32_Z, Ha.
Qed.

Lemma mix_same (w : Q) (a : Z) :
  Z.abs a <= 2 ^ 24 -> mix w (inject_Z a) (inject_Z a) = inject_Z a.
Proof.
  intros Ha. unfold mix.
  rewrite (float32_comp (inject_Z a - inject_Z a) 0) by ring. rewrite float32_0.
  rewrite (float32_comp (float32 w * 0) 0) by ring. rewrite float32_0.
  rewrite (float32_comp (0 + inject_Z a) (inject_Z a)) by ring.
  apply float32_Z, Ha.
Qed.

Lemma to_long_comp (p q : Q) : (p == q)%Q -> to_long p = to_long q.
Proof.
  intros H. unfold to_long.
  rewrite (Qfloor_comp p q H), (Qceiling_comp p q H).
  destruct (Qle_bool 0 p) eqn:Ep; destruct (Qle_bool 0 q) eqn:Eq; try reflexivity.
  - apply Qle_bool_iff in Ep. rewrite H in Ep. apply Qle_bool_iff in Ep. congruence.
  - apply Qle_bool_iff in Eq. rewrite <- H in Eq. apply Qle_bool_iff in Eq. congruence.
Qed.

Lemma to_long_inject_Z (z : Z) : to_long (inject_Z z) = z.
Proof.
  unfold to_long. destruct (Qle_bool 0 (inject_Z z));
    [apply Qfloor_Z | apply Qceiling_Z].
Qed.

Lemma to_long_between (q : Q) (lo hi : Z) :
  (inject_Z lo <= q)%Q -> (q <= inject_Z hi)%Q -> lo <= to_long q <= hi.
Proof.
  intros Hl Hh. unfold to_long. destruct (Qle_bool 0 q).
  - apply Qfloor_resp_le in Hl, Hh. rewrite Qfloor_Z in Hl, Hh. lia.
  - apply Qceiling_resp_le in Hl, Hh. rewrite Qceiling_Z in Hl, Hh. lia.
Qed.

Lemma ramp_unit (n k p : Z) :
  0 < n -> 0 <= p < n -> (0 <= ramp n k p)%Q /\ (ramp n k p <= 1)%Q.
Proof.
  intros Hn Hp. unfold ramp.
  pose proof (Z.mod_pos_bound (k + 1) 2 ltac:(lia)) as Hm.
  set (r := (k + 1) mod 2 * n + p).
  assert (Hr : 0 <= r <= 2 * n - 1) by (subst r; nia).
  assert (Hd : (0 < inject_Z (2 * n - 1))%Q).
  { change 0%Q with (inject_Z 0). rewrite <- Zlt_Qlt. lia. }
  split.
  - apply Qle_shift_div_l; [exact Hd|]. rewrite Qmult_0_l.
    change 0%Q with (inject_Z 0). rewrite <- Zle_Qle. lia.
  - apply Qle_shift_div_r; [exact Hd|]. rewrite Qmult_1_l.
    rewrite <- Zle_Qle. lia.
Qed.

Section EqualizedValues.

Variables (luts : tensor Z) (interp : tensor Q).
Variables (B GH GW C L th tw : Z).

Hypothesis Hwf : well_formed interp luts B GH GW C th tw L.

Lemma mapped_within (lo hi im r s j i ch y x : Z) :
  within lo hi luts ->
  in_bounds [im; j; i; ch; y; x] (shape interp) ->
  0 <= r < GH -> 0 <= s < GW ->
  lo <= mapped luts interp im r s j i ch y x <= hi.
Proof.
  intros Hw Hin Hr Hs. unfold mapped. apply Hw.
  destruct Hwf as [Hsi Hsl _ _ Hpx].
  specialize (Hpx _ Hin). rewrite Hsi in Hin. rewrite Hsl.
  destruct Hin as (Him & _ & _ & Hch & _). cbn. tauto.
Qed.

Lemma expected_value_within (lo hi im j i ch y x : Z) :
  0 <= lo -> hi < 2 ^ 23 ->
  within lo hi luts ->
  in_bounds [im; j; i; ch; y; x] (shape interp) ->
  lo <= expected_value luts interp GH GW th tw im j i ch y x <= hi.
Proof.
  intros Hlo Hhi Hw Hin. pose proof Hin as Hin'.
  rewrite (wf_interp _ _ _ _ _ _ _ _ _ Hwf) in Hin'.
  destruct Hin' as (_ & Hj & Hi & _ & Hy & Hx & _).
  pose proof (wf_th _ _ _ _ _ _ _ _ _ Hwf) as Hth.
  pose proof (wf_tw _ _ _ _ _ _ _ _ _ Hwf) as Htw.
  pose proof (parent_bounds j GH Hj) as Hpj.
  pose proof (parent_bounds i GW Hi) as Hpi.
  destruct (ramp_unit th j y Hth Hy) as [Hv0 Hv1].
  destruct (ramp_unit tw i x Htw Hx) as [Hh0 Hh1].
  assert (P23 : 2 ^ 23 = 8388608) by reflexivity.
  assert (P24 : 2 ^ 24 = 16777216) by reflexivity.
  assert (HA : forall r s, 0 <= r < GH -> 0 <= s < GW ->
             lo <= mapped luts interp im r s j i ch y x <= hi).
  { intros r s Hr Hs. apply mapped_within; assumption. }
  assert (HL : forall w a b,
             (0 <= w)%Q -> (w <= 1)%Q -> lo <= a <= hi -> lo <= b <= hi ->
             (inject_Z lo <= mix_long w a b)%Q /\ (mix_long w a b <= inject_Z hi)%Q).
  { intros w a b W0 W1 Ha Hb. apply mix_long_between; try assumption; lia. }
  unfold expected_value.
  destruct ((i =? 0) || (i =? 2 * GW - 1)) eqn:Ei;
    destruct ((j =? 0) || (j =? 2 * GH - 1)) eqn:Ej; cbn [andb].
  - apply mapped_within; assumption.
  - destruct (neighbour_bounds j GH (not_edge j GH Hj Ej)) as [Hu Hl].
    destruct (HL _ _ _ Hv0 Hv1 (HA (upper j) (i / 2) Hu Hpi)
                (HA (lower j) (i / 2) Hl Hpi)) as [M1 M2].
    apply to_long_between; assumption.
  - destruct (neighbour_bounds i GW (not_edge i GW Hi Ei)) as [Hu Hl].
    destruct (HL _ _ _ Hh0 Hh1 (HA (j / 2) (upper i) Hpj Hu)
                (HA (j / 2) (lower i) Hpj Hl)) as [M1 M2].
    apply to_long_between; assumption.
  - destruct (neighbour_bounds j GH (not_edge j GH Hj Ej)) as [Huj Hlj].
    destruct (neighbour_bounds i GW (not_edge i GW Hi Ei)) as [Hui Hli].
    destruct (HL _ _ _ Hh0 Hh1 (HA (upper j) (upper i) Huj Hui)
                (HA (upper j) (lower i) Huj Hli)) as [M1 M2].
    destruct (HL _ _ _ Hh0 Hh1 (HA (lower j) (upper i) Hlj Hui)
                (HA (lower j) (lower i) Hlj Hli)) as [M3 M4].
    destruct (mix_between (ramp th j y) _ _ lo hi Hv0 Hv1
                (mix_long_float _ _ _) (mix_long_float _ _ _)
                Hlo Hhi M1 M2 M3 M4) as [M5 M6].
    apply to_long_floor_range; assumption.
Qed.

Lemma expected_value_equal_luts (im j i ch y x : Z) :
  (forall r s r' s' k,
      0 <= r < GH -> 0 <= s < GW -> 0 <= r' < GH -> 0 <= s' < GW ->
      item luts [im; r; s; ch; k] = item luts [im; r'; s'; ch; k]) ->
  (forall r s k, 0 <= r < GH -> 0 <= s < GW -> 0 <= k < L ->
                 Z.abs (item luts [im; r; s; ch; k]) <= 2 ^ 24) ->
  in_bounds [im; j; i; ch; y; x] (shape interp) ->
  expected_value luts interp GH GW th tw im j i ch y x =
  mapped luts interp im (j / 2) (i / 2) j i ch y x.
Proof.
  intros Heq Hbd Hin. pose proof Hin as Hin'.
  rewrite (wf_interp _ _ _ _ _ _ _ _ _ Hwf) in Hin'.
  destruct Hin' as (_ & Hj & Hi & _).
  pose proof (parent_bounds j GH Hj) as Hpj.
  pose proof (parent_bounds i GW Hi) as Hpi.
  assert (HA : forall r s, 0 <= r < GH -> 0 <= s < GW ->
             mapped luts interp im r s j i ch y x =
             mapped luts interp im (j / 2) (i / 2) j i ch y x).
  { intros r s Hr Hs. unfold mapped. apply Heq; assumption. }
  assert (Hm : Z.abs (mapped luts interp im (j / 2) (i / 2) j i ch y x) <= 2 ^ 24).
  { unfold mapped. apply Hbd; try assumption.
    apply (wf_pixels _ _ _ _ _ _ _ _ _ Hwf), Hin. }
  unfold expected_value.
  destruct ((i =? 0) || (i =? 2 * GW - 1)) eqn:Ei;
    destruct ((j =? 0) || (j =? 2 * GH - 1)) eqn:Ej; cbn [andb].
  - reflexivity.
  - destruct (neighbour_bounds j GH (not_edge j GH Hj Ej)) as [Hu Hl].
    rewrite (HA (upper j) (i / 2) Hu Hpi), (HA (lower j) (i / 2) Hl Hpi).
    rewrite mix_long_same by exact Hm. apply to_long_inject_Z.
  - destruct (neighbour_bounds i GW (not_edge i GW Hi Ei)) as [Hu Hl].
    rewrite (HA (j / 2) (upper i) Hpj Hu), (HA (j / 2) (lower i) Hpj Hl).
    rewrite mix_long_same by exact Hm. apply to_long_inject_Z.
  - destruct (neighbour_bounds j GH (not_edge j GH Hj Ej)) as [Huj Hlj].
    destruct (neighbour_bounds i GW (not_edge i GW Hi Ei)) as [Hui Hli].
    rewrite (HA (upper j) (upper i) Huj Hui), (HA (upper j) (lower i) Huj Hli).
    rewrite (HA (lower j) (upper i) Hlj Hui), (HA (lower j) (lower i) Hlj Hli).
    rewrite mix_long_same by exact Hm.
    rewrite mix_same by exact Hm. apply to_long_inject_Z.
Qed.

End EqualizedValues.

(** X14. The equalized tiles stay within the range of the LUTs: when
    every LUT entry lies in a range [[lo, hi]] of non-negative integers
    below [2 ^ 23], [compute_equalized_tiles] returns a tensor of the
    shape of the query tiles whose elements all lie in [[lo, hi]] (in
    [[0, 255]] for the LUTs of the builders): the rounding of the
    single-precision blend does not take a stored value out of the
    range. *)
Theorem equalized_tiles_within_lut_range (interp : tensor Q) (luts : tensor Z)
  (B GH GW C L th tw lo hi : Z) :
  well_formed interp luts B GH GW C th tw L ->
  0 <= lo -> hi < 2 ^ 23 ->
  within lo hi luts ->
  exists out,
    compute_equalized_tiles interp luts = Ok out /\
    shape out = shape interp /\
    within lo hi out.
Proof.
  intros Hwf Hlo Hhi Hw.
  destruct (compute_equalized_tiles_spec luts interp B GH GW C L th tw Hwf)
    as (out & Hout & Hs & Hi).
  exists out. split; [exact Hout|]. split; [exact Hs|].
  intros idx Hin. rewrite Hs in Hin. pose proof Hin as Hin'.
  rewrite (wf_interp _ _ _ _ _ _ _ _ _ Hwf) in Hin'.
  apply in_bounds6 in Hin'.
  destruct Hin' as (im & j & i & ch & y & x & -> & _).
  rewrite (Hi im j i ch y x Hin).
  apply (expected_value_within luts interp B GH GW C L th tw Hwf); assumption.
Qed.

Lemma sample_luts_within : within 0 1 sample_luts.
Proof.
  intros idx Hin.
  destruct idx as [|a [|r [|s [|d [|k [|? ?]]]]]]; cbn in Hin; try tauto.
  cbn [sample_luts item]. destruct (r =? 0); lia.
Qed.

Lemma equalized_tiles_within_lut_range_witness :
  exists out,
    compute_equalized_tiles sample_query_tiles sample_luts = Ok out /\
    shape out = shape sample_query_tiles /\
    within 0 1 out.
Proof.
  apply (equalized_tiles_within_lut_range sample_query_tiles sample_luts
           1 2 1 1 256 2 2 0 1 sample_well_formed);
    [lia | reflexivity | exact sample_luts_within].
Defined.

(** X15. When all statistics tiles of an image and channel have the same
    LUT, with entries of at most 24 bits, no blending is visible: every
    output element is that LUT applied to the quantized pixel, whatever
    the region of its query tile. *)
Theorem equal_luts_no_blending (interp : tensor Q) (luts : tensor Z)
  (B GH GW C L th tw : Z) :
  well_formed interp luts B GH GW C th tw L ->
  within (- 2 ^ 24) (2 ^ 24) luts ->
  (forall im ch r s r' s' k,
      0 <= r < GH -> 0 <= s < GW -> 0 <= r' < GH -> 0 <= s' < GW ->
      item luts [im; r; s; ch; k] = item luts [im; r'; s'; ch; k]) ->
  exists out,
    compute_equalized_tiles interp luts = Ok out /\
    forall im j i ch y x,
      in_bounds [im; j; i; ch; y; x] (shape interp) ->
      item out [im; j; i; ch; y; x] =
      item luts [im; 0; 0; ch; quantize (item interp [im; j; i; ch; y; x])].
Proof.
  intros Hwf Hbd Heq.
  destruct (compute_equalized_tiles_spec luts interp B GH GW C L th tw Hwf)
    as (out & Hout & Hs & Hi).
  exists out. split; [exact Hout|].
  intros im j i ch y x Hin. rewrite (Hi im j i ch y x Hin).
  pose proof Hin as Hin'.
  rewrite (wf_interp _ _ _ _ _ _ _ _ _ Hwf) in Hin'.
  destruct Hin' as (Him & Hj & Hi' & Hch & _).
  rewrite (expected_value_equal_luts luts interp B GH GW C L th tw Hwf
             im j i ch y x (Heq im ch)); [| |exact Hin].
  - unfold mapped. apply Heq; try (apply parent_bounds; assumption); lia.
  - intros r s k Hr Hs' Hk.
    assert (Hb : - 2 ^ 24 <= item luts [im; r; s; ch; k] <= 2 ^ 24).
    { apply Hbd. rewrite (wf_luts _ _ _ _ _ _ _ _ _ Hwf). cbn [in_bounds]. tauto. }
    lia.
Qed.

Lemma identity_luts_24_bits : within (- 2 ^ 24) (2 ^ 24) identity_luts.
Proof.
  intros idx Hin.
  destruct idx as [|a [|r [|s [|d [|k [|? ?]]]]]]; cbn [in_bounds shape identity_luts] in Hin;
    try tauto.
  cbn [identity_luts item last].
  assert (2 ^ 24 = 16777216) by reflexivity. lia.
Qed.

Lemma sample_equal_luts_well_formed :
  well_formed sample_query_tiles
    identity_luts 1 2 1 1 2 2 256.
Proof.
  constructor; try reflexivity; try lia.
  intros idx _. unfold sample_query_tiles. cbn [item].
  change (quantize (1 # 2)) with 127. lia.
Qed.

Lemma equal_luts_no_blending_witness :
  exists out,
    compute_equalized_tiles sample_query_tiles
      identity_luts = Ok out /\
    item out [0; 1; 0; 0; 1; 0] = 127.
Proof.
  destruct (equal_luts_no_blending sample_query_tiles
              identity_luts
              1 2 1 1 256 2 2 sample_equal_luts_well_formed identity_luts_24_bits)
    as (out & Hout & Hi).
  - intros. reflexivity.
  - exists out. split; [exact Hout|].
    rewrite (Hi 0 1 0 0 1 0) by (cbn; lia). reflexivity.
Defined.

(** ** The interpolation weights *)






(** * The pipeline of [main] *)

Lemma compute_luts_ok (tiles_x_im : tensor Q) (b gh gw c th tw : Z) :
  shape tiles_x_im = [b; gh; gw; c; th; tw] ->
  0 < b -> 0 < gh -> 0 < gw -> 0 < c ->
  exists luts,
    compute_luts tiles_x_im = Ok luts /\
    shape luts = [b; gh; gw; c; 256] /\
    within 0 255 luts /\
    forall ib gj gi ic k,
      item luts [ib; gj; gi; ic; k] =
      nth (Z.to_nat k) (lut (tile_pixels tiles_x_im [ib; gj; gi; ic])) 0.
Proof.
  intros Hs Hb Hgh Hgw Hc. unfold compute_luts. rewrite Hs.
  destruct (Z.ltb_spec 0 b); [|lia]. destruct (Z.ltb_spec 0 gh); [|lia].
  destruct (Z.ltb_spec 0 gw); [|lia]. destruct (Z.ltb_spec 0 c); [|lia].
  cbn [andb]. eexists. split; [reflexivity|]. split; [reflexivity|]. split.
  - intros idx Hin. cbn [shape] in Hin.
    destruct idx as [|ib [|gj [|gi [|ic [|k [|? ?]]]]]]; cbn in Hin; try tauto.
    cbn [item last removelast].
    destruct (lut_contract_elements _
                (lut_satisfies_contract (tile_pixels tiles_x_im [ib; gj; gi; ic])))
      as (_ & Hr & _).
    apply Hr. lia.
  - intros. reflexivity.
Qed.

Lemma size_from_end_6 {A : Type} (t : tensor A) (n0 n1 n2 n3 n4 n5 : Z) :
  shape t = [n0; n1; n2; n3; n4; n5] ->
  size_from_end t 2 = Ok n4 /\ size_from_end t 1 = Ok n5.
Proof. intros H. unfold size_from_end, ndim. rewrite H. split; reflexivity. Qed.

Lemma size_from_end_4 {A : Type} (t : tensor A) (n0 n1 n2 n3 : Z) :
  shape t = [n0; n1; n2; n3] ->
  size_from_end t 2 = Ok n2 /\ size_from_end t 1 = Ok n3.
Proof. intros H. unfold size_from_end, ndim. rewrite H. split; reflexivity. Qed.

Lemma even_half (k : Z) : k mod 2 = 0 -> k = 2 * (k / 2).
Proof. intros H. pose proof (Z.div_mod k 2 ltac:(lia)). lia. Qed.

(** The pipeline returns, and each pixel of its result is the expected
    value of the query tile element that covers it. *)
Lemma main_pipeline_ok (img : tensor Q) (b c h w gr gc : Z) (g : geometry) :
  shape img = [b; c; h; w] ->
  0 < b -> 0 < c -> 0 < h -> 0 < w -> 0 < gr -> 0 < gc ->
  tile_geometry h w (gr, gc) true = Ok g ->
  pad_vert g < h -> pad_horz g < w ->
  (forall idx, in_bounds idx (shape img) ->
               (0 <= item img idx)%Q /\ (item img idx <= 1)%Q) ->
  exists tiles batch interp luts hh hw out,
    compute_tiles img (gr, gc) true = Ok (tiles, batch) /\
    shape tiles = [b; gr; gc; c; 2 * hh; 2 * hw] /\
    0 < hh /\ 0 < hw /\
    compute_luts tiles = Ok luts /\
    well_formed interp luts b gr gc c hh hw 256 /\
    within 0 255 luts /\
    (forall ib gj gi ic k,
        item luts [ib; gj; gi; ic; k] =
        nth (Z.to_nat k) (lut (tile_pixels tiles [ib; gj; gi; ic])) 0) /\
    (forall ib gj gi ic y x,
        0 <= gj < gr -> 0 <= gi < gc -> 0 <= y < 2 * hh -> 0 <= x < 2 * hw ->
        exists Y X, 0 <= Y < h /\ 0 <= X < w /\
                    item tiles [ib; gj; gi; ic; y; x] = item img [ib; ic; Y; X]) /\
    (forall ib j i ic y x,
        0 <= j * hh + y < h -> 0 <= i * hw + x < w ->
        item interp [ib; j; i; ic; y; x] = item img [ib; ic; j * hh + y; i * hw + x]) /\
    main_pipeline img (gr, gc) = Ok out /\
    shape out = [b; c; h; w] /\
    forall ib ic y x,
      in_bounds [ib; ic; y; x] [b; c; h; w] ->
      in_bounds [ib; y / hh; x / hw; ic; y mod hh; x mod hw] (shape interp) /\
      item out [ib; ic; y; x] =
      expected_value luts interp gr gc hh hw ib (y / hh) (x / hw) ic (y mod hh) (x mod hw).
Proof.
  intros Hs Hb Hc Hh Hw Hgr Hgc Hg Hpv Hph Hpx.
  destruct (compute_tiles_ok img b c h w gr gc true g Hs Hc Hh Hw Hgr Hgc Hg Hpv Hph)
    as (tiles & batch & Hct & Hsb & Hst & Hkeep & Hrefl).
  destruct (tile_geometry_kernel_pos _ _ _ _ _ _ Hg Hgr Hgc Hh Hw) as (Hkv & Hkh & Hev).
  destruct (Hev eq_refl) as [Ev Eh].
  pose proof (tile_geometry_inv _ _ _ _ _ _ Hg)
    as (_ & _ & Epv & Eph & Hpv0 & Hph0 & _ & _).
  specialize (Hpv0 Hgr). specialize (Hph0 Hgc).
  set (hh := kernel_vert g / 2) in *. set (hw := kernel_horz g / 2) in *.
  assert (Ekv : kernel_vert g = 2 * hh) by (apply even_half; exact Ev).
  assert (Ekh : kernel_horz g = 2 * hw) by (apply even_half; exact Eh).
  rewrite Ekv, Ekh in Hsb, Hst, Hrefl.
  assert (Hhh : 0 < hh) by lia. assert (Hhw : 0 < hw) by lia.
  destruct (interpolation_tiles_ok batch b c hh hw gr gc Hsb Hc Hhh Hhw Hgr Hgc)
    as (interp & Hit & Hsi & Hii).
  destruct (compute_luts_ok tiles b gr gc c (2 * hh) (2 * hw) Hst Hb Hgr Hgc Hc)
    as (luts & Hl & Hsl & Hwl & Hil).
  assert (Hwf : well_formed interp luts b gr gc c hh hw 256).
  { constructor; try assumption.
    intros idx Hin. rewrite Hsi in Hin. apply in_bounds6 in Hin.
    destruct Hin as (ib & j & i & ic & y & x & -> & Hib & Hj & Hi & Hic & Hy & Hx).
    rewrite Hii.
    destruct (Hrefl ib ic (j * hh + y) (i * hw + x)) as (Hry & Hrx & ->); try nia.
    destruct (Hpx [ib; ic; reflect h (j * hh + y); reflect w (i * hw + x)])
      as [H0 H1]; [rewrite Hs; cbn; lia|].
    destruct (quantize_unit _ H0 H1) as [_ Hq]. lia. }
  destruct (compute_equalized_tiles_spec luts interp b gr gc c 256 hh hw Hwf)
    as (eq & Heq & Hse & Hie).
  rewrite Hsi in Hse.
  destruct (compose_tiles_spec eq b c hh hw (2 * gr) (2 * gc) Hse)
    as (p2 & Hp2 & Hs2 & Hi2); try lia.
  exists tiles, batch, interp, luts, hh, hw.
  eexists.
  split; [exact Hct|]. split; [exact Hst|]. split; [exact Hhh|]. split; [exact Hhw|].
  split; [exact Hl|]. split; [exact Hwf|]. split; [exact Hwl|].
  split; [exact Hil|]. split.
  { intros ib gj gi ic y x Hgj Hgi Hy Hx.
    destruct (compute_tiles_inv _ _ _ _ _ _ Hct)
      as (b' & c' & kv & kh & Hsb' & _ & _ & _ & _ & _ & Hex).
    destruct (extract_tiles_inv _ _ _ _ _ _ _ _ _ _ Hsb' Hex)
      as (_ & _ & _ & _ & _ & Hst' & Hti).
    assert (Ev' : kv = 2 * hh)
      by (apply (f_equal (fun l => nth 4 l 0)) in Hst'; rewrite Hst in Hst';
          cbn [nth] in Hst'; lia).
    assert (Eh' : kh = 2 * hw)
      by (apply (f_equal (fun l => nth 5 l 0)) in Hst'; rewrite Hst in Hst';
          cbn [nth] in Hst'; lia).
    subst kv kh. rewrite Hti.
    destruct (Hrefl ib ic (gj * (2 * hh) + y) (gi * (2 * hw) + x)) as (Hry & Hrx & E);
      try nia.
    eexists _, _. split; [exact Hry|]. split; [exact Hrx|]. exact E. }
  split.
  { intros ib j i ic y x Hy Hx. rewrite Hii. apply Hkeep; assumption. }
  split.
  { unfold main_pipeline. rewrite Hct. cbn [bind].
    destruct (size_from_end_6 tiles _ _ _ _ _ _ Hst) as [-> ->]. cbn [bind].
    rewrite Hit. cbn [bind]. rewrite Hl. cbn [bind]. rewrite Heq. cbn [bind].
    rewrite Hp2. cbn [bind].
    destruct (size_from_end_4 img _ _ _ _ Hs) as [-> ->]. cbn [bind].
    apply (crop_4d p2 b c _ _ h w Hs2); nia. }
  split; [reflexivity|].
  intros ib ic y x (Hib & Hic & Hy & Hx & _). cbn [item].
  rewrite Hi2 by nia.
  assert (Hin : in_bounds [ib; y / hh; x / hw; ic; y mod hh; x mod hw] (shape interp));
    [|split; [exact Hin | apply Hie; exact Hin]].
  rewrite Hsi. cbn [in_bounds].
  pose proof (Z.mod_pos_bound y hh Hhh). pose proof (Z.mod_pos_bound x hw Hhw).
  assert (0 <= y / hh < 2 * gr).
  { split; [apply Z.div_pos; lia | apply Z.div_lt_upper_bound; nia]. }
  assert (0 <= x / hw < 2 * gc).
  { split; [apply Z.div_pos; lia | apply Z.div_lt_upper_bound; nia]. }
  lia.
Qed.

(** X17. The pipeline of [main] (tiles, query tiles, [compute_luts],
    [compute_equalized_tiles], re-assembly and crop) returns for every
    batch of images with pixels in [[0, 1]] and every positive grid whose
    padding is smaller than the image; the result has the shape of the
    input and its values lie in [[0, 255]]. *)
Theorem main_pipeline_returns (img : tensor Q) (b c h w gr gc : Z) (g : geometry) :
  shape img = [b; c; h; w] ->
  0 < b -> 0 < c -> 0 < h -> 0 < w -> 0 < gr -> 0 < gc ->
  tile_geometry h w (gr, gc) true = Ok g ->
  pad_vert g < h -> pad_horz g < w ->
  (forall idx, in_bounds idx (shape img) ->
               (0 <= item img idx)%Q /\ (item img idx <= 1)%Q) ->
  exists out,
    main_pipeline img (gr, gc) = Ok out /\
    shape out = shape img /\
    within 0 255 out.
Proof.
  intros Hs Hb Hc Hh Hw Hgr Hgc Hg Hpv Hph Hpx.
  destruct (main_pipeline_ok img b c h w gr gc g Hs Hb Hc Hh Hw Hgr Hgc Hg Hpv Hph Hpx)
    as (tiles & batch & interp & luts & hh & hw & out & _ & _ & Hhh & Hhw & _ & Hwf
        & Hwl & _ & _ & _ & Hout & Hso & Hio).
  exists out. split; [exact Hout|]. split; [congruence|].
  intros idx Hin. rewrite Hso in Hin. pose proof Hin as Hin'.
  apply in_bounds4 in Hin'.
  destruct Hin' as (ib & ic & y & x & -> & Hib & Hic & Hy & Hx).
  destruct (Hio ib ic y x Hin) as [Hq ->].
  apply (expected_value_within luts interp b gr gc c 256 hh hw Hwf);
    [lia | reflexivity | assumption | assumption].
Qed.

Lemma even_batch_unit_range (idx : list Z) :
  in_bounds idx (shape even_batch) ->
  (0 <= item even_batch idx)%Q /\ (item even_batch idx <= 1)%Q.
Proof.
  intros Hin. apply in_bounds4 in Hin.
  destruct Hin as (ib & ic & y & x & -> & _ & _ & Hy & Hx).
  assert (Ey : y = 0 \/ y = 1 \/ y = 2 \/ y = 3) by lia.
  assert (Ex : x = 0 \/ x = 1 \/ x = 2 \/ x = 3) by lia.
  destruct Ey as [->|[->|[->| ->]]]; destruct Ex as [->|[->|[->| ->]]];
    vm_compute; split; discriminate.
Qed.

Lemma main_pipeline_returns_witness :
  exists out,
    main_pipeline even_batch (2, 2) = Ok out /\
    shape out = shape even_batch /\
    within 0 255 out.
Proof.
  apply (main_pipeline_returns even_batch 1 1 4 4 2 2
           {| kernel_vert := 2; kernel_horz := 2; pad_vert := 0; pad_horz := 0 |}
           eq_refl); try lia; try reflexivity.
  exact even_batch_unit_range.
Defined.

Lemma single_grid_geometry (h w : Z) :
  1 < h -> 1 < w ->
  exists g, tile_geometry h w (1, 1) true = Ok g /\ pad_vert g < h /\ pad_horz g < w.
Proof.
  intros Hh Hw. unfold tile_geometry, ceil_div. cbn [fst snd Z.eqb bind].
  eexists. split; [reflexivity|]. cbn [pad_vert pad_horz].
  rewrite !Z.div_1_r, !Z.opp_involutive. unfold bump_even.
  pose proof (Z.mod_pos_bound h 2 ltac:(lia)).
  pose proof (Z.mod_pos_bound w 2 ltac:(lia)).
  destruct (h mod 2 =? 0); destruct (w mod 2 =? 0); lia.
Qed.

(** X18. With the grid of [main] ([gh = gw = 1]) no blending takes place:
    the pipeline is a global equalization, every pixel of the result is
    the entry, at the pixel's quantized value, of the one LUT that
    [compute_luts] builds from the whole padded channel. *)
Theorem main_pipeline_single_grid (img : tensor Q) (b c h w : Z) :
  shape img = [b; c; h; w] ->
  0 < b -> 0 < c -> 1 < h -> 1 < w ->
  (forall idx, in_bounds idx (shape img) ->
               (0 <= item img idx)%Q /\ (item img idx <= 1)%Q) ->
  exists tiles batch out,
    compute_tiles img (1, 1) true = Ok (tiles, batch) /\
    main_pipeline img (1, 1) = Ok out /\
    shape out = [b; c; h; w] /\
    forall ib ic y x,
      in_bounds [ib; ic; y; x] [b; c; h; w] ->
      item out [ib; ic; y; x] =
      nth (Z.to_nat (quantize (item img [ib; ic; y; x])))
          (lut (tile_pixels tiles [ib; 0; 0; ic])) 0.
Proof.
  intros Hs Hb Hc Hh Hw Hpx.
  destruct (single_grid_geometry h w Hh Hw) as (g & Hg & Hpv & Hph).
  destruct (main_pipeline_ok img b c h w 1 1 g Hs Hb Hc ltac:(lia) ltac:(lia)
              ltac:(lia) ltac:(lia) Hg Hpv Hph Hpx)
    as (tiles & batch & interp & luts & hh & hw & out & Hct & _ & Hhh & Hhw & _ & Hwf
        & _ & Hil & _ & Hii & Hout & Hso & Hio).
  exists tiles, batch, out.
  split; [exact Hct|]. split; [exact Hout|]. split; [exact Hso|].
  intros ib ic y x Hin. destruct (Hio ib ic y x Hin) as [Hq ->].
  rewrite (wf_interp _ _ _ _ _ _ _ _ _ Hwf) in Hq.
  destruct Hq as (_ & Hj & Hi & _). destruct Hin as (_ & _ & Hy & Hx & _).
  unfold expected_value.
  replace ((x / hw =? 0) || (x / hw =? 2 * 1 - 1)) with true
    by (destruct (Z.eqb_spec (x / hw) 0); destruct (Z.eqb_spec (x / hw) (2 * 1 - 1));
        cbn [orb]; lia).
  replace ((y / hh =? 0) || (y / hh =? 2 * 1 - 1)) with true
    by (destruct (Z.eqb_spec (y / hh) 0); destruct (Z.eqb_spec (y / hh) (2 * 1 - 1));
        cbn [orb]; lia).
  cbn [andb]. unfold mapped.
  pose proof (Z.div_mod y hh ltac:(lia)). pose proof (Z.div_mod x hw ltac:(lia)).
  rewrite Hii by lia.
  replace (y / hh * hh + y mod hh) with y by lia.
  replace (x / hw * hw + x mod hw) with x by lia.
  rewrite Hil.
  replace (y / hh / 2) with 0 by (symmetry; apply Z.div_small; lia).
  replace (x / hw / 2) with 0 by (symmetry; apply Z.div_small; lia).
  reflexivity.
Qed.

Lemma main_pipeline_single_grid_witness :
  exists tiles batch out,
    compute_tiles even_batch (1, 1) true = Ok (tiles, batch) /\
    main_pipeline even_batch (1, 1) = Ok out /\
    shape out = [1; 1; 4; 4] /\
    forall ib ic y x,
      in_bounds [ib; ic; y; x] [1; 1; 4; 4] ->
      item out [ib; ic; y; x] =
      nth (Z.to_nat (quantize (item even_batch [ib; ic; y; x])))
          (lut (tile_pixels tiles [ib; 0; 0; ic])) 0.
Proof.
  apply (main_pipeline_single_grid even_batch 1 1 4 4 eq_refl); try lia.
  exact even_batch_unit_range.
Defined.

(** X19. A channel whose pixels all have the same value is equalized to
    zero everywhere, whatever the grid: every statistics tile of the
    channel is uniform, so all its LUTs are the all-zero table. *)
Theorem main_pipeline_constant_channel (img : tensor Q) (b c h w gr gc : Z)
  (g : geometry) (ib ic : Z) (v : Q) :
  shape img = [b; c; h; w] ->
  0 < b -> 0 < c -> 0 < h -> 0 < w -> 0 < gr -> 0 < gc ->
  tile_geometry h w (gr, gc) true = Ok g ->
  pad_vert g < h -> pad_horz g < w ->
  (forall idx, in_bounds idx (shape img) ->
               (0 <= item img idx)%Q /\ (item img idx <= 1)%Q) ->
  (forall y x, 0 <= y < h -> 0 <= x < w -> item img [ib; ic; y; x] = v) ->
  exists out,
    main_pipeline img (gr, gc) = Ok out /\
    forall y x, in_bounds [ib; ic; y; x] [b; c; h; w] -> item out [ib; ic; y; x] = 0.
Proof.
  intros Hs Hb Hc Hh Hw Hgr Hgc Hg Hpv Hph Hpx Hv.
  destruct (main_pipeline_ok img b c h w gr gc g Hs Hb Hc Hh Hw Hgr Hgc Hg Hpv Hph Hpx)
    as (tiles & batch & interp & luts & hh & hw & out & _ & Hst & Hhh & Hhw & _ & Hwf
        & _ & Hil & Hti & _ & Hout & _ & Hio).
  exists out. split; [exact Hout|].
  assert (Hz : forall r s k, 0 <= r < gr -> 0 <= s < gc ->
                             item luts [ib; r; s; ic; k] = 0).
  { intros r s k Hr Hs'. rewrite Hil. unfold tile_pixels. rewrite Hst. cbn [skipn].
    rewrite (map_constant _ v).
    - rewrite lut_uniform. apply nth_repeat_zero.
    - intros yx Hin. apply indices_in_bounds in Hin.
      destruct yx as [|y [|x [|? ?]]]; cbn [in_bounds] in Hin; try tauto.
      cbn [app].
      destruct (Hti ib r s ic y x Hr Hs' ltac:(tauto) ltac:(tauto))
        as (Y & X & HY & HX & ->).
      apply Hv; assumption. }
  intros y x Hin. destruct (Hio ib ic y x Hin) as [Hq ->].
  rewrite (expected_value_equal_luts luts interp b gr gc c 256 hh hw Hwf).
  2: { intros r s r' s' k Hr Hs' Hr' Hs''. rewrite !Hz by assumption. reflexivity. }
  2: { intros r s k Hr Hs' _. rewrite Hz by assumption. cbn. lia. }
  2: exact Hq.
  - unfold mapped. apply Hz.
    + rewrite (wf_interp _ _ _ _ _ _ _ _ _ Hwf) in Hq.
      destruct Hq as (_ & Hj & _).
      split; [apply Z.div_pos; lia | apply Z.div_lt_upper_bound; lia].
    + rewrite (wf_interp _ _ _ _ _ _ _ _ _ Hwf) in Hq.
      destruct Hq as (_ & _ & Hi & _).
      split; [apply Z.div_pos; lia | apply Z.div_lt_upper_bound; lia].
Qed.

Lemma main_pipeline_constant_channel_witness :
  exists out,
    main_pipeline constant_batch (2, 2) = Ok out /\
    forall y x, in_bounds [0; 0; y; x] [1; 1; 4; 4] -> item out [0; 0; y; x] = 0.
Proof.
  apply (main_pipeline_constant_channel constant_batch 1 1 4 4 2 2
           {| kernel_vert := 2; kernel_horz := 2; pad_vert := 0; pad_horz := 0 |}
           0 0 (1 # 2)%Q eq_refl); try lia; try reflexivity.
  intros idx _. split; discriminate.
Defined.
